(** * litstudy.network: bibliometric graph builders

    A shallow embedding of [src/litstudy/network.py] and the properties of
    its citation, co-citation, bibliographic-coupling and co-author graph
    builders, of the shared edge pruning step and of the plotting entry
    point.

    Python values are modelled as follows.
    - [int] counts and node indices are [nat]; the [max_edges] and
      [max_authors] arguments, which callers choose freely, are [Z].
    - [float] is Rocq's primitive binary64 float.
    - An insertion-ordered [dict] ([defaultdict(int)], the node table of a
      networkx graph) is an association list with unique keys, kept in
      insertion order, because [list(d.items())] followed by a stable sort
      and a slice depends on that order.  The edges of a graph are kept in
      such a list too, one entry per edge; its order stands for nothing
      that networkx shows, and edges are only looked up and counted.
    - [set] of node indices is [gset nat]; keyword/attribute dictionaries,
      whose order is never observed, are [gmap string _].
    - Exceptions are the [Raise] results of a small error monad. *)

From Stdlib Require Import ZArith Lia List Sorted Permutation.
From Stdlib Require Import Floats.PrimFloat.
From Stdlib Require OrderedTypeEx.
From stdpp Require Import gmap strings list.

Set Default Proof Using "Type".

(** ** Exceptions *)

Inductive exn :=
| AssertionError
| ZeroDivisionError
| LookupError      (* KeyError / IndexError *)
| TypeError
| ValueError
| DuplicateIdError (* a [DocumentMapping.add] that rejects a mapped id *).

Inductive result (A : Type) :=
| Ok (a : A)
| Raise (e : exn).
Arguments Ok {A} a.
Arguments Raise {A} e.

#[global] Instance result_ret : MRet result := fun A a => Ok a.
#[global] Instance result_bind : MBind result := fun A B f m =>
  match m with
  | Ok a => f a
  | Raise e => Raise e
  end.

(** The call returned. *)
Definition is_ok {A} (r : result A) : Prop :=
  match r with Ok _ => True | Raise _ => False end.

(** ** Insertion-ordered dictionaries *)

Section odict.
Context {K V : Type} `{EqDecision K}.

Fixpoint od_get (k : K) (d : list (K * V)) : option V :=
  match d with
  | [] => None
  | (k', v) :: d' => if decide (k = k') then Some v else od_get k d'
  end.

(** [d[k] = f(d.get(k))]: an existing key keeps its position, a new key is
    appended. *)
Fixpoint od_upsert (k : K) (f : option V -> V) (d : list (K * V)) : list (K * V) :=
  match d with
  | [] => [(k, f None)]
  | (k', v) :: d' =>
      if decide (k = k') then (k', f (Some v)) :: d'
      else (k', v) :: od_upsert k f d'
  end.

(** [k in d] *)
Definition od_mem (k : K) (d : list (K * V)) : bool :=
  match od_get k d with Some _ => true | None => false end.

(** [list(d.keys())] *)
Definition od_keys (d : list (K * V)) : list K := fst <$> d.

End odict.

(** [d[k] += 1] on a [defaultdict(int)]. *)
Definition incr {K} `{EqDecision K} (k : K) (d : list (K * nat)) : list (K * nat) :=
  od_upsert k (fun o => S (default 0 o)) d.

(** ** Documents *)

(** The values a data column or a colour sequence holds: the colouring
    code only distinguishes [float] from everything else, and the other
    values are modelled as strings (categorical labels). *)
Inductive pyval :=
| VFloat (x : float)
| VStr (s : string).

Record Author := { author_name : option string }.

Record Document := {
  doc_id : string;
  doc_title : string;
  doc_references : option (list string);
  doc_authors : option (list Author)
}.

(** Modelled from the spec: [DocumentSet] of [litstudy.types], an ordered
    collection of documents with a table of named columns ([docs.data]),
    one value per document in each column. *)
Record DocumentSet := {
  documents : list Document;
  data : list (string * list pyval)
}.

(** [doc.references or []] *)
Definition references_or_nil (doc : Document) : list string :=
  default [] (doc_references doc).

(** [doc.authors or []] *)
Definition authors_or_nil (doc : Document) : list Author :=
  default [] (doc_authors doc).

(** [docs.data[prop]] *)
Definition data_column (docs : DocumentSet) (prop : string) : result (list pyval) :=
  match od_get prop (data docs) with
  | Some col => Ok col
  | None => Raise LookupError
  end.

(** [docs.data[prop][i]] *)
Definition data_cell (docs : DocumentSet) (prop : string) (i : nat) : result pyval :=
  col ← data_column docs prop;
  match col !! i with
  | Some v => Ok v
  | None => Raise LookupError
  end.

(** ** Identity mapping *)

(** Modelled from the spec: [DocumentMapping] of [litstudy.types], a map
    from external id to node index with [add] and [get].  The spec leaves
    open whether adding an id that is already mapped is ignored or fails;
    both behaviours are covered by a policy argument. *)
Inductive dup_policy := DupIgnore | DupFail.

Abbreviation DocumentMapping := (gmap string nat).

(** [mapping.get(key)]: the node index, or [None]. *)
Definition mapping_get (m : DocumentMapping) (key : string) : option nat := m !! key.

(** [mapping.add(key, i)] *)
Definition mapping_add (pol : dup_policy) (key : string) (i : nat)
    (m : DocumentMapping) : result DocumentMapping :=
  match m !! key with
  | None => Ok (<[key := i]> m)
  | Some _ =>
      match pol with
      | DupIgnore => Ok m
      | DupFail => Raise DuplicateIdError
      end
  end.

(** ** Colours *)

(** The colours come from seaborn palettes.  seaborn is outside the
    repository, so what [sns.color_palette] makes of a [cmap] name comes
    with the argument: a name it resolves to a matplotlib colormap, the
    name of a palette that is a list of colours, or a name it rejects.
    [None] stands for the current colour cycle, a list of colours. *)
Inductive cmap_arg :=
| Colormap (name : string)
| ColorList (name : string)
| NoPalette (name : string).

(** What a palette call returns: a colormap, which can be called, or a
    list of colours, which can be indexed. *)
Inductive palette :=
| CallablePalette
| ListPalette.

(** [sns.color_palette(cmap, as_cmap=True)] (line 176): a rejected name
    raises [ValueError]; only a colormap name gives a colormap. *)
Definition color_palette_as_cmap (cmap : option cmap_arg) : result palette :=
  match cmap with
  | Some (NoPalette _) => Raise ValueError
  | Some (Colormap _) => Ok CallablePalette
  | Some (ColorList _) | None => Ok ListPalette
  end.

(** [sns.color_palette(cmap, n_colors=n)] (line 181): a rejected name
    raises [ValueError]; otherwise the result is a list of [n] colours. *)
Definition color_palette_n_colors (cmap : option cmap_arg) : result palette :=
  match cmap with
  | Some (NoPalette _) => Raise ValueError
  | _ => Ok ListPalette
  end.

(** A colour is recorded as the palette lookup that produced it. *)
Inductive color :=
| ContinuousColor (cmap : option cmap_arg) (x : float)            (* cmap(x) *)
| DiscreteColor (cmap : option cmap_arg) (n_colors : nat) (k : nat) (* palette[k] *).

(** ** Graphs (networkx [Graph] and [DiGraph]) *)

Inductive attr :=
| AStr (s : string)
| ANat (n : nat)
| AVal (v : pyval)
| ADoc (d : Document)
| AColor (c : color).

Abbreviation attrs := (gmap string attr).

(** [nodes] is the node dictionary in insertion order, as networkx keeps
    it.  [edges] holds the attribute dictionary of every edge under its
    key; networkx has no such table and lists the edges node by node, so
    the order of [edges] means nothing: the statements about edges are
    lookups, memberships and counts. *)
Record Graph := {
  directed : bool;
  nodes : list (nat * attrs);
  edges : list ((nat * nat) * attrs)
}.

Definition empty_graph (d : bool) : Graph :=
  {| directed := d; nodes := []; edges := [] |}.

(** The key an edge between [u] and [v] is stored under: an undirected
    graph keeps one entry per unordered pair. *)
Definition edge_key (d : bool) (u v : nat) : nat * nat :=
  if d then (u, v) else (Nat.min u v, Nat.max u v).

(** [dict.update]: the new entries win. *)
Definition update_attrs (new : attrs) (old : option attrs) : attrs :=
  new ∪ default ∅ old.

(** [g.add_node(n, **a)] *)
Definition add_node (n : nat) (a : attrs) (g : Graph) : Graph :=
  {| directed := directed g;
     nodes := od_upsert n (update_attrs a) (nodes g);
     edges := edges g |}.

(** [g.add_edge(u, v, **a)]: missing end points become nodes. *)
Definition add_edge (u v : nat) (a : attrs) (g : Graph) : Graph :=
  {| directed := directed g;
     nodes := od_upsert v (update_attrs ∅) (od_upsert u (update_attrs ∅) (nodes g));
     edges := od_upsert (edge_key (directed g) u v) (update_attrs a) (edges g) |}.

(** [g[u][v]] *)
Definition edge_attrs (g : Graph) (u v : nat) : option attrs :=
  od_get (edge_key (directed g) u v) (edges g).

(** [g.has_edge(u, v)] *)
Definition has_edge (g : Graph) (u v : nat) : Prop :=
  is_Some (edge_attrs g u v).

(** [g[u][v].get(key)] *)
Definition edge_attr (g : Graph) (u v : nat) (key : string) : option attr :=
  a ← edge_attrs g u v; a !! key.

(** [len(g)] *)
Definition number_of_nodes (g : Graph) : nat := length (nodes g).

(** [g.nodes[i][key] = x] *)
Definition set_node_attr (i : nat) (key : string) (x : attr) (g : Graph) : result Graph :=
  match od_get i (nodes g) with
  | None => Raise LookupError
  | Some _ =>
      Ok {| directed := directed g;
            nodes := od_upsert i (fun o => <[key := x]> (default ∅ o)) (nodes g);
            edges := edges g |}
  end.

(** ** Sorting and slicing *)

Section sorting.
Context {A : Type} (key : A -> nat).

(** [x] goes in front of the first element whose key is not larger, so
    elements with equal keys keep their order. *)
Fixpoint insert_desc (x : A) (l : list A) : list A :=
  match l with
  | [] => [x]
  | y :: l' =>
      if key x <? key y then y :: insert_desc x l' else x :: y :: l'
  end.

(** [l.sort(key=key, reverse=True)]: the stable sort by decreasing key. *)
Fixpoint sort_desc (l : list A) : list A :=
  match l with
  | [] => []
  | x :: l' => insert_desc x (sort_desc l')
  end.

End sorting.

(** [l[:m]] for a Python integer [m]: a negative [m] counts from the end. *)
Definition slice_to {A} (l : list A) (m : Z) : list A :=
  if (0 <=? m)%Z then take (Z.to_nat m) l
  else take (length l - Z.to_nat (- m)) l.

(** The pruning step shared by the co-citation and coupling builders:
<<
    if len(edges) > max_edges:
        edges.sort(key=lambda p: p[1], reverse=True)
        edges = edges[:max_edges]
>> *)
Definition prune_edges {K} (edges : list (K * nat)) (max_edges : Z) : list (K * nat) :=
  if (max_edges <? Z.of_nat (length edges))%Z
  then slice_to (sort_desc snd edges) max_edges
  else edges.

(** ** build_base_network *)

Inductive colors_arg :=
| ColName (column : string)    (* a column name *)
| ColSeq (values : list pyval) (* one value per document *).

Record base_kwargs := {
  colors : option colors_arg;
  cmap : option cmap_arg;
  node_props : option (list string)
}.

(** A call without keyword arguments. *)
Definition no_kwargs : base_kwargs :=
  {| colors := None; cmap := None; node_props := None |}.

(** The loop [for prop in node_props: attr[prop] = docs.data[prop][i]]. *)
Fixpoint node_attr (docs : DocumentSet) (props : list string) (i : nat)
    (attr : attrs) : result attrs :=
  match props with
  | [] => Ok attr
  | prop :: props' =>
      v ← data_cell docs prop i;
      node_attr docs props' i (<[prop := AVal v]> attr)
  end.

(** The loop over [enumerate(docs)] that adds one node per document.  The
    call [g.add_node(i, title=..., doc=..., **attr)] is a [TypeError] when
    [attr] repeats one of the two keywords. *)
Fixpoint base_nodes (pol : dup_policy) (docs : DocumentSet) (props : list string)
    (i : nat) (ds : list Document) (st : Graph * DocumentMapping)
    : result (Graph * DocumentMapping) :=
  match ds with
  | [] => Ok st
  | doc :: ds' =>
      attr ← node_attr docs props i ∅;
      if bool_decide (is_Some (attr !! "title") ∨ is_Some (attr !! "doc"))
      then Raise TypeError
      else
        let g := add_node i (<["title" := AStr (doc_title doc)]>
                              (<["doc" := ADoc doc]> attr)) st.1 in
        mapping ← mapping_add pol (doc_id doc) i st.2;
        base_nodes pol docs props (S i) ds' (g, mapping)
  end.

(** [isinstance(v, float)], with the float. *)
Definition as_float (v : pyval) : option float :=
  match v with VFloat x => Some x | VStr _ => None end.

Definition as_str (v : pyval) : option string :=
  match v with VStr s => Some s | VFloat _ => None end.

(** [min(l)] and [max(l)] on floats: the first element is kept until a
    later one compares strictly smaller (larger). *)
Definition py_min (l : list float) : result float :=
  match l with
  | [] => Raise ValueError
  | x :: l' => Ok (fold_left (fun cur item => if PrimFloat.ltb item cur then item else cur) l' x)
  end.

Definition py_max (l : list float) : result float :=
  match l with
  | [] => Raise ValueError
  | x :: l' => Ok (fold_left (fun cur item => if PrimFloat.ltb cur item then item else cur) l' x)
  end.

(** [x / y] on floats raises when the divisor is zero. *)
Definition py_truediv (x y : float) : result float :=
  if PrimFloat.eqb y 0%float then Raise ZeroDivisionError
  else Ok (PrimFloat.div x y).

(** Lines 175-177: min-max normalisation through a continuous palette.
    The palette is fetched before the loop; in the loop the quotient is
    evaluated before the palette is called, and calling a palette that is
    a list of colours is a [TypeError]. *)
Definition continuous_colors (cmap : option cmap_arg) (cs : list float)
    : result (list color) :=
  begin ← py_min cs;
  end_ ← py_max cs;
  pal ← color_palette_as_cmap cmap;
  mapM (fun c =>
          x ← py_truediv (PrimFloat.sub c begin) (PrimFloat.sub end_ begin);
          match pal with
          | CallablePalette => Ok (ContinuousColor cmap x)
          | ListPalette => Raise TypeError
          end) cs.

(** [sorted(set(l))] on strings. *)
Fixpoint insert_str (s : string) (l : list string) : list string :=
  match l with
  | [] => [s]
  | t :: l' =>
      if String.eqb s t then l
      else if String.ltb s t then s :: l
      else t :: insert_str s l'
  end.

Definition sorted_set (l : list string) : list string :=
  foldr insert_str [] l.

(** [groups[s]]: the position of [s] among the sorted distinct values. *)
Fixpoint index_of (s : string) (l : list string) : option nat :=
  match l with
  | [] => None
  | t :: l' => if String.eqb s t then Some 0 else S <$> index_of s l'
  end.

(** Lines 180-182: one colour of a discrete palette per distinct value, the
    values taken in ascending order.  The branch is reached when some value
    is not a float; sorting then fails as soon as a float is among them.
    The palette is fetched after the values are sorted. *)
Definition categorical_colors (cmap : option cmap_arg) (cs : list pyval)
    : result (list color) :=
  match mapM as_str cs with
  | None => Raise TypeError
  | Some names =>
      let groups := sorted_set names in
      _ ← color_palette_n_colors cmap;
      mapM (fun c =>
              match index_of c groups with
              | Some k => Ok (DiscreteColor cmap (length groups) k)
              | None => Raise LookupError
              end) names
  end.

(** Lines 174-182: numeric colours are normalised, all others grouped. *)
Definition compute_colors (cmap : option cmap_arg) (cs : list pyval)
    : result (list color) :=
  match mapM as_float cs with
  | Some floats => continuous_colors cmap floats
  | None => categorical_colors cmap cs
  end.

(** [for i, c in enumerate(colors): g.nodes[i]['color'] = c] *)
Fixpoint set_colors (i : nat) (cs : list color) (g : Graph) : result Graph :=
  match cs with
  | [] => Ok g
  | c :: cs' => g' ← set_node_attr i "color" (AColor c) g; set_colors (S i) cs' g'
  end.

(** [build_base_network(docs, directed, colors, cmap, node_props)].  The
    test [colors is not None and docs] holds for a colour argument and a
    non-empty document set.  Modelled from the spec: [docs[colors]] for a
    column name is the column of that name. *)
Definition build_base_network (pol : dup_policy) (docs : DocumentSet)
    (directed : bool) (kw : base_kwargs) : result (Graph * DocumentMapping) :=
  let props := default (od_keys (data docs)) (node_props kw) in
  '(g, mapping) ← base_nodes pol docs props 0 (documents docs) (empty_graph directed, ∅);
  match colors kw, documents docs with
  | Some c, _ :: _ =>
      cs ← match c with
           | ColName column => data_column docs column
           | ColSeq values => Ok values
           end;
      if decide (length cs = length (documents docs)) then
        cols ← compute_colors (cmap kw) cs;
        g' ← set_colors 0 cols g;
        Ok (g', mapping)
      else Raise AssertionError
  | _, _ => Ok (g, mapping)
  end.

(** ** build_citation_network *)

(** The inner loop over the references of document [i]: a reference the
    mapping resolves adds the edge, any other is skipped. *)
Definition citation_refs (mapping : DocumentMapping) (i : nat)
    (refs : list string) (g : Graph) : Graph :=
  fold_left (fun g ref =>
               match mapping_get mapping ref with
               | Some j => add_edge i j ∅ g
               | None => g
               end) refs g.

(** The loop over [enumerate(docs)], from index [i] on. *)
Fixpoint citation_docs (mapping : DocumentMapping) (i : nat)
    (ds : list Document) (g : Graph) : Graph :=
  match ds with
  | [] => g
  | doc :: ds' =>
      citation_docs mapping (S i) ds' (citation_refs mapping i (references_or_nil doc) g)
  end.

(** [build_citation_network(docs, **kw)] *)
Definition build_citation_network (pol : dup_policy) (docs : DocumentSet)
    (kw : base_kwargs) : result Graph :=
  '(g, mapping) ← build_base_network pol docs true kw;
  Ok (citation_docs mapping 0 (documents docs) g).

(** ** build_cocitation_network *)

(** [max_edges or len(docs) * 2]: [None] and [0] are both falsy. *)
Definition cocitation_max_edges (max_edges : option Z) (docs : DocumentSet) : Z :=
  match max_edges with
  | None | Some 0%Z => Z.of_nat (length (documents docs) * 2)
  | Some m => m
  end.

(** The resolved references of one document, in list order and with
    repetitions. *)
Definition resolve_refs (mapping : DocumentMapping) (refs : list string) : list nat :=
  omap (mapping_get mapping) refs.

(** The inner loop [for j in refs: if i < j: strength[i, j] += 1]. *)
Definition cocitation_row (i : nat) (refs : list nat)
    (strength : list ((nat * nat) * nat)) : list ((nat * nat) * nat) :=
  fold_left (fun s j => if i <? j then incr (i, j) s else s) refs strength.

(** [for i in refs: for j in refs: if i < j: strength[i, j] += 1] *)
Definition cocitation_pairs (refs : list nat) (strength : list ((nat * nat) * nat))
    : list ((nat * nat) * nat) :=
  fold_left (fun s i => cocitation_row i refs s) refs strength.

(** Lines 241-255: the strength table after the loop over the documents. *)
Definition cocitation_strength (mapping : DocumentMapping) (ds : list Document)
    : list ((nat * nat) * nat) :=
  fold_left (fun s doc =>
               cocitation_pairs (resolve_refs mapping (references_or_nil doc)) s)
            ds [].

(** [for (i, j), weight in edges: g.add_edge(i, j, key=weight, ...)], one
    keyword per element of [keys]. *)
Definition add_weighted_edges (keys : list string) (es : list ((nat * nat) * nat))
    (g : Graph) : Graph :=
  fold_left (fun g e =>
               add_edge e.1.1 e.1.2 (list_to_map ((fun k => (k, ANat e.2)) <$> keys)) g)
            es g.

(** [build_cocitation_network(docs, max_edges=max_edges, **kw)] *)
Definition build_cocitation_network (pol : dup_policy) (docs : DocumentSet)
    (max_edges : option Z) (kw : base_kwargs) : result Graph :=
  let max_edges := cocitation_max_edges max_edges docs in
  '(g, mapping) ← build_base_network pol docs false kw;
  let strength := cocitation_strength mapping (documents docs) in
  let edges := prune_edges strength max_edges in
  Ok (add_weighted_edges ["weight"] edges g).

(** ** build_coupling_network *)

(** One step of the inner loop over a document's references.  The state
    is the mapping, the counter [n] and the list [refs] built so far:
<<
    i = mapping.get(ref)
    if i is None:
        mapping.add(ref, n)
        n += 1
        i = n
    if i is not None:
        refs.append(i)
>> *)
Definition coupling_ref (pol : dup_policy)
    (st : DocumentMapping * nat * list nat) (ref : string)
    : result (DocumentMapping * nat * list nat) :=
  let '(mapping, n, refs) := st in
  match mapping_get mapping ref with
  | Some i => Ok (mapping, n, refs ++ [i])
  | None =>
      mapping' ← mapping_add pol ref n mapping;
      let n' := S n in
      let i := n' in
      Ok (mapping', n', refs ++ [i])
  end.

(** The inner loop over the references of one document. *)
Fixpoint coupling_refs (pol : dup_policy) (refs : list string)
    (st : DocumentMapping * nat * list nat)
    : result (DocumentMapping * nat * list nat) :=
  match refs with
  | [] => Ok st
  | ref :: refs' => st' ← coupling_ref pol st ref; coupling_refs pol refs' st'
  end.

(** The loop over the documents that builds [doc_refs]. *)
Fixpoint coupling_doc_refs (pol : dup_policy) (ds : list Document)
    (mapping : DocumentMapping) (n : nat) (doc_refs : list (gset nat))
    : result (list (gset nat)) :=
  match ds with
  | [] => Ok doc_refs
  | doc :: ds' =>
      '(mapping', n', refs) ← coupling_refs pol (references_or_nil doc) (mapping, n, []);
      coupling_doc_refs pol ds' mapping' n' (doc_refs ++ [list_to_set refs])
  end.

(** [enumerate(l)] *)
Definition enumerate {A} (l : list A) : list (nat * A) := imap pair l.

(** Lines 315-322. *)
Definition coupling_strength (doc_refs : list (gset nat)) : list ((nat * nat) * nat) :=
  fold_left (fun s ia =>
     fold_left (fun s jb =>
        let common := ia.2 ∩ jb.2 in
        if decide (common = ∅) then s
        else od_upsert (ia.1, jb.1) (fun _ => size common) s)
       (enumerate (take ia.1 doc_refs)) s)
    (enumerate doc_refs) [].

(** [build_coupling_network(docs, max_edges, **kw)] *)
Definition build_coupling_network (pol : dup_policy) (docs : DocumentSet)
    (max_edges : Z) (kw : base_kwargs) : result Graph :=
  '(g, mapping) ← build_base_network pol docs false kw;
  let n := number_of_nodes g in
  doc_refs ← coupling_doc_refs pol (documents docs) mapping n [];
  let strength := coupling_strength doc_refs in
  let edges := prune_edges strength max_edges in
  Ok (add_weighted_edges ["weight"; "score"] edges g).

(** ** build_coauthor_network *)

(** [if name:] holds for a name that is neither [None] nor empty. *)
Definition truthy_name (a : Author) : option string :=
  match author_name a with
  | Some s => if decide (s = "") then None else Some s
  | None => None
  end.

(** First loop: the number of occurrences of every author name. *)
Definition count_authors (ds : list Document) : list (string * nat) :=
  fold_left (fun count doc =>
     fold_left (fun count author =>
        match truthy_name author with
        | Some name => incr name count
        | None => count
        end) (authors_or_nil doc) count)
    ds [].

(** Lines 369-373. *)
Definition retained_authors (count : list (string * nat)) (max_authors : option Z)
    : list string :=
  let authors := od_keys count in
  match max_authors with
  | Some m =>
      if (m <? Z.of_nat (length authors))%Z
      then slice_to (sort_desc (fun name => default 0 (od_get name count)) authors) m
      else authors
  | None => authors
  end.

(** Lines 375-378: every retained author becomes a node and gets an index. *)
Definition coauthor_nodes (authors : list string) (g : Graph)
    : Graph * list (string * nat) :=
  fold_left (fun st ia =>
     (add_node ia.1 {["title" := AStr ia.2]} st.1,
      od_upsert ia.2 (fun _ => ia.1) st.2))
    (enumerate authors) (g, []).

(** [[a.name for a in doc.authors or [] if a.name]] *)
Definition author_names (doc : Document) : list string :=
  omap truthy_name (authors_or_nil doc).

(** The inner loop [for right in authors[:i]] for one [left]. *)
Definition coauthor_row (mapping : list (string * nat)) (left : string)
    (rights : list string) (es : list ((nat * nat) * nat))
    : list ((nat * nat) * nat) :=
  fold_left (fun es right =>
               match od_get left mapping, od_get right mapping with
               | Some l, Some r => incr (l, r) es
               | _, _ => es
               end) rights es.

(** Lines 385-388 for one document. *)
Definition coauthor_pairs (mapping : list (string * nat)) (authors : list string)
    (es : list ((nat * nat) * nat)) : list ((nat * nat) * nat) :=
  fold_left (fun es il => coauthor_row mapping il.2 (take il.1 authors) es)
            (enumerate authors) es.

(** Lines 380-388: the edge table after the loop over the documents. *)
Definition coauthor_edges (mapping : list (string * nat)) (ds : list Document)
    : list ((nat * nat) * nat) :=
  fold_left (fun es doc => coauthor_pairs mapping (author_names doc) es) ds [].

(** [build_coauthor_network(docs, max_authors=max_authors)] *)
Definition build_coauthor_network (docs : DocumentSet) (max_authors : option Z) : Graph :=
  let count := count_authors (documents docs) in
  let authors := retained_authors count max_authors in
  let '(g, mapping) := coauthor_nodes authors (empty_graph true) in
  let es := coauthor_edges mapping (documents docs) in
  add_weighted_edges ["weight"] es g.

(** ** plot_network *)

(** Graph objects live in a store and are passed by reference, so that a
    mutation through one name is seen through every alias. *)
Abbreviation store := (gmap nat Graph).

(** [n] is an end point of the edge [e]. *)
Definition touches (n : nat) (e : (nat * nat) * attrs) : bool :=
  (n =? e.1.1) || (n =? e.1.2).

(** [nx.isolates(g)]: the nodes of degree zero. *)
Definition isolates (g : Graph) : list nat :=
  List.filter (fun n => forallb (fun e => negb (touches n e)) (edges g))
              (od_keys (nodes g)).

(** [n in ns] *)
Definition mem_nat (n : nat) (ns : list nat) : bool := existsb (Nat.eqb n) ns.

(** The effect of [g.remove_nodes_from(ns)] on the object [g]. *)
Definition remove_nodes_from (ns : list nat) (g : Graph) : Graph :=
  {| directed := directed g;
     nodes := List.filter (fun p => negb (mem_nat p.1 ns)) (nodes g);
     edges := List.filter (fun e => negb (mem_nat e.1.1 ns || mem_nat e.1.2 ns)) (edges g) |}.

(** [g.copy()]: a new object with the same content. *)
Definition copy (r : nat) (σ : store) : option (nat * store) :=
  g ← σ !! r;
  let r' := fresh (dom σ) in
  Some (r', <[r' := g]> σ).

(** [g.subgraph(ns)]: the induced subgraph (a read-only view). *)
Definition subgraph (ns : gset nat) (g : Graph) : Graph :=
  {| directed := directed g;
     nodes := List.filter (fun p => bool_decide (p.1 ∈ ns)) (nodes g);
     edges := List.filter (fun e => bool_decide (e.1.1 ∈ ns) && bool_decide (e.1.2 ∈ ns))
                          (edges g) |}.

(** Neighbours of [u], edge directions ignored. *)
Definition adjacent (g : Graph) (u : nat) : list nat :=
  flat_map (fun e : (nat * nat) * attrs =>
              if u =? e.1.1 then [e.1.2]
              else if u =? e.1.2 then [e.1.1] else []) (edges g).

(** The nodes reachable from the frontier, added to [seen]. *)
Fixpoint reach (fuel : nat) (g : Graph) (seen : gset nat) (frontier : list nat)
    : gset nat :=
  match fuel, frontier with
  | S fuel', u :: rest =>
      if decide (u ∈ seen) then reach fuel' g seen rest
      else reach fuel' g ({[u]} ∪ seen) (adjacent g u ++ rest)
  | _, _ => seen
  end.

(** [nx.connected_components] / [nx.weakly_connected_components]: the
    components in the order in which their first node occurs. *)
Definition connected_components (g : Graph) : list (gset nat) :=
  fold_left (fun cc u =>
               if existsb (fun c : gset nat => bool_decide (u ∈ c)) cc then cc
               else cc ++ [reach (S (length (nodes g) + 2 * length (edges g))) g ∅ [u]])
            (od_keys (nodes g)) [].

(** What the call leaves behind: the message, or the graph handed to the
    pyvis widget (layout, sizes and styling are computed by numpy, fa2 and
    pyvis from this graph and are not modelled). *)
Inductive plot_output :=
| NoEdgesGiven
| Shown (is_directed : bool) (view : Graph).

(** [plot_network(g, largest_component=...)] for the graph object at
    reference [r]; [None] when [r] is not a graph of the store. *)
Definition plot_network (largest_component : bool) (r : nat) (σ : store)
    : option (plot_output * store) :=
  g0 ← σ !! r;
  '(r1, σ1) ← match isolates g0 with
              | [] => Some (r, σ)
              | ns =>
                  '(r', σ') ← copy r σ;
                  Some (r', alter (remove_nodes_from ns) r' σ')
              end;
  g1 ← σ1 !! r1;
  if decide (length (edges g1) = 0) then Some (NoEdgesGiven, σ1)
  else
    let view :=
      if largest_component then
        match sort_desc size (connected_components g1) with
        | c :: _ => subgraph c g1
        | [] => g1
        end
      else g1 in
    Some (Shown (directed g1) view, σ1).

(** ** Statements of the documented behaviour *)

(** No edge of [g] carries an attribute. *)
Definition unweighted (g : Graph) : Prop :=
  ∀ u v a, edge_attrs g u v = Some a → a = ∅.

(** Every edge of [g] stores one value under "weight" and "score". *)
Definition weight_is_score (g : Graph) : Prop :=
  ∀ u v a, edge_attrs g u v = Some a → a !! "weight" = a !! "score".

(** A list in decreasing order of [key]. *)
Definition descending {A} (key : A -> nat) (l : list A) : Prop :=
  StronglySorted (fun a b => key b ≤ key a) l.

(** The value of a counter dictionary at [k] ([0] for a missing key). *)
Definition od_count {K} `{EqDecision K} (k : K) (d : list (K * nat)) : nat :=
  default 0 (od_get k d).

(** The coupling strength the docstring describes: the number of
    reference ids two documents share. *)
Definition spec_coupling_weight (a b : Document) : nat :=
  size ((list_to_set (references_or_nil a) : gset string)
        ∩ list_to_set (references_or_nil b)).

(** The co-citation strength of the claim: the number of documents whose
    reference list contains the ids of both documents. *)
Definition spec_cocitation_strength (ds : list Document) (a b : Document) : nat :=
  length (filter (fun doc => doc_id a ∈ references_or_nil doc
                             ∧ doc_id b ∈ references_or_nil doc) ds).

(** The weight the docstring describes: the number of documents that list
    both authors. *)
Definition spec_coauthor_weight (ds : list Document) (a b : string) : nat :=
  length (filter (fun doc => a ∈ author_names doc ∧ b ∈ author_names doc) ds).

(** The index given to every retained author (the [mapping] dictionary of
    [build_coauthor_network]). *)
Definition coauthor_mapping (docs : DocumentSet) (max_authors : option Z)
    : list (string * nat) :=
  (coauthor_nodes (retained_authors (count_authors (documents docs)) max_authors)
                  (empty_graph true)).2.

(** What the double loop of [build_cocitation_network] adds up for the
    pair [(a, b)]: every document contributes the number of positions of
    [a] in its resolved reference list times the number of positions of
    [b]. *)
Definition cocitation_count (mapping : DocumentMapping) (ds : list Document)
    (a b : nat) : nat :=
  sum_list ((fun doc =>
               let refs := resolve_refs mapping (references_or_nil doc) in
               count_occ Nat.eq_dec refs a * count_occ Nat.eq_dec refs b) <$> ds).

(** ** Example inputs *)

(** A strength table with four edges, two of them of weight 3. *)
Definition example_strength : list ((nat * nat) * nat) :=
  [((0, 1), 1); ((0, 2), 3); ((1, 2), 2); ((1, 3), 3)].

(** The worked example: D1 cites D2, D3 and a document outside the set,
    D2 cites D3, D3 has no reference list. *)
Definition worked_docs : DocumentSet :=
  {| documents :=
       [ {| doc_id := "D1"; doc_title := "first";
            doc_references := Some ["D2"; "D3"; "X9"]; doc_authors := None |};
         {| doc_id := "D2"; doc_title := "second";
            doc_references := Some ["D3"]; doc_authors := None |};
         {| doc_id := "D3"; doc_title := "third";
            doc_references := None; doc_authors := None |} ];
     data := [] |}.

Definition worked_mapping : DocumentMapping :=
  list_to_map [("D1", 0); ("D2", 1); ("D3", 2)].

Definition worked_base (d : bool) : Graph :=
  {| directed := d;
     nodes := imap (fun i doc =>
                      (i, {[ "title" := AStr (doc_title doc); "doc" := ADoc doc ]}))
                   (documents worked_docs);
     edges := [] |}.

Definition empty_docs : DocumentSet := {| documents := []; data := [] |}.

Definition color_kwargs (values : list pyval) : base_kwargs :=
  {| colors := Some (ColSeq values); cmap := None; node_props := None |}.

Definition plain_doc (key : string) (refs : list string) : Document :=
  {| doc_id := key; doc_title := key; doc_references := Some refs; doc_authors := None |}.

Definition authored_doc (key : string) (names : list string) : Document :=
  {| doc_id := key; doc_title := key; doc_references := None;
     doc_authors := Some ((fun n => {| author_name := Some n |}) <$> names) |}.

(** Two documents cited together by a third: asking for zero edges still
    returns their co-citation edge. *)
Definition cocited_docs : DocumentSet :=
  {| documents :=
       [ {| doc_id := "A"; doc_title := "a"; doc_references := None; doc_authors := None |};
         {| doc_id := "B"; doc_title := "b"; doc_references := None; doc_authors := None |};
         {| doc_id := "C"; doc_title := "c"; doc_references := Some ["A"; "B"];
            doc_authors := None |} ];
     data := [] |}.

(** Two documents that cite the same outside work "R". *)
Definition shared_reference_docs : DocumentSet :=
  {| documents := [plain_doc "P" ["R"]; plain_doc "Q" ["R"]]; data := [] |}.

(** "C" lists "A" twice. *)
Definition repeated_reference_docs : DocumentSet :=
  {| documents := [plain_doc "A" []; plain_doc "B" []; plain_doc "C" ["A"; "A"; "B"]];
     data := [] |}.

(** Two papers by the same two authors, listed in opposite orders. *)
Definition swapped_authors_docs : DocumentSet :=
  {| documents := [authored_doc "P" ["Ada"; "Bob"]; authored_doc "Q" ["Bob"; "Ada"]];
     data := [] |}.

(** A graph with the edge 0 -> 1 and the isolated node 2. *)
Definition graph_with_isolate : Graph :=
  {| directed := true;
     nodes := [(0, {["title" := AStr "a"]}); (1, {["title" := AStr "b"]});
               (2, {["title" := AStr "c"]})];
     edges := [((0, 1), ∅)] |}.

(** [j] is the first position of [ds] whose document has the id [key]. *)
Definition first_with_id (ds : list Document) (key : string) (j : nat) : Prop :=
  (∃ doc, ds !! j = Some doc ∧ doc_id doc = key)
  ∧ ∀ j' doc', j' < j → ds !! j' = Some doc' → doc_id doc' ≠ key.

(** [s < t] on Python strings. *)
Definition str_lt (s t : string) : Prop := String.ltb s t = true.

(** The attribute dictionary of a weighted edge: [w] under every key. *)
Definition weight_attrs (keys : list string) (w : nat) : attrs :=
  list_to_map ((fun k => (k, ANat w)) <$> keys).

(** The entry of the coupling strength table under the key [(i, j)]: the
    number of common elements of the reference sets of the documents at
    the positions [j < i], when there is one. *)
Definition coupling_entry (doc_refs : list (gset nat)) (i j : nat) : option nat :=
  match doc_refs !! i, doc_refs !! j with
  | Some a, Some b =>
      if decide (j < i ∧ a ∩ b ≠ ∅) then Some (size (a ∩ b)) else None
  | _, _ => None
  end.

(** A document set in which every reference is the id of a document. *)
Definition closed_reference_docs : DocumentSet :=
  {| documents := [plain_doc "A" ["C"]; plain_doc "B" ["C"; "A"]; plain_doc "C" []];
     data := [] |}.

(** The weight of the edge from [u] to [v], [0] when there is none. *)
Definition edge_weight (g : Graph) (u v : nat) : nat :=
  match edge_attr g u v "weight" with
  | Some (ANat n) => n
  | _ => 0
  end.

(** What the double loop of [build_coauthor_network] adds to the weight of
    [(u, v)] for one document: for every position whose name has the index
    [u], the number of earlier positions whose name has the index [v]. *)
Definition coauthor_pair_count (mapping : list (string * nat)) (authors : list string)
    (u v : nat) : nat :=
  sum_list (imap (fun i left =>
                    if decide (od_get left mapping = Some u)
                    then length (filter (fun right => od_get right mapping = Some v)
                                        (take i authors))
                    else 0) authors).

(** ** Keyword arguments and the plotting shorthands *)

(** The keyword dictionary [**kwargs] is an insertion-ordered dictionary
    from names to Python values of some type [V]. *)
Section kwargs.
Context {V : Type}.

(** [split_kwargs] for the positional arguments [names] and the keyword
    arguments [kwargs]. *)
Definition split_kwargs (names : list string) (kwargs : list (string * V))
    : list (string * V) * list (string * V) :=
  let names := names ++ ["colors"; "cmap"] in
  fold_left (fun lr kv =>
               if bool_decide (kv.1 ∈ names)
               then (od_upsert kv.1 (fun _ => kv.2) lr.1, lr.2)
               else (lr.1, od_upsert kv.1 (fun _ => kv.2) lr.2))
            kwargs ([], []).

(** How the Python values of the keyword arguments are read: the value of
    [colors] ([None], a column name or a sequence), the value of [cmap],
    and the truth value of [largest_component]. *)
Variable read_colors : V -> option colors_arg.
Variable read_cmap : V -> option cmap_arg.
Variable truth : V -> bool.

(** The keyword arguments [**b] as [build_base_network] receives them;
    [b] has no other keys than [colors] and [cmap]. *)
Definition base_kwargs_of (b : list (string * V)) : base_kwargs :=
  {| colors := od_get "colors" b ≫= read_colors;
     cmap := od_get "cmap" b ≫= read_cmap;
     node_props := None |}.

(** The keyword-only parameters of [plot_network]. *)
Definition plot_network_params : list string :=
  ["height"; "smooth_edges"; "max_node_size"; "min_node_size";
   "largest_component"; "interactive"; "controls"; "scale"; "iterations";
   "gravity"].

(** [plot_network(g, k1=.., .., **p)] for a graph [g] that was just built,
    with the keywords [fixed] written out in the call: a keyword of [p]
    that is not a parameter, or that is also written out, is a
    [TypeError] of the call. *)
Definition call_plot_network (g : Graph) (fixed : list string) (p : list (string * V))
    : result plot_output :=
  if forallb (fun k => bool_decide (k ∈ plot_network_params ∧ k ∉ fixed)) (od_keys p)
  then
    let largest_component :=
      match od_get "largest_component" p with
      | Some v => truth v
      | None => true
      end in
    match plot_network largest_component 0 {[0 := g]} with
    | Some (out, _) => Ok out
    | None => Raise LookupError
    end
  else Raise TypeError.

(** [plot_citation_network(docs, **kwargs)] *)
Definition plot_citation_network (pol : dup_policy) (docs : DocumentSet)
    (kwargs : list (string * V)) : result plot_output :=
  let '(b, p) := split_kwargs [] kwargs in
  g ← build_citation_network pol docs (base_kwargs_of b);
  call_plot_network g [] p.

(** [plot_cocitation_network(docs, max_edges=max_edges, **kwargs)]; the
    parameter [node_size] is not used. *)
Definition plot_cocitation_network (pol : dup_policy) (docs : DocumentSet)
    (max_edges : option Z) (kwargs : list (string * V)) : result plot_output :=
  let '(b, p) := split_kwargs [] kwargs in
  g ← build_cocitation_network pol docs max_edges (base_kwargs_of b);
  call_plot_network g [] p.

(** [build_coupling_network(docs, max_edges, **kw)] for a [max_edges] that
    may be [None]: the comparison [len(edges) > None] is a [TypeError]. *)
Definition build_coupling_network_opt (pol : dup_policy) (docs : DocumentSet)
    (max_edges : option Z) (kw : base_kwargs) : result Graph :=
  match max_edges with
  | Some m => build_coupling_network pol docs m kw
  | None =>
      '(g, mapping) ← build_base_network pol docs false kw;
      doc_refs ← coupling_doc_refs pol (documents docs) mapping (number_of_nodes g) [];
      Raise TypeError
  end.

(** [plot_coupling_network(docs, max_edges=max_edges, node_size=.., **kwargs)] *)
Definition plot_coupling_network (pol : dup_policy) (docs : DocumentSet)
    (max_edges : option Z) (kwargs : list (string * V)) : result plot_output :=
  let '(b, p) := split_kwargs [] kwargs in
  g ← build_coupling_network_opt pol docs max_edges (base_kwargs_of b);
  call_plot_network g ["min_node_size"; "max_node_size"] p.

(** [plot_coauthor_network(docs, max_authors=max_authors, **kwargs)]:
    [build_coauthor_network] has no parameter but [max_authors], so any
    keyword in [b] is a [TypeError]. *)
Definition plot_coauthor_network (docs : DocumentSet) (max_authors : option Z)
    (kwargs : list (string * V)) : result plot_output :=
  let '(b, p) := split_kwargs [] kwargs in
  g ← match b with
      | [] => Ok (build_coauthor_network docs max_authors)
      | _ :: _ => Raise TypeError
      end;
  call_plot_network g [] p.

End kwargs.

(** * Properties *)

(** ** The error monad *)

Lemma bind_Ok {A B} (f : A -> result B) (m : result A) (b : B) :
  m ≫= f = Ok b ↔ ∃ a, m = Ok a ∧ f a = Ok b.
Proof.
  destruct m as [a|e]; simpl; split.
  - intros H. exists a. auto.
  - intros (a' & [= ->] & H). exact H.
  - discriminate.
  - intros (a' & H & _). discriminate.
Qed.

(** ** Insertion-ordered dictionaries *)

Section odict_facts.
Context {K V : Type} `{EqDecision K}.
Implicit Types (k : K) (d : list (K * V)) (f : option V -> V).

Lemma od_get_upsert_eq k f d :
  od_get k (od_upsert k f d) = Some (f (od_get k d)).
Proof.
  induction d as [|[k' v] d IH]; simpl.
  - by rewrite decide_True.
  - destruct (decide (k = k')) as [->|Hne]; simpl.
    + by rewrite decide_True.
    + by rewrite decide_False.
Qed.

Lemma od_get_upsert_ne k k' f d :
  k ≠ k' → od_get k' (od_upsert k f d) = od_get k' d.
Proof.
  intros Hne. induction d as [|[k0 v] d IH]; simpl.
  - by rewrite decide_False.
  - destruct (decide (k = k0)) as [->|Hne0]; simpl.
    + by rewrite !decide_False.
    + by rewrite IH.
Qed.

Lemma od_get_upsert k k' f d :
  od_get k' (od_upsert k f d)
  = if decide (k = k') then Some (f (od_get k d)) else od_get k' d.
Proof.
  case_decide; [subst; apply od_get_upsert_eq | by apply od_get_upsert_ne].
Qed.

Lemma od_get_Some_elem k v d : od_get k d = Some v → (k, v) ∈ d.
Proof.
  induction d as [|[k' v'] d IH]; simpl; [done|].
  case_decide; intros; simplify_eq; [left | right; auto].
Qed.

Lemma od_get_None k d : od_get k d = None ↔ k ∉ od_keys d.
Proof.
  unfold od_keys. induction d as [|[k' v'] d IH]; cbn [od_get].
  - split; [intros _; apply not_elem_of_nil | done].
  - rewrite fmap_cons, not_elem_of_cons. cbn [fst].
    case_decide; subst; split; try done.
    + intros [? _]. done.
    + intros. split; [done | by apply IH].
    + intros [_ ?]. by apply IH.
Qed.

Lemma od_get_is_Some k d : is_Some (od_get k d) ↔ k ∈ od_keys d.
Proof.
  destruct (od_get k d) eqn:E.
  - split; [intros _ | eauto].
    destruct (decide (k ∈ od_keys d)) as [|Hn]; [done|].
    apply od_get_None in Hn. congruence.
  - split; [intros [? ?]; done|]. intros Hin. apply od_get_None in E. done.
Qed.

Lemma od_upsert_keys k f d :
  od_keys (od_upsert k f d)
  = if od_mem k d then od_keys d else od_keys d ++ [k].
Proof.
  unfold od_mem, od_keys. induction d as [|[k' v] d IH]; [done|].
  cbn [od_upsert od_get]. case_decide; [done|].
  rewrite !fmap_cons, IH. by destruct (od_get k d).
Qed.

Lemma od_upsert_length_le k f d : length d ≤ length (od_upsert k f d).
Proof.
  induction d as [|[k' v] d IH]; simpl; [lia|]. case_decide; simpl; lia.
Qed.

Lemma od_upsert_NoDup k f d : NoDup (od_keys d) → NoDup (od_keys (od_upsert k f d)).
Proof.
  intros Hnd. rewrite od_upsert_keys. unfold od_mem.
  destruct (od_get k d) eqn:E; [done|].
  apply od_get_None in E.
  apply NoDup_app. split_and!; [done | | apply NoDup_singleton].
  intros x Hx Hx'%list_elem_of_singleton. by subst.
Qed.

End odict_facts.

(** ** Graph operations *)

Lemma edge_attrs_add_edge u v a g x y :
  edge_attrs (add_edge u v a g) x y
  = if decide (edge_key (directed g) u v = edge_key (directed g) x y)
    then Some (update_attrs a (edge_attrs g u v))
    else edge_attrs g x y.
Proof. unfold edge_attrs, add_edge. simpl. apply od_get_upsert. Qed.

Lemma has_edge_add_edge u v a g x y :
  has_edge (add_edge u v a g) x y
  ↔ edge_key (directed g) u v = edge_key (directed g) x y ∨ has_edge g x y.
Proof.
  unfold has_edge. rewrite edge_attrs_add_edge. case_decide.
  - split; eauto.
  - split; [by right | by intros [?|?]].
Qed.

Lemma edge_key_directed u v x y :
  edge_key true u v = edge_key true x y ↔ u = x ∧ v = y.
Proof. simpl. split; [by intros [= -> ->] | by intros [-> ->]]. Qed.

Lemma edge_key_undirected_sym u v : edge_key false u v = edge_key false v u.
Proof. simpl. f_equal; lia. Qed.

(** In an undirected graph the attributes of an edge do not depend on the
    order in which its end points are given. *)
Lemma edge_attrs_sym g u v :
  directed g = false → edge_attrs g u v = edge_attrs g v u.
Proof. intros Hd. unfold edge_attrs. by rewrite Hd, edge_key_undirected_sym. Qed.

(** ** build_base_network *)

Lemma base_nodes_graph pol docs props i ds st st' :
  base_nodes pol docs props i ds st = Ok st' →
  directed st'.1 = directed st.1 ∧ edges st'.1 = edges st.1.
Proof.
  revert i st. induction ds as [|doc ds IH]; intros i st; simpl.
  - by intros [= <-].
  - intros H. apply bind_Ok in H as (attr & _ & H).
    case_bool_decide; [done|].
    apply bind_Ok in H as (mapping & _ & H).
    apply IH in H. simpl in H. done.
Qed.

Lemma set_node_attr_graph i key x g g' :
  set_node_attr i key x g = Ok g' →
  directed g' = directed g ∧ edges g' = edges g.
Proof.
  unfold set_node_attr. destruct (od_get i (nodes g)); [|done].
  by intros [= <-].
Qed.

Lemma set_colors_graph i cs g g' :
  set_colors i cs g = Ok g' →
  directed g' = directed g ∧ edges g' = edges g.
Proof.
  revert i g. induction cs as [|c cs IH]; intros i g; simpl.
  - by intros [= <-].
  - intros H. apply bind_Ok in H as (g1 & H1 & H).
    apply set_node_attr_graph in H1 as [<- <-]. by apply IH in H.
Qed.

(** The base graph has the requested direction and no edge. *)
Lemma build_base_network_graph pol docs d kw g mapping :
  build_base_network pol docs d kw = Ok (g, mapping) →
  directed g = d ∧ edges g = [].
Proof.
  unfold build_base_network. intros H.
  apply bind_Ok in H as ([g0 m0] & H0 & H).
  apply base_nodes_graph in H0 as [Hd He]. simpl in Hd, He.
  destruct (colors kw) as [c|]; [destruct (documents docs) as [|doc ds]|];
    try (injection H as <- <-; done).
  apply bind_Ok in H as (cs & _ & H).
  case_decide; [|done].
  apply bind_Ok in H as (cols & _ & H).
  apply bind_Ok in H as (g1 & H1 & H).
  injection H as <- <-.
  apply set_colors_graph in H1 as [-> ->]. done.
Qed.

(** ** build_citation_network *)

Lemma unweighted_add_edge u v g :
  unweighted g → unweighted (add_edge u v ∅ g).
Proof.
  intros Hg x y a. rewrite edge_attrs_add_edge. case_decide.
  - intros [= <-]. unfold update_attrs. rewrite (left_id_L ∅ (∪)).
    destruct (edge_attrs g u v) as [b|] eqn:E; simpl; [|done]. by eapply Hg.
  - apply Hg.
Qed.

Lemma citation_refs_cons mapping i ref refs g :
  citation_refs mapping i (ref :: refs) g
  = citation_refs mapping i refs
      (match mapping_get mapping ref with
       | Some j => add_edge i j ∅ g
       | None => g
       end).
Proof. reflexivity. Qed.

Lemma citation_refs_directed mapping i refs g :
  directed (citation_refs mapping i refs g) = directed g.
Proof.
  revert g. induction refs as [|ref refs IH]; intros g; [done|].
  rewrite citation_refs_cons, IH. by destruct (mapping_get mapping ref).
Qed.

Lemma citation_refs_unweighted mapping i refs g :
  unweighted g → unweighted (citation_refs mapping i refs g).
Proof.
  revert g. induction refs as [|ref refs IH]; intros g Hg; [done|].
  rewrite citation_refs_cons.
  apply IH. destruct (mapping_get mapping ref); [by apply unweighted_add_edge | done].
Qed.

Lemma citation_refs_has_edge mapping i refs g x y :
  directed g = true →
  has_edge (citation_refs mapping i refs g) x y
  ↔ has_edge g x y ∨ (x = i ∧ ∃ ref, ref ∈ refs ∧ mapping_get mapping ref = Some y).
Proof.
  revert g. induction refs as [|ref refs IH]; intros g Hd.
  - split; [by left|]. intros [?|(_ & ref & Hin & _)]; [done|].
    by apply elem_of_nil in Hin.
  - rewrite citation_refs_cons, IH; clear IH.
    2: { by destruct (mapping_get mapping ref). }
    destruct (mapping_get mapping ref) as [j|] eqn:E.
    + rewrite has_edge_add_edge, Hd, edge_key_directed. split.
      * intros [[[<- <-]|?]|(-> & ref' & Hin & Hget)]; [right|by left|right];
          (split; [done|]); [exists ref | exists ref']; split; auto; by constructor.
      * intros [?|(-> & ref' & Hin & Hget)]; [by left; right|].
        apply elem_of_cons in Hin as [->|Hin].
        -- left; left. rewrite E in Hget. by injection Hget as ->.
        -- right. eauto.
    + split.
      * intros [?|(-> & ref' & Hin & Hget)]; [by left|right].
        split; [done|]. exists ref'. split; [by constructor|done].
      * intros [?|(-> & ref' & Hin & Hget)]; [by left|].
        apply elem_of_cons in Hin as [->|Hin]; [congruence|]. right; eauto.
Qed.

Lemma citation_docs_directed mapping i ds g :
  directed (citation_docs mapping i ds g) = directed g.
Proof.
  revert i g. induction ds as [|doc ds IH]; intros i g; simpl; [done|].
  by rewrite IH, citation_refs_directed.
Qed.

Lemma citation_docs_unweighted mapping i ds g :
  unweighted g → unweighted (citation_docs mapping i ds g).
Proof.
  revert i g. induction ds as [|doc ds IH]; intros i g Hg; simpl; [done|].
  by apply IH, citation_refs_unweighted.
Qed.

Lemma citation_docs_has_edge mapping i ds g x y :
  directed g = true →
  has_edge (citation_docs mapping i ds g) x y
  ↔ has_edge g x y
    ∨ ∃ doc ref, i ≤ x ∧ ds !! (x - i) = Some doc
                 ∧ ref ∈ references_or_nil doc ∧ mapping_get mapping ref = Some y.
Proof.
  revert i g. induction ds as [|doc ds IH]; intros i g Hd; simpl.
  - split; [by left|]. by intros [?|(doc & ref & _ & Hl & _)].
  - rewrite IH by (by rewrite citation_refs_directed).
    rewrite citation_refs_has_edge by done. split.
    + intros [[?|(-> & ref & Hin & Hget)]|(doc' & ref & Hle & Hl & Hin & Hget)].
      * by left.
      * right. exists doc, ref. rewrite Nat.sub_diag. done.
      * right. exists doc', ref. split; [lia|]. split; [|done].
        replace (x - i) with (S (x - S i)) by lia. done.
    + intros [?|(doc' & ref & Hle & Hl & Hin & Hget)]; [by left; left|].
      destruct (decide (x = i)) as [->|Hne].
      * rewrite Nat.sub_diag in Hl. injection Hl as <-. left; right. eauto.
      * right. exists doc', ref. split; [lia|]. split; [|done].
        replace (x - i) with (S (x - S i)) in Hl by lia. done.
Qed.

(** The identity mapping built with the nodes only resolves ids of the
    document set, each to a document that carries the id, and it resolves
    the id of every document. *)
Lemma base_nodes_mapping pol docs props (all : list Document) i ds st st' :
  base_nodes pol docs props i ds st = Ok st' →
  (∀ j doc, ds !! j = Some doc → all !! (i + j) = Some doc) →
  (∀ key j, st.2 !! key = Some j → ∃ doc, all !! j = Some doc ∧ doc_id doc = key) →
  (∀ key j, st'.2 !! key = Some j → ∃ doc, all !! j = Some doc ∧ doc_id doc = key)
  ∧ (∀ doc, doc ∈ ds → is_Some (st'.2 !! doc_id doc))
  ∧ (∀ key, is_Some (st.2 !! key) → is_Some (st'.2 !! key)).
Proof.
  revert i st. induction ds as [|doc ds IH]; intros i st; simpl.
  - intros [= <-] _ Hst. split_and!; [done| |done].
    intros doc Hin. by apply elem_of_nil in Hin.
  - intros H Hall Hst. apply bind_Ok in H as (attr & _ & H).
    case_bool_decide; [done|].
    apply bind_Ok in H as (m & Hadd & H).
    assert (Hm : (∀ key j, m !! key = Some j →
                    ∃ doc, all !! j = Some doc ∧ doc_id doc = key)
                 ∧ is_Some (m !! doc_id doc)
                 ∧ (∀ key, is_Some (st.2 !! key) → is_Some (m !! key))).
    { unfold mapping_add in Hadd.
      destruct (st.2 !! doc_id doc) as [j0|] eqn:E.
      - destruct pol; [|done]. injection Hadd as <-. rewrite E. split_and!; eauto.
      - injection Hadd as <-. split_and!.
        + intros key j. rewrite lookup_insert. case_decide.
          * intros [= <-]. subst key. exists doc. split; [|done].
            specialize (Hall 0 doc eq_refl). by rewrite Nat.add_0_r in Hall.
          * apply Hst.
        + rewrite lookup_insert_eq. eauto.
        + intros key Hk. rewrite lookup_insert. case_decide; eauto. }
    destruct Hm as (Hm1 & Hm2 & Hm3).
    assert (Hall' : ∀ j doc', ds !! j = Some doc' → all !! (S i + j) = Some doc').
    { intros j doc' Hj. specialize (Hall (S j) doc' Hj).
      by replace (S i + j) with (i + S j) by lia. }
    destruct (IH _ _ H Hall' Hm1) as (H1 & H2 & H3).
    split_and!; [done| |by eauto].
    intros doc' [->|Hin]%elem_of_cons; [by apply H3 | by apply H2].
Qed.

Lemma build_base_network_base_nodes pol docs d kw g mapping :
  build_base_network pol docs d kw = Ok (g, mapping) →
  ∃ g0, base_nodes pol docs (default (od_keys (data docs)) (node_props kw)) 0
          (documents docs) (empty_graph d, ∅) = Ok (g0, mapping).
Proof.
  unfold build_base_network. intros H.
  apply bind_Ok in H as ([g0 m0] & H0 & H). exists g0. rewrite H0.
  destruct (colors kw) as [c|]; [destruct (documents docs) as [|doc ds]|];
    try (injection H as <- <-; done).
  apply bind_Ok in H as (cs & _ & H).
  case_decide; [|done].
  apply bind_Ok in H as (cols & _ & H).
  apply bind_Ok in H as (g1 & _ & H).
  by injection H as <- <-.
Qed.

Lemma build_base_network_mapping pol docs d kw g mapping :
  build_base_network pol docs d kw = Ok (g, mapping) →
  (∀ key j, mapping_get mapping key = Some j →
            ∃ doc, documents docs !! j = Some doc ∧ doc_id doc = key)
  ∧ (∀ doc, doc ∈ documents docs → is_Some (mapping_get mapping (doc_id doc))).
Proof.
  intros H. apply build_base_network_base_nodes in H as (g0 & H).
  eapply (base_nodes_mapping _ _ _ (documents docs)) in H as (H1 & H2 & _); simpl.
  - done.
  - done.
  - intros key j. by rewrite lookup_empty.
Qed.

(** C3.  Whenever the base graph can be built, [build_citation_network]
    returns a directed graph in which the edge (i → j) is present exactly
    when document i lists a reference id that the identity mapping resolves
    to node j; no edge carries a weight (or any attribute); an id the
    mapping does not resolve adds nothing and raises nothing; and every id
    the mapping resolves is the id of the document at the resolved node. *)
Theorem build_citation_network_edges pol docs kw g0 mapping :
  build_base_network pol docs true kw = Ok (g0, mapping) →
  ∃ g, build_citation_network pol docs kw = Ok g
       ∧ directed g = true
       ∧ (∀ i j, has_edge g i j
                 ↔ ∃ doc ref, documents docs !! i = Some doc
                              ∧ ref ∈ references_or_nil doc
                              ∧ mapping_get mapping ref = Some j)
       ∧ unweighted g
       ∧ (∀ ref j, mapping_get mapping ref = Some j →
                   ∃ doc, documents docs !! j = Some doc ∧ doc_id doc = ref).
Proof.
  intros H. unfold build_citation_network. rewrite H. simpl.
  destruct (build_base_network_graph _ _ _ _ _ _ H) as [Hd He].
  eexists. split; [done|]. split_and!.
  - by rewrite citation_docs_directed.
  - intros i j. rewrite citation_docs_has_edge by done.
    unfold has_edge at 1, edge_attrs. rewrite He. simpl. split.
    + intros [[? [=]]|(doc & ref & _ & Hl & Hin & Hget)].
      exists doc, ref. by rewrite Nat.sub_0_r in Hl.
    + intros (doc & ref & Hl & Hin & Hget). right. exists doc, ref.
      rewrite Nat.sub_0_r. split; [lia|done].
  - apply citation_docs_unweighted. intros u v a. unfold edge_attrs.
    by rewrite He.
  - by apply build_base_network_mapping in H as [? _].
Qed.

Lemma build_citation_network_edges_witness :
  build_base_network DupIgnore worked_docs true no_kwargs
  = Ok (worked_base true, worked_mapping)
  ∧ ∃ g, build_citation_network DupIgnore worked_docs no_kwargs = Ok g
       ∧ directed g = true
       ∧ (∀ i j, has_edge g i j
                 ↔ ∃ doc ref, documents worked_docs !! i = Some doc
                              ∧ ref ∈ references_or_nil doc
                              ∧ mapping_get worked_mapping ref = Some j)
       ∧ unweighted g
       ∧ (∀ ref j, mapping_get worked_mapping ref = Some j →
                   ∃ doc, documents worked_docs !! j = Some doc ∧ doc_id doc = ref).
Proof.
  assert (H : build_base_network DupIgnore worked_docs true no_kwargs
              = Ok (worked_base true, worked_mapping)) by (vm_compute; reflexivity).
  split; [exact H|].
  exact (build_citation_network_edges DupIgnore worked_docs no_kwargs _ _ H).
Defined.

(** The edges of the worked example. *)
Example worked_citation_edges :
  (g ← build_citation_network DupIgnore worked_docs no_kwargs; Ok (od_keys (edges g)))
  = Ok [(0, 1); (0, 2); (1, 2)].
Proof. vm_compute. reflexivity. Qed.

(** ** Sorting and pruning *)

Section sorting_facts.
Context {A : Type} (key : A -> nat).
Implicit Types (x : A) (l : list A).

Lemma insert_desc_perm x l : insert_desc key x l ≡ₚ x :: l.
Proof.
  induction l as [|y l IH]; simpl; [done|].
  destruct (key x <? key y); [|done].
  rewrite IH. apply Permutation_swap.
Qed.

Lemma sort_desc_perm l : sort_desc key l ≡ₚ l.
Proof.
  induction l as [|x l IH]; simpl; [done|].
  by rewrite insert_desc_perm, IH.
Qed.

Lemma sort_desc_length l : length (sort_desc key l) = length l.
Proof. apply Permutation_length, sort_desc_perm. Qed.

Lemma insert_desc_descending x l :
  descending key l → descending key (insert_desc key x l).
Proof.
  unfold descending. induction 1 as [|y l Hl IH Hy]; simpl.
  - repeat constructor.
  - destruct (key x <? key y) eqn:E.
    + apply Nat.ltb_lt in E. constructor; [done|].
      rewrite Forall_forall. intros z Hz.
      rewrite insert_desc_perm in Hz.
      apply elem_of_cons in Hz as [->|Hz]; [lia|].
      rewrite Forall_forall in Hy. by apply Hy.
    + apply Nat.ltb_ge in E. constructor; [by constructor|].
      constructor; [done|].
      rewrite Forall_forall in Hy |- *. intros z Hz. specialize (Hy z Hz). lia.
Qed.

Lemma sort_desc_descending l : descending key (sort_desc key l).
Proof.
  induction l as [|x l IH]; simpl; [constructor|].
  by apply insert_desc_descending.
Qed.

(** Whatever precedes a cut in a descending list is at least as large as
    whatever follows it. *)
Lemma descending_take_drop n l a b :
  descending key l → a ∈ take n l → b ∈ drop n l → key b ≤ key a.
Proof.
  unfold descending. intros Hl. revert n.
  induction Hl as [|y l Hl IH Hy]; intros n Ha Hb.
  - rewrite take_nil in Ha. by apply elem_of_nil in Ha.
  - destruct n as [|n]; simpl in *; [by apply elem_of_nil in Ha|].
    apply elem_of_cons in Ha as [->|Ha]; [|by eapply IH].
    rewrite Forall_forall in Hy. apply Hy.
    eapply subseteq_drop, Hb.
Qed.

(** The sort is stable: elements with the same key keep their order. *)
Lemma insert_desc_stable w x l :
  filter (fun a => key a = w) (insert_desc key x l)
  = filter (fun a => key a = w) (x :: l).
Proof.
  induction l as [|y l IH]; simpl; [done|].
  destruct (key x <? key y) eqn:E; [|done].
  apply Nat.ltb_lt in E.
  rewrite (filter_cons _ y), IH, !(filter_cons _ x), !(filter_cons _ y).
  repeat case_decide; try done; lia.
Qed.

Lemma sort_desc_stable w l :
  filter (fun a => key a = w) (sort_desc key l) = filter (fun a => key a = w) l.
Proof.
  induction l as [|x l IH]; simpl; [done|].
  by rewrite insert_desc_stable, !filter_cons, IH.
Qed.

End sorting_facts.

Lemma slice_to_take {A} (l : list A) (m : Z) : ∃ n, slice_to l m = take n l.
Proof. unfold slice_to. destruct (0 <=? m)%Z; eauto. Qed.

Lemma slice_to_length {A} (l : list A) (m : Z) :
  (0 ≤ m)%Z → (Z.of_nat (length (slice_to l m)) ≤ m)%Z.
Proof.
  intros Hm. unfold slice_to. rewrite (proj2 (Z.leb_le 0 m) Hm).
  rewrite length_take. lia.
Qed.

(** C4.  The pruning step of [build_cocitation_network] and
    [build_coupling_network] keeps at most [max_edges] edges (for a bound
    that is a count, that is, not negative); the input splits into the
    kept and the discarded edges, and no discarded edge is heavier than a
    kept one; an input of at most [max_edges] edges is returned unchanged;
    ties are broken by insertion order (among the edges of one weight the
    kept ones are the first inserted), so the result is determined by the
    input. *)
Theorem prune_edges_spec {K} (es : list (K * nat)) (max_edges : Z) :
  let kept := prune_edges es max_edges in
  ((0 ≤ max_edges)%Z → (Z.of_nat (length kept) ≤ max_edges)%Z)
  ∧ (∃ discarded, es ≡ₚ kept ++ discarded
                  ∧ ∀ e e', e ∈ kept → e' ∈ discarded → e'.2 ≤ e.2)
  ∧ ((Z.of_nat (length es) ≤ max_edges)%Z → kept = es)
  ∧ (∀ w, filter (fun e => e.2 = w) kept `prefix_of` filter (fun e => e.2 = w) es)
  ∧ (∀ es' max_edges', es' = es → max_edges' = max_edges →
                       prune_edges es' max_edges' = kept).
Proof.
  simpl. unfold prune_edges.
  destruct (max_edges <? Z.of_nat (length es))%Z eqn:E.
  - apply Z.ltb_lt in E.
    destruct (slice_to_take (sort_desc snd es) max_edges) as [n Hn].
    split_and!.
    + apply slice_to_length.
    + exists (drop n (sort_desc snd es)). rewrite Hn, take_drop. split.
      * by rewrite sort_desc_perm.
      * intros e e' He He'.
        eapply (descending_take_drop snd); [apply sort_desc_descending|done..].
    + lia.
    + intros w. rewrite Hn, <- (sort_desc_stable snd w es).
      rewrite <- (take_drop n (sort_desc snd es)) at 2.
      rewrite filter_app. by eexists.
    + intros es' m' -> ->.
      by rewrite (proj2 (Z.ltb_lt _ _) E).
  - apply Z.ltb_ge in E. split_and!.
    + lia.
    + exists []. rewrite app_nil_r. split; [done|].
      intros e e' _ He'. by apply elem_of_nil in He'.
    + done.
    + done.
    + intros es' m' -> ->.
      by rewrite (proj2 (Z.ltb_ge _ _) E).
Qed.

Lemma prune_edges_spec_witness :
  (0 ≤ 2)%Z ∧ (Z.of_nat (length (prune_edges example_strength 2)) ≤ 2)%Z.
Proof.
  split; [lia|].
  apply (proj1 (prune_edges_spec example_strength 2)). lia.
Defined.

(** Four weighted edges pruned to two: the two edges of weight 3 stay, in
    insertion order. *)
Example prune_edges_example :
  prune_edges example_strength 2 = [((0, 2), 3); ((1, 3), 3)].
Proof. reflexivity. Qed.

(** ** The default bound of build_cocitation_network *)

(** With [max_edges=0] the co-citation edge is still there. *)
Example cocitation_zero_edges_requested :
  (g ← build_cocitation_network DupIgnore cocited_docs (Some 0%Z) no_kwargs;
   Ok (edge_attr g 0 1 "weight"))
  = Ok (Some (ANat 1)).
Proof. vm_compute. reflexivity. Qed.

(** ** The colour sequence of build_base_network *)

(** C7, as stated, fails on an empty document set: the guard
    [if colors is not None and docs] skips the length check, and a colour
    sequence of length 1 for 0 documents is accepted. *)
Lemma build_base_network_empty_docs_unchecked :
  length [VStr "red"] ≠ length (documents empty_docs)
  ∧ build_base_network DupIgnore empty_docs false (color_kwargs [VStr "red"])
    = Ok (empty_graph false, ∅).
Proof. split; [discriminate | reflexivity]. Qed.

(** C7, amended.  For an explicit colour sequence and a non-empty
    document set, a length that differs from the number of documents makes
    the call fail: it never returns a graph, and the exception is the
    failed assertion whenever the nodes themselves could be built.  For an
    empty document set the colour argument is ignored and no length is
    checked: whatever the sequence, the call returns the empty graph. *)
Theorem build_base_network_color_length pol docs d kw values :
  colors kw = Some (ColSeq values) →
  (documents docs ≠ [] →
   length values ≠ length (documents docs) →
   ¬ is_ok (build_base_network pol docs d kw)
   ∧ (is_ok (base_nodes pol docs (default (od_keys (data docs)) (node_props kw)) 0
               (documents docs) (empty_graph d, ∅)) →
      build_base_network pol docs d kw = Raise AssertionError))
  ∧ (documents docs = [] →
     build_base_network pol docs d kw = Ok (empty_graph d, ∅)).
Proof.
  intros Hc. unfold build_base_network. rewrite Hc. split.
  - intros Hdocs Hlen.
    destruct (base_nodes _ _ _ _ _ _) as [[g m]|e]; simpl; [|tauto].
    destruct (documents docs) as [|doc ds] eqn:E; [done|]. simpl.
    rewrite decide_False by done. tauto.
  - intros ->. reflexivity.
Qed.

Lemma build_base_network_color_length_witness :
  (¬ is_ok (build_base_network DupFail worked_docs false (color_kwargs [VStr "red"]))
   ∧ (is_ok (base_nodes DupFail worked_docs
               (default (od_keys (data worked_docs))
                        (node_props (color_kwargs [VStr "red"]))) 0
               (documents worked_docs) (empty_graph false, ∅)) →
      build_base_network DupFail worked_docs false (color_kwargs [VStr "red"])
      = Raise AssertionError))
  ∧ build_base_network DupFail empty_docs false (color_kwargs [VStr "red"])
    = Ok (empty_graph false, ∅).
Proof.
  split.
  - apply (build_base_network_color_length DupFail worked_docs false
             (color_kwargs [VStr "red"]) [VStr "red"]).
    + reflexivity.
    + discriminate.
    + simpl. lia.
  - apply (build_base_network_color_length DupFail empty_docs false
             (color_kwargs [VStr "red"]) [VStr "red"]); reflexivity.
Defined.

Example build_base_network_color_length_example :
  build_base_network DupFail worked_docs false (color_kwargs [VStr "red"])
  = Raise AssertionError.
Proof. vm_compute. reflexivity. Qed.

(** ** Equal numeric colours *)

Lemma mapM_as_float_replicate n c :
  mapM as_float (replicate n (VFloat c)) = Some (replicate n c).
Proof. induction n as [|n IH]; simpl; [done|]. by rewrite IH. Qed.

Lemma fold_min_replicate n c :
  PrimFloat.ltb c c = false →
  fold_left (fun cur item => if PrimFloat.ltb item cur then item else cur)
            (replicate n c) c = c.
Proof. intros Hc. induction n as [|n IH]; simpl; [done|]. by rewrite Hc. Qed.

Lemma fold_max_replicate n c :
  PrimFloat.ltb c c = false →
  fold_left (fun cur item => if PrimFloat.ltb cur item then item else cur)
            (replicate n c) c = c.
Proof. intros Hc. induction n as [|n IH]; simpl; [done|]. by rewrite Hc. Qed.

(** When every colour is the same float, minimum and maximum coincide and
    the very first normalisation divides by their difference; only a
    palette name that seaborn rejects fails earlier. *)
Lemma continuous_colors_equal cmap n c :
  PrimFloat.ltb c c = false →
  PrimFloat.eqb (PrimFloat.sub c c) 0%float = true →
  continuous_colors cmap (replicate (S n) c)
  = match cmap with
    | Some (NoPalette _) => Raise ValueError
    | _ => Raise ZeroDivisionError
    end.
Proof.
  intros Hlt Hsub. unfold continuous_colors. simpl.
  rewrite fold_min_replicate, fold_max_replicate by done. simpl.
  unfold py_truediv. rewrite Hsub. by destruct cmap as [[?|?|?]|].
Qed.

(** C5 (what the code does).  For a non-empty document set whose nodes can
    be built and a colour sequence that repeats one float [c] for every
    document, [build_base_network] raises [ZeroDivisionError]: nothing
    guards the division by [max - min].  This is so for the default
    palette and for every palette name that seaborn accepts; a name that
    seaborn rejects raises [ValueError] before the division is reached.
    The two conditions on [c] hold for every finite float. *)
Theorem build_base_network_equal_colors pol docs d kw c :
  is_ok (base_nodes pol docs (default (od_keys (data docs)) (node_props kw)) 0
           (documents docs) (empty_graph d, ∅)) →
  documents docs ≠ [] →
  colors kw = Some (ColSeq (replicate (length (documents docs)) (VFloat c))) →
  PrimFloat.ltb c c = false →
  PrimFloat.eqb (PrimFloat.sub c c) 0%float = true →
  build_base_network pol docs d kw
  = match cmap kw with
    | Some (NoPalette _) => Raise ValueError
    | _ => Raise ZeroDivisionError
    end.
Proof.
  intros Hnodes Hdocs Hc Hlt Hsub. unfold build_base_network. rewrite Hc.
  destruct (base_nodes _ _ _ _ _ _) as [[g m]|e]; simpl; [|done].
  destruct (documents docs) as [|doc ds] eqn:E; [done|].
  cbn [mbind result_bind]. rewrite length_replicate, decide_True by done.
  unfold compute_colors. rewrite mapM_as_float_replicate.
  simpl length. rewrite continuous_colors_equal by done.
  by destruct (cmap kw) as [[?|?|?]|].
Qed.

Lemma build_base_network_equal_colors_witness :
  build_base_network DupIgnore worked_docs false
    (color_kwargs (replicate (length (documents worked_docs)) (VFloat 0.5%float)))
  = Raise ZeroDivisionError.
Proof.
  apply (build_base_network_equal_colors DupIgnore worked_docs false
           (color_kwargs (replicate (length (documents worked_docs)) (VFloat 0.5%float)))
           0.5%float).
  - vm_compute. exact I.
  - discriminate.
  - reflexivity.
  - reflexivity.
  - reflexivity.
Defined.

(** Distinct floats are normalised into [0, 1] and passed to a colormap;
    with the default [cmap=None] the palette is a list of colours and
    calling it is a [TypeError]. *)
Example build_base_network_distinct_colors :
  (r ← build_base_network DupIgnore worked_docs false
         {| colors := Some (ColSeq [VFloat 0.5%float; VFloat 2.5%float;
                                    VFloat 1.5%float]);
            cmap := Some (Colormap "viridis");
            node_props := None |};
   Ok ((fun n => n.2 !! "color") <$> nodes r.1))
  = Ok [Some (AColor (ContinuousColor (Some (Colormap "viridis")) 0%float));
        Some (AColor (ContinuousColor (Some (Colormap "viridis")) 1%float));
        Some (AColor (ContinuousColor (Some (Colormap "viridis")) 0.5%float))]
  ∧ build_base_network DupIgnore worked_docs false
      (color_kwargs [VFloat 0.5%float; VFloat 2.5%float; VFloat 1.5%float])
    = Raise TypeError.
Proof. split; vm_compute; reflexivity. Qed.

(** ** Shared references lost by build_coupling_network *)

(** C1 (what the code does).  The two documents share one reference, but
    the coupling graph has no edge between them: on first sight "R" is
    entered in the mapping under index [n] while the document's reference
    set receives [n + 1], and the second document then looks up [n]. *)
Theorem build_coupling_network_shared_reference_lost pol :
  spec_coupling_weight (plain_doc "P" ["R"]) (plain_doc "Q" ["R"]) = 1
  ∧ coupling_doc_refs pol (documents shared_reference_docs)
      (list_to_map [("P", 0); ("Q", 1)]) 2 [] = Ok [{[3]}; {[2]}]
  ∧ ∃ g, build_coupling_network pol shared_reference_docs 1000 no_kwargs = Ok g
         ∧ edges g = []
         ∧ edge_attr g 1 0 "weight" = None
         ∧ edge_attr g 0 1 "weight" = None.
Proof.
  split; [by vm_compute|].
  split; [by destruct pol; vm_compute|].
  destruct pol; (eexists; split; [vm_compute; reflexivity|]); by vm_compute.
Qed.

(** The same slip also couples documents that share nothing: "R" of the
    first document and "T" of the third meet at one index. *)
Example build_coupling_network_spurious_edge :
  spec_coupling_weight (plain_doc "P" ["R"]) (plain_doc "S" ["T"]) = 0
  ∧ (g ← build_coupling_network DupIgnore
           {| documents := [plain_doc "P" ["R"]; plain_doc "Q" ["T"]; plain_doc "S" ["T"]];
              data := [] |} 1000 no_kwargs;
     Ok (edge_attr g 2 0 "weight"))
    = Ok (Some (ANat 1)).
Proof. split; by vm_compute. Qed.

(** ** Repeated references in build_cocitation_network *)

(** C2 (what the code does).  One document cites "A" and "B" together,
    but because it lists "A" twice the pair is counted twice. *)
Theorem build_cocitation_network_repeated_reference pol :
  spec_cocitation_strength (documents repeated_reference_docs)
    (plain_doc "A" []) (plain_doc "B" []) = 1
  ∧ ∃ g, build_cocitation_network pol repeated_reference_docs None no_kwargs = Ok g
         ∧ edge_attr g 0 1 "weight" = Some (ANat 2).
Proof.
  split; [by vm_compute|].
  destruct pol; (eexists; split; [vm_compute; reflexivity|]); by vm_compute.
Qed.

(** ** build_coauthor_network *)

(** C6 (what the code does).  "Ada" (node 0) and "Bob" (node 1) share two
    documents, but the graph is a [DiGraph] keyed by (later, earlier)
    author, so the count is split over the edges 1 → 0 and 0 → 1, each of
    weight 1. *)
Theorem build_coauthor_network_split_weight :
  let g := build_coauthor_network swapped_authors_docs None in
  spec_coauthor_weight (documents swapped_authors_docs) "Ada" "Bob" = 2
  ∧ (nodes g).*1 = [0; 1]
  ∧ directed g = true
  ∧ edge_attr g 1 0 "weight" = Some (ANat 1)
  ∧ edge_attr g 0 1 "weight" = Some (ANat 1).
Proof. by vm_compute. Qed.

(** C8 (what the code does).  The docstring promises an undirected graph,
    in which two authors are joined by one edge.  The code builds a
    directed graph keyed by (later author, earlier author), and for two
    papers that list the same two authors in opposite orders the pair is
    an edge in both directions. *)
Theorem build_coauthor_network_both_directions :
  let g := build_coauthor_network swapped_authors_docs None in
  author_names <$> documents swapped_authors_docs = [["Ada"; "Bob"]; ["Bob"; "Ada"]]
  ∧ coauthor_mapping swapped_authors_docs None = [("Ada", 0); ("Bob", 1)]
  ∧ directed g = true
  ∧ is_Some (edge_attrs g 1 0)
  ∧ is_Some (edge_attrs g 0 1).
Proof. cbv zeta. split_and!; vm_compute; eauto. Qed.

Lemma od_get_incr_is_Some {K} `{EqDecision K} (k k' : K) (d : list (K * nat)) :
  is_Some (od_get k (incr k' d)) ↔ k = k' ∨ is_Some (od_get k d).
Proof.
  unfold incr. rewrite od_get_upsert. case_decide; subst.
  - split; eauto.
  - split; [by right | by intros [?|?]].
Qed.

Lemma od_get_is_Some_elem {K V} `{EqDecision K} (k : K) (d : list (K * V)) :
  is_Some (od_get k d) ↔ ∃ e, e ∈ d ∧ e.1 = k.
Proof.
  rewrite od_get_is_Some. unfold od_keys. rewrite list_elem_of_fmap.
  split; intros (e & H1 & H2); eauto.
Qed.

Lemma add_weighted_edges_directed keys es g :
  directed (add_weighted_edges keys es g) = directed g.
Proof.
  revert g. induction es as [|e es IH]; intros g; [done|].
  change (add_weighted_edges keys (e :: es) g)
    with (add_weighted_edges keys es
            (add_edge e.1.1 e.1.2 (list_to_map ((fun k => (k, ANat e.2)) <$> keys)) g)).
  by rewrite IH.
Qed.

Lemma add_weighted_edges_has_edge keys es g u v :
  has_edge (add_weighted_edges keys es g) u v
  ↔ has_edge g u v
    ∨ ∃ e, e ∈ es ∧ edge_key (directed g) e.1.1 e.1.2 = edge_key (directed g) u v.
Proof.
  revert g. induction es as [|e es IH]; intros g.
  - split; [by left|]. intros [?|(e & He & _)]; [done|]. by apply elem_of_nil in He.
  - change (add_weighted_edges keys (e :: es) g)
      with (add_weighted_edges keys es
              (add_edge e.1.1 e.1.2 (list_to_map ((fun k => (k, ANat e.2)) <$> keys)) g)).
    rewrite IH, has_edge_add_edge. simpl. split.
    + intros [[?|?]|(e' & He' & ?)]; [right|by left|right].
      * exists e. split; [by left|done].
      * exists e'. split; [by right|done].
    + intros [?|(e' & He' & ?)]; [by left; right|].
      apply elem_of_cons in He' as [->|He']; [by left; left|right; eauto].
Qed.

Lemma coauthor_nodes_graph ils (st : Graph * list (string * nat)) :
  let st' := fold_left (fun st (ia : nat * string) =>
                          (add_node ia.1 {["title" := AStr ia.2]} st.1,
                           od_upsert ia.2 (fun _ => ia.1) st.2)) ils st in
  directed st'.1 = directed st.1 ∧ edges st'.1 = edges st.1.
Proof.
  revert st. induction ils as [|ia ils IH]; intros st; simpl; [done|].
  destruct (IH (add_node ia.1 {["title" := AStr ia.2]} st.1,
                od_upsert ia.2 (fun _ => ia.1) st.2)) as [-> ->]. done.
Qed.

Lemma coauthor_row_cons mapping left right rights es :
  coauthor_row mapping left (right :: rights) es
  = coauthor_row mapping left rights
      (match od_get left mapping, od_get right mapping with
       | Some l, Some r => incr (l, r) es
       | _, _ => es
       end).
Proof. reflexivity. Qed.

Lemma coauthor_row_keys mapping left rights es k :
  is_Some (od_get k (coauthor_row mapping left rights es))
  ↔ is_Some (od_get k es)
    ∨ ∃ right u v, right ∈ rights ∧ od_get left mapping = Some u
                   ∧ od_get right mapping = Some v ∧ k = (u, v).
Proof.
  revert es. induction rights as [|right rights IH]; intros es.
  - split; [by left|]. intros [?|(r & u & v & Hin & _)]; [done|].
    by apply elem_of_nil in Hin.
  - rewrite coauthor_row_cons, IH. clear IH. split.
    + intros [H|(r & u & v & Hin & Hl & Hr & ->)].
      * destruct (od_get left mapping) as [l|] eqn:El; [|by left].
        destruct (od_get right mapping) as [r|] eqn:Er; [|by left].
        apply od_get_incr_is_Some in H as [->|H]; [right|by left].
        exists right, l, r. split; [by left|done].
      * right. exists r, u, v. split; [by right|done].
    + intros [H|(r & u & v & Hin & Hl & Hr & ->)].
      * left. destruct (od_get left mapping); [|done].
        destruct (od_get right mapping); [|done].
        apply od_get_incr_is_Some. by right.
      * apply elem_of_cons in Hin as [->|Hin].
        -- left. rewrite Hl, Hr. apply od_get_incr_is_Some. by left.
        -- right. exists r, u, v. done.
Qed.

Lemma coauthor_pairs_keys mapping authors es k :
  is_Some (od_get k (coauthor_pairs mapping authors es))
  ↔ is_Some (od_get k es)
    ∨ ∃ p q later earlier u v,
        p < q ∧ authors !! q = Some later ∧ authors !! p = Some earlier
        ∧ od_get later mapping = Some u ∧ od_get earlier mapping = Some v
        ∧ k = (u, v).
Proof.
  unfold coauthor_pairs.
  assert (Hgen : ∀ ils es,
    is_Some (od_get k (fold_left
       (fun es (il : nat * string) => coauthor_row mapping il.2 (take il.1 authors) es)
       ils es))
    ↔ is_Some (od_get k es)
      ∨ ∃ il right u v, il ∈ ils ∧ right ∈ take il.1 authors
          ∧ od_get il.2 mapping = Some u ∧ od_get right mapping = Some v
          ∧ k = (u, v)).
  { clear es. induction ils as [|il ils IH]; intros es; simpl.
    - split; [by left|]. intros [?|(il & r & u & v & Hin & _)]; [done|].
      by apply elem_of_nil in Hin.
    - rewrite IH, coauthor_row_keys. clear IH. split.
      + intros [[?|(r & u & v & ? & ? & ? & ?)]|(il' & r & u & v & ? & ?)].
        * by left.
        * right. exists il, r, u, v. split; [by left|done].
        * right. exists il', r, u, v. split; [by right|done].
      + intros [?|(il' & r & u & v & Hin & ? & ? & ? & ?)]; [by left; left|].
        apply elem_of_cons in Hin as [->|Hin].
        * left; right. exists r, u, v. done.
        * right. exists il', r, u, v. done. }
  rewrite Hgen. clear Hgen. unfold enumerate. split.
  - intros [?|([q later] & r & u & v & Hin & Hr & Hl & Hrm & ->)]; [by left|right].
    apply elem_of_lookup_imap in Hin as (q' & later' & [= -> ->] & Hq).
    apply elem_of_take in Hr as (p & Hp & Hlt). simpl in *.
    exists p, q', later', r, u, v. done.
  - intros [?|(p & q & later & earlier & u & v & Hlt & Hq & Hp & Hl & Hr & ->)];
      [by left|right].
    exists (q, later), earlier, u, v. split_and!; try done.
    + by apply elem_of_lookup_imap_2.
    + apply elem_of_take. eauto.
Qed.

Lemma coauthor_edges_keys mapping ds k :
  is_Some (od_get k (coauthor_edges mapping ds))
  ↔ ∃ doc p q later earlier u v,
      doc ∈ ds ∧ p < q
      ∧ author_names doc !! q = Some later ∧ author_names doc !! p = Some earlier
      ∧ od_get later mapping = Some u ∧ od_get earlier mapping = Some v
      ∧ k = (u, v).
Proof.
  unfold coauthor_edges.
  assert (Hgen : ∀ es,
    is_Some (od_get k (fold_left
       (fun es doc => coauthor_pairs mapping (author_names doc) es) ds es))
    ↔ is_Some (od_get k es)
      ∨ ∃ doc p q later earlier u v,
          doc ∈ ds ∧ p < q
          ∧ author_names doc !! q = Some later ∧ author_names doc !! p = Some earlier
          ∧ od_get later mapping = Some u ∧ od_get earlier mapping = Some v
          ∧ k = (u, v)).
  { induction ds as [|doc ds IH]; intros es; simpl.
    - split; [by left|]. intros [?|(doc & p & q & l & e & u & v & Hin & _)]; [done|].
      by apply elem_of_nil in Hin.
    - rewrite IH, coauthor_pairs_keys. clear IH. split.
      + intros [[?|(p & q & l & e & u & v & ?)]|(doc' & p & q & l & e & u & v & ? & ?)].
        * by left.
        * right. exists doc, p, q, l, e, u, v. split; [by left|done].
        * right. exists doc', p, q, l, e, u, v. split; [by right|done].
      + intros [?|(doc' & p & q & l & e & u & v & Hin & ?)]; [by left; left|].
        apply elem_of_cons in Hin as [->|Hin].
        * left; right. exists p, q, l, e, u, v. done.
        * right. exists doc', p, q, l, e, u, v. done. }
  rewrite Hgen. split; [|by right].
  intros [[? [=]]|?]. done.
Qed.

(** The graph returned by [build_coauthor_network] is a directed graph,
    and its edges are keyed by (later author, earlier author): the edge
    (u → v) is present exactly when some document lists the retained
    author with index [u] at a later position than the retained author
    with index [v]. *)
Theorem build_coauthor_network_edges docs max_authors :
  let g := build_coauthor_network docs max_authors in
  let mapping := coauthor_mapping docs max_authors in
  directed g = true
  ∧ ∀ u v, has_edge g u v
           ↔ ∃ doc p q later earlier,
               doc ∈ documents docs ∧ p < q
               ∧ author_names doc !! q = Some later
               ∧ author_names doc !! p = Some earlier
               ∧ od_get later mapping = Some u
               ∧ od_get earlier mapping = Some v.
Proof.
  simpl. unfold build_coauthor_network, coauthor_mapping.
  set (authors := retained_authors _ _).
  pose proof (coauthor_nodes_graph (enumerate authors) (empty_graph true, [])) as Hg.
  fold (coauthor_nodes authors (empty_graph true)) in Hg.
  destruct (coauthor_nodes authors (empty_graph true)) as [g mapping].
  simpl in Hg. destruct Hg as [Hd He]. simpl. split.
  - by rewrite add_weighted_edges_directed.
  - intros u v. rewrite add_weighted_edges_has_edge, Hd.
    unfold has_edge at 1, edge_attrs. rewrite He. simpl. split.
    + intros [[? [=]]|([[a b] w] & Hin & [= -> ->])].
      assert (Hk : is_Some (od_get (u, v) (coauthor_edges mapping (documents docs)))).
      { apply od_get_is_Some_elem. by exists (u, v, w). }
      apply coauthor_edges_keys in Hk
        as (doc & p & q & l & e & u' & v' & ? & ? & ? & ? & ? & ? & [= -> ->]).
      exists doc, p, q, l, e. done.
    + intros (doc & p & q & l & e & ? & ? & ? & ? & ? & ?). right.
      assert (Hk : is_Some (od_get (u, v) (coauthor_edges mapping (documents docs)))).
      { apply coauthor_edges_keys. exists doc, p, q, l, e, u, v. done. }
      apply od_get_is_Some_elem in Hk as ([[a b] w] & Hin & [= -> ->]).
      by exists (u, v, w).
Qed.

(** ** plot_network *)

(** C10.  For a graph object of the store, [plot_network] returns, and
    afterwards every graph the caller holds, the plotted one included, is
    what it was before the call.  When the graph has isolated nodes they
    are removed from a copy: a new object, absent from the store before
    the call, that holds the graph without its isolates.  Without isolated
    nodes the store is not touched at all. *)
Theorem plot_network_frame largest_component r (σ : store) g :
  σ !! r = Some g →
  ∃ out σ', plot_network largest_component r σ = Some (out, σ')
    ∧ σ' !! r = Some g
    ∧ (∀ r0 g0, σ !! r0 = Some g0 → σ' !! r0 = Some g0)
    ∧ (isolates g ≠ [] →
       ∃ r', σ !! r' = None
             ∧ σ' !! r' = Some (remove_nodes_from (isolates g) g)
             ∧ ∀ r0, r0 ≠ r' → σ' !! r0 = σ !! r0)
    ∧ (isolates g = [] → σ' = σ).
Proof.
  intros Hr. unfold plot_network. rewrite Hr. cbn [mbind option_bind].
  destruct (isolates g) as [|n ns] eqn:Eiso.
  - cbn [mbind option_bind]. rewrite Hr. cbn [mbind option_bind].
    destruct (decide (length (edges g) = 0));
      (eexists _, σ; split; [reflexivity|]; split_and!; done).
  - unfold copy. rewrite Hr. cbn [mbind option_bind].
    set (r' := fresh (dom σ)).
    assert (Hfresh : σ !! r' = None).
    { apply not_elem_of_dom. apply is_fresh. }
    assert (Hne : r ≠ r') by congruence.
    set (σ' := alter (remove_nodes_from (n :: ns)) r' (<[r' := g]> σ)).
    assert (Hnew : σ' !! r' = Some (remove_nodes_from (n :: ns) g)).
    { unfold σ'. by rewrite lookup_alter_eq, lookup_insert_eq. }
    assert (Hold : ∀ r0, r0 ≠ r' → σ' !! r0 = σ !! r0).
    { intros r0 H0. unfold σ'. by rewrite lookup_alter_ne, lookup_insert_ne. }
    rewrite Hnew. cbn [mbind option_bind].
    destruct (decide (length (edges (remove_nodes_from (n :: ns) g)) = 0));
      (eexists _, σ'; split; [reflexivity|]; split_and!;
       [ by rewrite Hold
       | intros r0 g0 H0; rewrite Hold; [done | congruence]
       | intros _; exists r'; done
       | done ]).
Qed.

Lemma plot_network_frame_witness :
  ({[ 7 := graph_with_isolate ]} : store) !! 7 = Some graph_with_isolate
  ∧ ∃ out σ', plot_network true 7 {[ 7 := graph_with_isolate ]} = Some (out, σ')
    ∧ σ' !! 7 = Some graph_with_isolate
    ∧ (∀ r0 g0, ({[ 7 := graph_with_isolate ]} : store) !! r0 = Some g0 →
                σ' !! r0 = Some g0)
    ∧ (isolates graph_with_isolate ≠ [] →
       ∃ r', ({[ 7 := graph_with_isolate ]} : store) !! r' = None
             ∧ σ' !! r'
               = Some (remove_nodes_from (isolates graph_with_isolate) graph_with_isolate)
             ∧ ∀ r0, r0 ≠ r' → σ' !! r0 = ({[ 7 := graph_with_isolate ]} : store) !! r0)
    ∧ (isolates graph_with_isolate = [] → σ' = {[ 7 := graph_with_isolate ]}).
Proof.
  assert (H : ({[ 7 := graph_with_isolate ]} : store) !! 7 = Some graph_with_isolate)
    by reflexivity.
  split; [exact H|].
  exact (plot_network_frame true 7 _ _ H).
Defined.

(** The isolate is dropped from what is plotted, not from the caller's
    graph. *)
Example plot_network_isolate :
  isolates graph_with_isolate = [2]
  ∧ (fun r => (match r.1 with
               | Shown _ view => (nodes view).*1
               | NoEdgesGiven => []
               end,
               (fun g => (nodes g).*1) <$> r.2 !! 7))
    <$> plot_network true 7 {[ 7 := graph_with_isolate ]}
    = Some ([0; 1], Some [0; 1; 2]).
Proof. split; by vm_compute. Qed.

(** ** Co-citation strengths *)

Lemma od_count_incr {K} `{EqDecision K} (k k' : K) (d : list (K * nat)) :
  od_count k (incr k' d) = od_count k d + (if decide (k' = k) then 1 else 0).
Proof.
  unfold od_count, incr. rewrite od_get_upsert. case_decide; subst; simpl; lia.
Qed.

(** Case analysis on the [decide]s of a counting equation. *)
Ltac count_cases :=
  repeat case_decide; simplify_eq;
  first [ lia | exfalso; intuition (first [ congruence | lia ]) ].

Lemma cocitation_row_cons i j refs s :
  cocitation_row i (j :: refs) s
  = cocitation_row i refs (if i <? j then incr (i, j) s else s).
Proof. reflexivity. Qed.

Lemma cocitation_row_count i refs s a b :
  od_count (a, b) (cocitation_row i refs s)
  = od_count (a, b) s
    + (if decide (i = a ∧ a < b) then count_occ Nat.eq_dec refs b else 0).
Proof.
  revert s. induction refs as [|j refs IH]; intros s.
  - simpl. case_decide; lia.
  - rewrite cocitation_row_cons, IH. clear IH. simpl count_occ.
    destruct (i <? j) eqn:E.
    + apply Nat.ltb_lt in E. rewrite od_count_incr.
      destruct (Nat.eq_dec j b) as [->|Hjb]; count_cases.
    + apply Nat.ltb_ge in E.
      destruct (Nat.eq_dec j b) as [->|Hjb]; count_cases.
Qed.

Lemma cocitation_rows_count rows refs s a b :
  od_count (a, b) (fold_left (fun s i => cocitation_row i refs s) rows s)
  = od_count (a, b) s
    + (if decide (a < b)
       then count_occ Nat.eq_dec rows a * count_occ Nat.eq_dec refs b else 0).
Proof.
  revert s. induction rows as [|i rows IH]; intros s; simpl fold_left.
  - simpl. case_decide; lia.
  - rewrite IH, cocitation_row_count. clear IH. simpl count_occ.
    destruct (Nat.eq_dec i a) as [->|Hia]; count_cases.
Qed.

Lemma cocitation_pairs_count refs s a b :
  od_count (a, b) (cocitation_pairs refs s)
  = od_count (a, b) s
    + (if decide (a < b)
       then count_occ Nat.eq_dec refs a * count_occ Nat.eq_dec refs b else 0).
Proof. apply cocitation_rows_count. Qed.

(** The strength accumulated by [build_cocitation_network] for a pair
    with [a < b] is the sum, over the documents, of the product of the
    numbers of occurrences of [a] and of [b] among the resolved references;
    no other key is ever counted. *)
Lemma cocitation_strength_count mapping ds a b :
  od_count (a, b) (cocitation_strength mapping ds)
  = if decide (a < b) then cocitation_count mapping ds a b else 0.
Proof.
  unfold cocitation_strength, cocitation_count.
  assert (Hgen : ∀ s,
    od_count (a, b)
      (fold_left (fun s doc =>
                    cocitation_pairs (resolve_refs mapping (references_or_nil doc)) s)
                 ds s)
    = od_count (a, b) s
      + (if decide (a < b) then
           sum_list ((fun doc =>
                        let refs := resolve_refs mapping (references_or_nil doc) in
                        count_occ Nat.eq_dec refs a * count_occ Nat.eq_dec refs b) <$> ds)
         else 0)).
  { induction ds as [|doc ds IH]; intros s; simpl fold_left.
    - simpl. case_decide; lia.
    - rewrite IH, cocitation_pairs_count. rewrite fmap_cons. simpl sum_list.
      case_decide; lia. }
  rewrite Hgen. done.
Qed.

(** What [build_cocitation_network] computes, for every input: the graph
    is the base graph with the pruned strength table as weighted edges,
    and the strength of a pair [a < b] is the sum over the documents of
    (occurrences of [a]) * (occurrences of [b]) among the resolved
    references; pairs that are not increasing are never counted. *)
Theorem build_cocitation_network_strength pol docs max_edges kw :
  build_cocitation_network pol docs max_edges kw
  = ('(g, mapping) ← build_base_network pol docs false kw;
     Ok (add_weighted_edges ["weight"]
           (prune_edges (cocitation_strength mapping (documents docs))
                        (cocitation_max_edges max_edges docs)) g))
  ∧ ∀ mapping a b,
      od_count (a, b) (cocitation_strength mapping (documents docs))
      = if decide (a < b) then cocitation_count mapping (documents docs) a b else 0.
Proof. split; [done|]. intros. apply cocitation_strength_count. Qed.

Lemma mapping_add_mono pol key i m m' key' v :
  mapping_add pol key i m = Ok m' → m !! key' = Some v → m' !! key' = Some v.
Proof.
  unfold mapping_add. destruct (m !! key) as [j|] eqn:E.
  - destruct pol; [|done]. by intros [= <-].
  - intros [= <-] H. rewrite lookup_insert_ne; [done|]. congruence.
Qed.

Lemma base_nodes_mapping_mono pol docs props i ds st st' key v :
  base_nodes pol docs props i ds st = Ok st' →
  st.2 !! key = Some v → st'.2 !! key = Some v.
Proof.
  revert i st. induction ds as [|doc ds IH]; intros i st; simpl.
  - by intros [= <-].
  - intros H Hst. apply bind_Ok in H as (attr & _ & H).
    case_bool_decide; [done|].
    apply bind_Ok in H as (m & Hadd & H).
    eapply IH; [exact H|]. simpl. by eapply mapping_add_mono.
Qed.

(** When the ids are pairwise distinct every document is mapped to its
    own position. *)
Lemma base_nodes_mapping_index pol docs props i ds st st' :
  base_nodes pol docs props i ds st = Ok st' →
  NoDup (doc_id <$> ds) →
  (∀ doc, doc ∈ ds → st.2 !! doc_id doc = None) →
  ∀ j doc, ds !! j = Some doc → st'.2 !! doc_id doc = Some (i + j).
Proof.
  revert i st. induction ds as [|doc ds IH]; intros i st; simpl.
  - intros _ _ _ j doc Hj. done.
  - intros H Hnd Hst. apply bind_Ok in H as (attr & _ & H).
    case_bool_decide; [done|].
    apply bind_Ok in H as (m & Hadd & H).
    apply NoDup_cons in Hnd as [Hnotin Hnd].
    assert (Hm : m = <[doc_id doc := i]> st.2).
    { unfold mapping_add in Hadd. rewrite Hst in Hadd by left.
      by injection Hadd as <-. }
    intros [|j] doc' Hj; simpl in Hj.
    + injection Hj as <-. rewrite Nat.add_0_r.
      eapply base_nodes_mapping_mono; [exact H|]. simpl.
      by rewrite Hm, lookup_insert_eq.
    + replace (i + S j) with (S i + j) by lia.
      eapply IH; [exact H|exact Hnd| |exact Hj].
      intros d Hd. simpl. rewrite Hm, lookup_insert_ne.
      * apply Hst. by right.
      * intros Heq. apply Hnotin. rewrite Heq. by apply list_elem_of_fmap_2.
Qed.

Lemma build_base_network_mapping_index pol docs d kw g mapping :
  build_base_network pol docs d kw = Ok (g, mapping) →
  NoDup (doc_id <$> documents docs) →
  ∀ j doc, documents docs !! j = Some doc → mapping_get mapping (doc_id doc) = Some j.
Proof.
  intros H Hnd j doc Hj.
  apply build_base_network_base_nodes in H as (g0 & H).
  eapply base_nodes_mapping_index in H; [exact H|exact Hnd| |exact Hj].
  intros doc' _. apply lookup_empty.
Qed.

(** In a reference list without repetitions, a resolved index occurs once
    if the id of its document is listed and not at all otherwise. *)
Lemma count_occ_resolve_refs (mapping : DocumentMapping) key a refs :
  mapping !! key = Some a →
  (∀ ref, mapping !! ref = Some a → ref = key) →
  NoDup refs →
  count_occ Nat.eq_dec (resolve_refs mapping refs) a
  = if decide (key ∈ refs) then 1 else 0.
Proof.
  intros Hkey Hinj. unfold resolve_refs, mapping_get.
  induction 1 as [|ref refs Hnotin Hnd IH]; [done|].
  cbn [omap list_omap].
  destruct (mapping !! ref) as [j|] eqn:E.
  - simpl count_occ. destruct (Nat.eq_dec j a) as [->|Hja].
    + apply Hinj in E as ->. rewrite IH.
      rewrite decide_False by done. rewrite decide_True by left. done.
    + rewrite IH. apply decide_ext. rewrite elem_of_cons.
      split; [by right|]. intros [->|?]; [congruence|done].
  - rewrite IH. apply decide_ext. rewrite elem_of_cons.
    split; [by right|]. intros [->|?]; [congruence|done].
Qed.

Lemma sum_list_indicator {A} (f : A -> nat) (P : A -> Prop)
    `{∀ x, Decision (P x)} (l : list A) :
  (∀ x, x ∈ l → f x = if decide (P x) then 1 else 0) →
  sum_list (f <$> l) = length (filter P l).
Proof.
  induction l as [|x l IH]; intros Hf; [done|].
  rewrite fmap_cons, filter_cons. simpl sum_list.
  rewrite (Hf x) by left. rewrite IH by (intros y Hy; apply Hf; by right).
  by case_decide.
Qed.

(** For document sets with pairwise distinct ids and reference lists
    without repetitions, the strength that [build_cocitation_network]
    computes for two documents [i < j] is the number of documents whose
    reference list contains the ids of both. *)
Theorem cocitation_strength_spec pol docs kw g0 mapping i j di dj :
  build_base_network pol docs false kw = Ok (g0, mapping) →
  NoDup (doc_id <$> documents docs) →
  (∀ doc, doc ∈ documents docs → NoDup (references_or_nil doc)) →
  documents docs !! i = Some di →
  documents docs !! j = Some dj →
  i < j →
  od_count (i, j) (cocitation_strength mapping (documents docs))
  = spec_cocitation_strength (documents docs) di dj.
Proof.
  intros Hbase Hids Hrefs Hi Hj Hlt.
  rewrite cocitation_strength_count, decide_True by done.
  unfold cocitation_count, spec_cocitation_strength.
  pose proof (build_base_network_mapping_index _ _ _ _ _ _ Hbase Hids) as Hidx.
  destruct (build_base_network_mapping _ _ _ _ _ _ Hbase) as [Hsound _].
  assert (Hinj : ∀ n dn, documents docs !! n = Some dn →
                 ∀ ref, mapping !! ref = Some n → ref = doc_id dn).
  { intros n dn Hn ref Href. apply Hsound in Href as (doc & Hdoc & <-).
    congruence. }
  apply sum_list_indicator. intros doc Hdoc. cbn zeta.
  rewrite (count_occ_resolve_refs mapping (doc_id di) i),
          (count_occ_resolve_refs mapping (doc_id dj) j); eauto.
  repeat case_decide; try done; tauto.
Qed.

Lemma cocitation_strength_spec_witness :
  od_count (0, 1) (cocitation_strength worked_mapping (documents worked_docs))
  = spec_cocitation_strength (documents worked_docs)
      {| doc_id := "D1"; doc_title := "first";
         doc_references := Some ["D2"; "D3"; "X9"]; doc_authors := None |}
      {| doc_id := "D2"; doc_title := "second";
         doc_references := Some ["D3"]; doc_authors := None |}.
Proof.
  apply (cocitation_strength_spec DupIgnore worked_docs no_kwargs
           (worked_base false) worked_mapping 0 1).
  - vm_compute. reflexivity.
  - apply (bool_decide_unpack _). by vm_compute.
  - intros doc Hdoc. apply (bool_decide_unpack _).
    repeat (apply elem_of_cons in Hdoc as [->|Hdoc]); [by vm_compute..|].
    by apply elem_of_nil in Hdoc.
  - reflexivity.
  - reflexivity.
  - lia.
Defined.

(** D2 and D3 are cited together by D1, once. *)
Example cocitation_strength_worked :
  cocitation_strength worked_mapping (documents worked_docs) = [((1, 2), 1)].
Proof. by vm_compute. Qed.

(** ** Edges of the co-citation and coupling graphs *)

Lemma od_upsert_elem {K V} `{EqDecision K} (k : K) (f : option V -> V)
    (d : list (K * V)) (e : K * V) :
  e ∈ od_upsert k f d → e.1 = k ∨ e ∈ d.
Proof.
  induction d as [|[k' v] d IH]; simpl.
  - intros ->%list_elem_of_singleton. by left.
  - case_decide; subst.
    + intros [->|?]%elem_of_cons; [by left | right; by right].
    + intros [->|?]%elem_of_cons; [right; by left|].
      destruct IH as [?|?]; [done|by left|right; by right].
Qed.

Lemma prune_edges_subseteq {K} (es : list (K * nat)) (max_edges : Z) e :
  e ∈ prune_edges es max_edges → e ∈ es.
Proof.
  unfold prune_edges. destruct (max_edges <? Z.of_nat (length es))%Z; [|done].
  destruct (slice_to_take (sort_desc snd es) max_edges) as [n ->].
  intros He. apply subseteq_take in He. by rewrite sort_desc_perm in He.
Qed.

(** Every key of the strength table is an increasing pair. *)
Lemma cocitation_strength_increasing mapping ds e :
  e ∈ cocitation_strength mapping ds → e.1.1 < e.1.2.
Proof.
  unfold cocitation_strength.
  assert (Hrow : ∀ i refs s, (∀ e, e ∈ s → e.1.1 < e.1.2) →
                 ∀ e, e ∈ cocitation_row i refs s → e.1.1 < e.1.2).
  { intros i refs. induction refs as [|j refs IH]; intros s Hs; [done|].
    rewrite cocitation_row_cons. apply IH.
    destruct (i <? j) eqn:E; [|done]. apply Nat.ltb_lt in E.
    intros e' [->|?]%od_upsert_elem; [done|by apply Hs]. }
  assert (Hrows : ∀ rows refs s, (∀ e, e ∈ s → e.1.1 < e.1.2) →
                  ∀ e, e ∈ fold_left (fun s i => cocitation_row i refs s) rows s →
                       e.1.1 < e.1.2).
  { intros rows refs. induction rows as [|i rows IH]; intros s Hs; [done|].
    simpl. apply IH. by apply Hrow. }
  assert (Hgen : ∀ s, (∀ e, e ∈ s → e.1.1 < e.1.2) →
    ∀ e, e ∈ fold_left (fun s doc =>
                 cocitation_pairs (resolve_refs mapping (references_or_nil doc)) s) ds s →
         e.1.1 < e.1.2).
  { induction ds as [|doc ds IH]; intros s Hs; [done|].
    simpl. apply IH. by apply Hrows. }
  apply Hgen. intros e' He'. by apply elem_of_nil in He'.
Qed.

(** The co-citation graph has no self-loop. *)
Theorem build_cocitation_network_no_self_loop pol docs max_edges kw g :
  build_cocitation_network pol docs max_edges kw = Ok g →
  directed g = false ∧ ∀ i, ¬ has_edge g i i.
Proof.
  unfold build_cocitation_network. intros H.
  apply bind_Ok in H as ([g0 mapping] & Hbase & [= <-]).
  apply build_base_network_graph in Hbase as [Hd He].
  split; [by rewrite add_weighted_edges_directed|].
  intros i. rewrite add_weighted_edges_has_edge, Hd.
  unfold has_edge, edge_attrs. rewrite He. simpl.
  intros [[? [=]]|(e & Hin & [= Hmin Hmax])].
  apply prune_edges_subseteq, cocitation_strength_increasing in Hin. lia.
Qed.

Lemma build_cocitation_network_no_self_loop_witness :
  ∃ g, build_cocitation_network DupIgnore cocited_docs None no_kwargs = Ok g
       ∧ directed g = false ∧ ∀ i, ¬ has_edge g i i.
Proof.
  eexists. split; [by vm_compute|].
  apply (build_cocitation_network_no_self_loop DupIgnore cocited_docs None no_kwargs).
  by vm_compute.
Defined.

Lemma weight_is_score_add_edge u v w g :
  weight_is_score g →
  weight_is_score
    (add_edge u v (list_to_map ((fun k => (k, ANat w)) <$> ["weight"; "score"])) g).
Proof.
  intros Hg x y a. rewrite edge_attrs_add_edge. case_decide; [|apply Hg].
  intros [= <-]. unfold update_attrs. simpl.
  rewrite !lookup_union, lookup_insert_eq.
  rewrite lookup_insert_ne by done. rewrite lookup_insert_eq.
  by destruct (default ∅ (edge_attrs g u v) !! "weight"),
              (default ∅ (edge_attrs g u v) !! "score").
Qed.

Lemma add_weighted_edges_weight_is_score es g :
  weight_is_score g → weight_is_score (add_weighted_edges ["weight"; "score"] es g).
Proof.
  revert g. induction es as [|e es IH]; intros g Hg; [done|].
  change (add_weighted_edges ["weight"; "score"] (e :: es) g)
    with (add_weighted_edges ["weight"; "score"] es
            (add_edge e.1.1 e.1.2
               (list_to_map ((fun k => (k, ANat e.2)) <$> ["weight"; "score"])) g)).
  by apply IH, weight_is_score_add_edge.
Qed.

(** Whatever [build_coupling_network] returns is an undirected graph:
    the attributes of an edge are the same in both directions, and every
    edge carries one value under "weight" and under "score". *)
Theorem build_coupling_network_symmetric pol docs max_edges kw g :
  build_coupling_network pol docs max_edges kw = Ok g →
  directed g = false
  ∧ (∀ u v, edge_attrs g u v = edge_attrs g v u)
  ∧ (∀ u v, edge_attr g u v "weight" = edge_attr g v u "weight")
  ∧ (∀ u v, edge_attr g u v "weight" = edge_attr g u v "score").
Proof.
  unfold build_coupling_network. intros H.
  apply bind_Ok in H as ([g0 mapping] & Hbase & H).
  apply bind_Ok in H as (doc_refs & _ & [= <-]).
  apply build_base_network_graph in Hbase as [Hd He].
  assert (Hdir : directed (add_weighted_edges ["weight"; "score"]
                   (prune_edges (coupling_strength doc_refs) max_edges) g0) = false)
    by (by rewrite add_weighted_edges_directed).
  split_and!; [done| | |].
  - intros u v. by apply edge_attrs_sym.
  - intros u v. unfold edge_attr. by rewrite (edge_attrs_sym _ u v).
  - intros u v. unfold edge_attr.
    destruct (edge_attrs _ u v) as [a|] eqn:E; [|done]. simpl.
    eapply add_weighted_edges_weight_is_score; [|exact E].
    intros x y b. unfold edge_attrs. by rewrite He.
Qed.

Lemma build_coupling_network_symmetric_witness :
  ∃ g, build_coupling_network DupIgnore worked_docs 1000 no_kwargs = Ok g
       ∧ directed g = false
       ∧ (∀ u v, edge_attrs g u v = edge_attrs g v u)
       ∧ (∀ u v, edge_attr g u v "weight" = edge_attr g v u "weight")
       ∧ (∀ u v, edge_attr g u v "weight" = edge_attr g u v "score").
Proof.
  eexists. split; [by vm_compute|].
  apply (build_coupling_network_symmetric DupIgnore worked_docs 1000 no_kwargs).
  by vm_compute.
Defined.

(** D1 and D2 both cite D3, a document of the set: the mapping already
    holds D3, so this shared reference is counted. *)
Example build_coupling_network_known_reference :
  (g ← build_coupling_network DupIgnore worked_docs 1000 no_kwargs;
   Ok (edge_attr g 0 1 "weight", edge_attr g 1 0 "score"))
  = Ok (Some (ANat 1), Some (ANat 1)).
Proof. by vm_compute. Qed.

(** ** Nodes of the co-author graph *)

Lemma od_upsert_absent {K V} `{EqDecision K} (k : K) (f : option V -> V)
    (d : list (K * V)) :
  od_get k d = None → od_upsert k f d = d ++ [(k, f None)].
Proof.
  induction d as [|[k' v] d IH]; simpl; [done|].
  case_decide; [done|]. intros Hk. by rewrite IH.
Qed.

Lemma od_upsert_id {K V} `{EqDecision K} (k : K) (f : option V -> V)
    (d : list (K * V)) v :
  od_get k d = Some v → f (Some v) = v → od_upsert k f d = d.
Proof.
  induction d as [|[k' v'] d IH]; simpl; [done|].
  case_decide; subst.
  - intros [= ->] ->. done.
  - intros H1 H2. by rewrite IH.
Qed.

Lemma od_get_app_None {K V} `{EqDecision K} (k : K) (d d' : list (K * V)) :
  od_get k (d ++ d') = None ↔ od_get k d = None ∧ od_get k d' = None.
Proof.
  induction d as [|[k' v] d IH]; simpl.
  - split; [done|by intros [_ ?]].
  - case_decide; [|done]. split; [done|by intros [? _]].
Qed.

Lemma add_edge_nodes u v a g :
  is_Some (od_get u (nodes g)) → is_Some (od_get v (nodes g)) →
  nodes (add_edge u v a g) = nodes g.
Proof.
  intros [au Hu] [av Hv]. unfold add_edge. simpl.
  assert (Hid : ∀ x : attrs, update_attrs ∅ (Some x) = x).
  { intros x. unfold update_attrs. simpl. apply (left_id_L ∅ (∪)). }
  rewrite (od_upsert_id u _ _ au) by done.
  by rewrite (od_upsert_id v _ _ av).
Qed.

Lemma add_weighted_edges_nodes keys es g :
  (∀ e, e ∈ es → is_Some (od_get e.1.1 (nodes g)) ∧ is_Some (od_get e.1.2 (nodes g))) →
  nodes (add_weighted_edges keys es g) = nodes g.
Proof.
  revert g. induction es as [|e es IH]; intros g Hes; [done|].
  change (add_weighted_edges keys (e :: es) g)
    with (add_weighted_edges keys es
            (add_edge e.1.1 e.1.2 (list_to_map ((fun k => (k, ANat e.2)) <$> keys)) g)).
  destruct (Hes e) as [H1 H2]; [by left|].
  rewrite IH; rewrite add_edge_nodes by done; [done|].
  intros e' He'. apply Hes. by right.
Qed.

(** The node table and the name index that [coauthor_nodes] builds. *)
Lemma coauthor_nodes_fold (ils : list (nat * string)) (st : Graph * list (string * nat)) :
  NoDup ils.*1 →
  (∀ ia, ia ∈ ils → od_get ia.1 (nodes st.1) = None) →
  let st' := fold_left (fun st (ia : nat * string) =>
                          (add_node ia.1 {["title" := AStr ia.2]} st.1,
                           od_upsert ia.2 (fun _ => ia.1) st.2)) ils st in
  nodes st'.1
  = nodes st.1 ++ ((fun ia : nat * string => (ia.1, {["title" := AStr ia.2]})) <$> ils)
  ∧ ∀ name i, od_get name st'.2 = Some i →
              od_get name st.2 = Some i ∨ (i, name) ∈ ils.
Proof.
  revert st. induction ils as [|[i name] ils IH]; intros st Hnd Hfresh; simpl.
  - rewrite app_nil_r. split; [done|]. intros; by left.
  - apply NoDup_cons in Hnd as [Hi Hnd].
    set (st1 := (add_node i {["title" := AStr name]} st.1,
                 od_upsert name (fun _ => i) st.2)).
    assert (Hnodes1 : nodes st1.1 = nodes st.1 ++ [(i, {["title" := AStr name]})]).
    { simpl. rewrite od_upsert_absent by (apply (Hfresh (i, name)); by left).
      unfold update_attrs. simpl. by rewrite (right_id_L ∅ (∪)). }
    destruct (IH st1 Hnd) as [IH1 IH2].
    { intros ia Hia. rewrite Hnodes1. apply od_get_app_None. split.
      - apply Hfresh. by right.
      - simpl. rewrite decide_False; [done|]. intros Heq.
        apply Hi. apply list_elem_of_fmap. by exists ia. }
    split.
    + rewrite IH1, Hnodes1, <- app_assoc. done.
    + intros name' i' H'. apply IH2 in H' as [H'|H']; [|right; by right].
      simpl in H'. rewrite od_get_upsert in H'. case_decide.
      * injection H' as <-. subst. right; by left.
      * by left.
Qed.

Lemma enumerate_indices {A} (l : list A) : (enumerate l).*1 = seq 0 (length l).
Proof.
  unfold enumerate. apply list_eq. intros i.
  rewrite list_lookup_fmap, list_lookup_imap.
  destruct (l !! i) as [x|] eqn:E; simpl.
  - symmetry. apply lookup_seq. split; [done|]. by eapply lookup_lt_Some.
  - symmetry. apply lookup_seq_ge. by apply lookup_ge_None.
Qed.

Lemma coauthor_nodes_spec authors :
  nodes (coauthor_nodes authors (empty_graph true)).1
  = (fun ia : nat * string => (ia.1, {["title" := AStr ia.2]})) <$> enumerate authors
  ∧ ∀ name i, od_get name (coauthor_nodes authors (empty_graph true)).2 = Some i →
              authors !! i = Some name.
Proof.
  destruct (coauthor_nodes_fold (enumerate authors) (empty_graph true, []))
    as [H1 H2].
  - rewrite enumerate_indices. apply NoDup_seq.
  - done.
  - split; [exact H1|]. intros name i H. apply H2 in H as [[=]|H].
    apply elem_of_lookup_imap in H as (i' & name' & [= -> ->] & H). done.
Qed.

(** The names counted by the first loop are exactly the non-empty author
    names of the documents. *)
Lemma count_authors_keys ds name :
  is_Some (od_get name (count_authors ds))
  ↔ ∃ doc a, doc ∈ ds ∧ a ∈ authors_or_nil doc ∧ truthy_name a = Some name.
Proof.
  unfold count_authors.
  assert (Hrow : ∀ authors count,
    is_Some (od_get name (fold_left (fun count author =>
                match truthy_name author with
                | Some name => incr name count
                | None => count
                end) authors count))
    ↔ is_Some (od_get name count) ∨ ∃ a, a ∈ authors ∧ truthy_name a = Some name).
  { induction authors as [|a authors IH]; intros count; simpl.
    - split; [by left|]. intros [?|(a & Ha & _)]; [done|]. by apply elem_of_nil in Ha.
    - rewrite IH. clear IH. split.
      + intros [H|(a' & Ha' & H')].
        * destruct (truthy_name a) as [n|] eqn:E; [|by left].
          apply od_get_incr_is_Some in H as [->|H]; [right|by left].
          exists a. split; [by left|done].
        * right. exists a'. split; [by right|done].
      + intros [H|(a' & Ha' & H')].
        * left. destruct (truthy_name a); [|done].
          apply od_get_incr_is_Some. by right.
        * apply elem_of_cons in Ha' as [->|Ha'].
          -- left. rewrite H'. apply od_get_incr_is_Some. by left.
          -- right. eauto. }
  assert (Hgen : ∀ count,
    is_Some (od_get name (fold_left (fun count doc =>
       fold_left (fun count author =>
                    match truthy_name author with
                    | Some name => incr name count
                    | None => count
                    end) (authors_or_nil doc) count) ds count))
    ↔ is_Some (od_get name count)
      ∨ ∃ doc a, doc ∈ ds ∧ a ∈ authors_or_nil doc ∧ truthy_name a = Some name).
  { induction ds as [|doc ds IH]; intros count; simpl.
    - split; [by left|]. intros [?|(doc & a & Hd & _)]; [done|].
      by apply elem_of_nil in Hd.
    - rewrite IH, Hrow. clear IH. split.
      + intros [[?|(a & ? & ?)]|(doc' & a & ? & ?)].
        * by left.
        * right. exists doc, a. split; [by left|done].
        * right. exists doc', a. split; [by right|done].
      + intros [?|(doc' & a & Hd & ? & ?)]; [by left; left|].
        apply elem_of_cons in Hd as [->|Hd].
        * left; right. eauto.
        * right. eauto. }
  rewrite Hgen. split; [|by right]. intros [[? [=]]|?]. done.
Qed.

Lemma truthy_name_Some a name :
  truthy_name a = Some name ↔ author_name a = Some name ∧ name ≠ "".
Proof.
  unfold truthy_name. destruct (author_name a) as [s|].
  - case_decide; subst.
    + split; [done|]. by intros [[= <-] ?].
    + split; [intros [= <-]; done|]. by intros [[= <-] _].
  - split; [done|]. by intros [? _].
Qed.

Lemma count_authors_NoDup ds : NoDup (od_keys (count_authors ds)).
Proof.
  unfold count_authors.
  assert (Hrow : ∀ authors (count : list (string * nat)),
    NoDup (od_keys count) →
    NoDup (od_keys (fold_left (fun count author =>
                match truthy_name author with
                | Some name => incr name count
                | None => count
                end) authors count))).
  { induction authors as [|a authors IH]; intros count Hc; simpl; [done|].
    apply IH. destruct (truthy_name a); [|done]. by apply od_upsert_NoDup. }
  assert (Hgen : ∀ count : list (string * nat),
    NoDup (od_keys count) →
    NoDup (od_keys (fold_left (fun count doc =>
       fold_left (fun count author =>
                    match truthy_name author with
                    | Some name => incr name count
                    | None => count
                    end) (authors_or_nil doc) count) ds count))).
  { induction ds as [|doc ds IH]; intros count Hc; simpl; [done|].
    by apply IH, Hrow. }
  apply Hgen. constructor.
Qed.

Lemma retained_authors_sublist count max_authors :
  ∃ n sorted, sorted ≡ₚ od_keys count
              ∧ retained_authors count max_authors = take n sorted.
Proof.
  unfold retained_authors. destruct max_authors as [m|].
  - destruct (m <? _)%Z.
    + destruct (slice_to_take
                  (sort_desc (fun name => default 0 (od_get name count)) (od_keys count)) m)
        as [n ->].
      eexists n, _. split; [apply sort_desc_perm|done].
    + exists (length (od_keys count)), (od_keys count).
      by rewrite firstn_all.
  - exists (length (od_keys count)), (od_keys count).
    by rewrite firstn_all.
Qed.

Lemma retained_authors_length count m :
  (0 ≤ m)%Z → (Z.of_nat (length (retained_authors count (Some m))) ≤ m)%Z.
Proof.
  intros Hm. unfold retained_authors.
  destruct (m <? _)%Z eqn:E.
  - by apply slice_to_length.
  - by apply Z.ltb_ge in E.
Qed.

(** The nodes of the co-author graph are the retained authors, in order,
    each with its name as title and nothing else; a retained author is a
    non-empty name that some document lists, and no name is retained
    twice; a cut-off [max_authors >= 0] bounds the number of nodes; and
    without a cut-off every non-empty author name of the documents is a
    node. *)
Theorem build_coauthor_network_nodes docs max_authors :
  let g := build_coauthor_network docs max_authors in
  let authors := retained_authors (count_authors (documents docs)) max_authors in
  nodes g = (fun ia : nat * string => (ia.1, {["title" := AStr ia.2]}))
              <$> enumerate authors
  ∧ NoDup authors
  ∧ (∀ name, name ∈ authors →
       name ≠ "" ∧ ∃ doc a, doc ∈ documents docs ∧ a ∈ authors_or_nil doc
                            ∧ author_name a = Some name)
  ∧ (∀ m, max_authors = Some m → (0 ≤ m)%Z → (Z.of_nat (length (nodes g)) ≤ m)%Z)
  ∧ (max_authors = None →
     ∀ doc a name, doc ∈ documents docs → a ∈ authors_or_nil doc →
                   author_name a = Some name → name ≠ "" → name ∈ authors).
Proof.
  cbn zeta. unfold build_coauthor_network.
  set (count := count_authors (documents docs)).
  set (authors := retained_authors count max_authors).
  destruct (coauthor_nodes_spec authors) as [Hnodes Hmap].
  destruct (coauthor_nodes authors (empty_graph true)) as [g mapping].
  simpl in Hnodes, Hmap.
  assert (Hg : nodes (add_weighted_edges ["weight"]
                        (coauthor_edges mapping (documents docs)) g) = nodes g).
  { apply add_weighted_edges_nodes. intros [[u v] w] He. simpl.
    assert (Hk : is_Some (od_get (u, v) (coauthor_edges mapping (documents docs)))).
    { apply od_get_is_Some_elem. by exists (u, v, w). }
    apply coauthor_edges_keys in Hk
      as (doc & p & q & l & e & u' & v' & _ & _ & _ & _ & Hu & Hv & [= <- <-]).
    assert (Hnode : ∀ name i, od_get name mapping = Some i →
                              is_Some (od_get i (nodes g))).
    { intros name i Hi. apply Hmap in Hi. apply od_get_is_Some.
      unfold od_keys. rewrite Hnodes, <- list_fmap_compose.
      apply list_elem_of_fmap. exists (i, name). split; [done|].
      by apply elem_of_lookup_imap_2. }
    split; eapply Hnode; eauto. }
  destruct (retained_authors_sublist count max_authors) as (n & sorted & Hperm & Hret).
  fold authors in Hret.
  split_and!.
  - by rewrite Hg.
  - rewrite Hret. apply (sublist_NoDup _ sorted); [|apply sublist_take].
    rewrite Hperm. apply count_authors_NoDup.
  - intros name Hname. rewrite Hret in Hname. apply subseteq_take in Hname.
    rewrite Hperm in Hname. apply od_get_is_Some, count_authors_keys in Hname
      as (doc & a & Hdoc & Ha & [Hn Hne]%truthy_name_Some).
    split; [done|]. eauto.
  - intros m -> Hm. rewrite Hg, Hnodes, length_fmap. unfold enumerate.
    rewrite length_imap. by apply retained_authors_length.
  - intros -> doc a name Hdoc Ha Hn Hne. unfold authors, retained_authors.
    apply od_get_is_Some, count_authors_keys. exists doc, a.
    split_and!; [done..|]. by apply truthy_name_Some.
Qed.

(** With [max_authors=1] only the most frequent author keeps a node, and
    an author without a name never had one. *)
Example build_coauthor_network_cutoff :
  let docs :=
    {| documents :=
         [ {| doc_id := "P"; doc_title := "p"; doc_references := None;
              doc_authors := Some [ {| author_name := Some "Ada" |};
                                    {| author_name := None |};
                                    {| author_name := Some "" |};
                                    {| author_name := Some "Bob" |} ] |};
           authored_doc "Q" ["Bob"] ];
       data := [] |} in
  (nodes (build_coauthor_network docs None)).*1 = [0; 1]
  ∧ nodes (build_coauthor_network docs (Some 1%Z)) = [(0, {["title" := AStr "Bob"]})]
  ∧ edges (build_coauthor_network docs (Some 1%Z)) = [].
Proof. by vm_compute. Qed.

(** ** Nodes of the base graph *)

Lemma node_attr_spec docs props i attr0 attr :
  node_attr docs props i attr0 = Ok attr →
  (∀ prop, prop ∈ props →
     ∃ v, data_cell docs prop i = Ok v ∧ attr !! prop = Some (AVal v))
  ∧ (∀ key, key ∉ props → attr !! key = attr0 !! key).
Proof.
  revert attr0. induction props as [|p props IH]; intros attr0; simpl.
  - intros [= <-]. split; [|done]. intros prop Hin. by apply elem_of_nil in Hin.
  - intros H. apply bind_Ok in H as (v & Hv & H).
    apply IH in H as [H1 H2]. split.
    + intros prop [->|Hin]%elem_of_cons; [|by apply H1].
      destruct (decide (p ∈ props)) as [Hp|Hp].
      * apply H1 in Hp as (v' & Hv' & Hp). exists v'. split; [done|done].
      * exists v. split; [done|]. by rewrite H2, lookup_insert_eq.
    + intros key Hkey. apply not_elem_of_cons in Hkey as [Hne Hkey].
      rewrite H2 by done. by rewrite lookup_insert_ne.
Qed.

Lemma base_nodes_nodes pol docs props i ds st st' :
  base_nodes pol docs props i ds st = Ok st' →
  (∀ k, k ∈ od_keys (nodes st.1) → k < i) →
  od_keys (nodes st'.1) = od_keys (nodes st.1) ++ seq i (length ds)
  ∧ (∀ k, k < i → od_get k (nodes st'.1) = od_get k (nodes st.1))
  ∧ (∀ j doc, ds !! j = Some doc →
       ∃ attr, node_attr docs props (i + j) ∅ = Ok attr
               ∧ attr !! "title" = None ∧ attr !! "doc" = None
               ∧ od_get (i + j) (nodes st'.1)
                 = Some (<["title" := AStr (doc_title doc)]>
                           (<["doc" := ADoc doc]> attr))).
Proof.
  revert i st. induction ds as [|doc ds IH]; intros i st; simpl.
  - intros [= <-] _. rewrite app_nil_r. done.
  - intros H Hlt. apply bind_Ok in H as (attr & Hattr & H).
    case_bool_decide as Hclash; [done|].
    apply bind_Ok in H as (m & _ & H).
    set (a := <["title" := AStr (doc_title doc)]> (<["doc" := ADoc doc]> attr)) in *.
    assert (Hfresh : od_get i (nodes st.1) = None).
    { apply od_get_None. intros Hin. apply Hlt in Hin. lia. }
    assert (Hnodes : nodes (add_node i a st.1) = nodes st.1 ++ [(i, a)]).
    { simpl. rewrite od_upsert_absent by done. unfold update_attrs. simpl.
      by rewrite (right_id_L ∅ (∪)). }
    assert (Hlt' : ∀ k, k ∈ od_keys (nodes (add_node i a st.1, m).1) → k < S i).
    { intros k. cbn [fst]. rewrite Hnodes. unfold od_keys. rewrite fmap_app.
      intros [Hk|Hk%list_elem_of_singleton]%elem_of_app; [|simpl in Hk; lia].
      apply Hlt in Hk. lia. }
    destruct (IH _ _ H Hlt') as (H1 & H2 & H3). cbn [fst] in H1, H2.
    rewrite Hnodes in H1, H2.
    assert (Hget : ∀ k, od_get k (nodes st.1 ++ [(i, a)])
                        = if decide (k = i) then Some a else od_get k (nodes st.1)).
    { intros k. case_decide as Hk.
      - subst k. clear -Hfresh. induction (nodes st.1) as [|[k' v] l IHl]; simpl.
        + by rewrite decide_True.
        + simpl in Hfresh. case_decide; [done|]. by apply IHl.
      - clear -Hk. induction (nodes st.1) as [|[k' v] l IHl]; simpl.
        + by rewrite decide_False.
        + case_decide; [done|]. apply IHl. }
    split_and!.
    + rewrite H1. unfold od_keys. rewrite fmap_app, <- app_assoc. done.
    + intros k Hk. rewrite H2 by lia. rewrite Hget, decide_False by lia. done.
    + intros [|j] doc' Hj; simpl in Hj.
      * injection Hj as <-. rewrite Nat.add_0_r. exists attr.
        assert (Hno : attr !! "title" = None ∧ attr !! "doc" = None).
        { destruct (attr !! "title") eqn:E1, (attr !! "doc") eqn:E2; try done;
            exfalso; apply Hclash; eauto. }
        destruct Hno as [Hno1 Hno2]. split_and!; [done..|].
        rewrite H2 by lia. by rewrite Hget, decide_True.
      * replace (i + S j) with (S i + j) by lia. by apply H3.
Qed.

Lemma set_colors_nodes i cs g g' :
  set_colors i cs g = Ok g' →
  od_keys (nodes g') = od_keys (nodes g)
  ∧ (∀ k a, od_get k (nodes g) = Some a →
       od_get k (nodes g')
       = Some (match cs !! (k - i) with
               | Some c => if decide (i ≤ k) then <["color" := AColor c]> a else a
               | None => a
               end)).
Proof.
  revert i g. induction cs as [|c cs IH]; intros i g; simpl.
  - intros [= <-]. split; [done|]. intros k a ->. by destruct (k - i).
  - intros H. apply bind_Ok in H as (g1 & H1 & H).
    unfold set_node_attr in H1. destruct (od_get i (nodes g)) as [ai|] eqn:Ei; [|done].
    injection H1 as <-. apply IH in H as [Hkeys Hget]. simpl in Hkeys, Hget.
    split.
    + rewrite Hkeys, od_upsert_keys. unfold od_mem. by rewrite Ei.
    + intros k a Hk.
      rewrite (Hget k (if decide (i = k) then <["color" := AColor c]> a else a)).
      2: { rewrite od_get_upsert. case_decide; [|done]. subst. by rewrite Hk. }
      f_equal. destruct (decide (i = k)) as [->|Hne].
      * rewrite Nat.sub_diag. replace (k - S k) with 0 by lia. simpl.
        rewrite decide_True by lia.
        destruct (cs !! 0); [|done]. by rewrite decide_False by lia.
      * destruct (decide (i ≤ k)) as [Hle|Hgt].
        -- replace (k - i) with (S (k - S i)) by lia. simpl.
           destruct (cs !! (k - S i)); [|done]. by rewrite decide_True by lia.
        -- replace (k - i) with 0 by lia. replace (k - S i) with 0 by lia. simpl.
           destruct (cs !! 0); [|done]. by rewrite decide_False by lia.
Qed.

(** Whatever [build_base_network] returns has the requested direction and
    no edge; its nodes are the positions [0 .. len(docs) - 1] in order;
    the node of a document carries the document, its title and, for every
    node property, the value of that column at the document's position
    (a property named "color" may be replaced by the computed colour). *)
Theorem build_base_network_nodes pol docs d kw g mapping :
  build_base_network pol docs d kw = Ok (g, mapping) →
  directed g = d
  ∧ edges g = []
  ∧ od_keys (nodes g) = seq 0 (length (documents docs))
  ∧ ∀ i doc, documents docs !! i = Some doc →
      ∃ a, od_get i (nodes g) = Some a
           ∧ a !! "title" = Some (AStr (doc_title doc))
           ∧ a !! "doc" = Some (ADoc doc)
           ∧ ∀ prop, prop ∈ default (od_keys (data docs)) (node_props kw) →
                     prop ≠ "color" →
                     ∃ v, data_cell docs prop i = Ok v ∧ a !! prop = Some (AVal v).
Proof.
  intros H. destruct (build_base_network_graph _ _ _ _ _ _ H) as [Hd He].
  split; [done|]. split; [done|].
  unfold build_base_network in H.
  apply bind_Ok in H as ([g0 m0] & H0 & H).
  apply base_nodes_nodes in H0 as (Hkeys & _ & Hnode); [|by intros k ?%elem_of_nil].
  cbn [fst] in Hkeys, Hnode. simpl in Hkeys.
  assert (Hg0 : ∀ i doc, documents docs !! i = Some doc →
      ∃ a, od_get i (nodes g0) = Some a
           ∧ a !! "title" = Some (AStr (doc_title doc))
           ∧ a !! "doc" = Some (ADoc doc)
           ∧ ∀ prop, prop ∈ default (od_keys (data docs)) (node_props kw) →
                     prop ≠ "color" →
                     ∃ v, data_cell docs prop i = Ok v ∧ a !! prop = Some (AVal v)).
  { intros i doc Hi. apply Hnode in Hi as (attr & Hattr & Ht & Hdoc & Hget).
    simpl in Hget. eexists. split; [exact Hget|].
    rewrite lookup_insert_eq, lookup_insert_ne, lookup_insert_eq by done.
    split_and!; [done..|]. intros prop Hprop _.
    apply node_attr_spec in Hattr as [Hattr _].
    destruct (Hattr prop Hprop) as (v & Hv & Hp). exists v. split; [done|].
    rewrite !lookup_insert_ne; [done|intros <-; congruence..]. }
  assert (Hcol : ∀ cols g', set_colors 0 cols g0 = Ok g' →
    od_keys (nodes g') = seq 0 (length (documents docs))
    ∧ ∀ i doc, documents docs !! i = Some doc →
      ∃ a, od_get i (nodes g') = Some a
           ∧ a !! "title" = Some (AStr (doc_title doc))
           ∧ a !! "doc" = Some (ADoc doc)
           ∧ ∀ prop, prop ∈ default (od_keys (data docs)) (node_props kw) →
                     prop ≠ "color" →
                     ∃ v, data_cell docs prop i = Ok v ∧ a !! prop = Some (AVal v)).
  { intros cols g' Hset. apply set_colors_nodes in Hset as [Hk Hget].
    split; [by rewrite Hk|]. intros i doc Hi.
    destruct (Hg0 i doc Hi) as (a & Ha & Ht & Hdoc & Hprops).
    rewrite (Hget i a Ha). eexists. split; [done|].
    destruct (cols !! (i - 0)); [rewrite decide_True by lia|]; [|done].
    rewrite !lookup_insert_ne by done. split_and!; [done..|].
    intros prop Hprop Hne. destruct (Hprops prop Hprop Hne) as (v & Hv & Hp).
    exists v. by rewrite lookup_insert_ne. }
  destruct (colors kw) as [c|]; [destruct (documents docs) as [|doc0 ds] eqn:Edocs|].
  - injection H as <- <-. done.
  - apply bind_Ok in H as (cs & _ & H). case_decide; [|done].
    apply bind_Ok in H as (cols & _ & H).
    apply bind_Ok in H as (g1 & H1 & [= <- <-]). by apply (Hcol cols).
  - injection H as <- <-. done.
Qed.

Lemma build_base_network_nodes_witness :
  build_base_network DupIgnore worked_docs false no_kwargs
  = Ok (worked_base false, worked_mapping)
  ∧ od_keys (nodes (worked_base false)) = seq 0 (length (documents worked_docs)).
Proof.
  assert (H : build_base_network DupIgnore worked_docs false no_kwargs
              = Ok (worked_base false, worked_mapping)) by (by vm_compute).
  split; [exact H|].
  exact (proj1 (proj2 (proj2 (build_base_network_nodes _ _ _ _ _ _ H)))).
Defined.

(** ** The identity mapping of the base graph *)

Lemma first_with_id_snoc pre doc key j :
  first_with_id (pre ++ [doc]) key j
  ↔ first_with_id pre key j
    ∨ (j = length pre ∧ doc_id doc = key ∧ ∀ doc', doc' ∈ pre → doc_id doc' ≠ key).
Proof.
  unfold first_with_id. split.
  - intros [(d & Hj & Hd) Hmin].
    destruct (decide (j < length pre)) as [Hlt|Hge].
    + left. rewrite lookup_app_l in Hj by done. split; [eauto|].
      intros j' doc' Hj' Hl. apply (Hmin j' doc' Hj').
      rewrite lookup_app_l; [done|lia].
    + right. assert (j = length pre) as ->.
      { apply lookup_lt_Some in Hj. rewrite length_app in Hj. simpl in Hj. lia. }
      rewrite list_lookup_middle in Hj by done. injection Hj as <-.
      split_and!; [done..|]. intros doc' [j' Hj']%list_elem_of_lookup.
      apply (Hmin j' doc').
      * by eapply lookup_lt_Some.
      * rewrite lookup_app_l; [done|]. by eapply lookup_lt_Some.
  - intros [[(d & Hj & Hd) Hmin]|(-> & Hd & Hnone)].
    + split.
      * exists d. split; [|done]. rewrite lookup_app_l; [done|].
        by eapply lookup_lt_Some.
      * intros j' doc' Hj' Hl. apply (Hmin j' doc' Hj').
        rewrite lookup_app_l in Hl; [done|].
        apply lookup_lt_Some in Hj. lia.
    + split.
      * exists doc. by rewrite list_lookup_middle.
      * intros j' doc' Hj' Hl. apply Hnone.
        rewrite lookup_app_l in Hl by done. apply list_elem_of_lookup. eauto.
Qed.

Lemma base_nodes_first_with_id pol docs props pre ds st st' :
  base_nodes pol docs props (length pre) ds st = Ok st' →
  (∀ key j, st.2 !! key = Some j ↔ first_with_id pre key j) →
  (∀ doc, doc ∈ pre → is_Some (st.2 !! doc_id doc)) →
  (pol = DupFail → NoDup (doc_id <$> pre)) →
  (∀ key j, st'.2 !! key = Some j ↔ first_with_id (pre ++ ds) key j)
  ∧ (pol = DupFail → NoDup (doc_id <$> (pre ++ ds))).
Proof.
  revert pre st. induction ds as [|doc ds IH]; intros pre st; simpl.
  - intros [= <-] H1 _ H3. rewrite app_nil_r. done.
  - intros H Hfirst Hall Hnd. apply bind_Ok in H as (attr & _ & H).
    case_bool_decide; [done|].
    apply bind_Ok in H as (m & Hadd & H).
    replace (pre ++ doc :: ds) with ((pre ++ [doc]) ++ ds) by (by rewrite <- app_assoc).
    replace (S (length pre)) with (length (pre ++ [doc])) in H
      by (rewrite length_app; simpl; lia).
    apply (IH _ _ H); clear IH H; simpl.
    + intros key j. rewrite first_with_id_snoc.
      unfold mapping_add in Hadd. destruct (st.2 !! doc_id doc) as [j0|] eqn:E.
      * assert (m = st.2) as -> by (destruct pol; [by injection Hadd|done]).
        rewrite Hfirst. split; [by left|]. intros [?|(-> & Hid & Hnone)]; [done|].
        apply Hfirst in E as [(d0 & Hd0 & Hid0) _].
        exfalso. apply (Hnone d0); [|congruence]. apply list_elem_of_lookup. eauto.
      * injection Hadd as <-. rewrite lookup_insert. case_decide as Hk.
        -- subst key. split.
           ++ intros [= <-]. right. split_and!; [done..|].
              intros doc' Hin Heq. apply Hall in Hin as [? Hin].
              rewrite Heq in Hin. congruence.
           ++ intros [Hf | [-> _] ]; [|done].
              apply Hfirst in Hf. congruence.
        -- rewrite Hfirst. split; [by left|].
           intros [? | [_ [? _] ] ]; [done|congruence].
    + intros doc' [Hin | ->%list_elem_of_singleton]%elem_of_app.
      * apply Hall in Hin as [v Hv]. exists v. by eapply mapping_add_mono.
      * unfold mapping_add in Hadd. destruct (st.2 !! doc_id doc) as [j0|] eqn:E.
        -- destruct pol; [|done]. injection Hadd as <-. eauto.
        -- injection Hadd as <-. rewrite lookup_insert_eq. eauto.
    + intros ->. rewrite fmap_app. simpl. apply NoDup_app. split_and!.
      * by apply Hnd.
      * intros key Hkey ->%list_elem_of_singleton.
        apply list_elem_of_fmap in Hkey as (doc' & Heq & Hin).
        apply Hall in Hin as [v Hv]. unfold mapping_add in Hadd.
        rewrite <- Heq in Hv. by rewrite Hv in Hadd.
      * apply NoDup_singleton.
Qed.

(** The identity mapping returned with the base graph resolves an id to
    the first position at which a document with that id stands, and
    resolves nothing else; with a mapping that rejects duplicates, a call
    that returns had pairwise distinct ids. *)
Theorem build_base_network_identity_mapping pol docs d kw g mapping :
  build_base_network pol docs d kw = Ok (g, mapping) →
  (∀ key j, mapping_get mapping key = Some j
            ↔ first_with_id (documents docs) key j)
  ∧ (pol = DupFail → NoDup (doc_id <$> documents docs)).
Proof.
  intros H. apply build_base_network_base_nodes in H as (g0 & H).
  apply (base_nodes_first_with_id _ _ _ []) in H; [done|..]; simpl.
  - intros key j. rewrite lookup_empty. split; [done|].
    intros [(doc & Hj & _) _]. done.
  - intros doc Hin. by apply elem_of_nil in Hin.
  - intros _. constructor.
Qed.

Lemma build_base_network_identity_mapping_witness :
  build_base_network DupFail worked_docs false no_kwargs
  = Ok (worked_base false, worked_mapping)
  ∧ (∀ key j, mapping_get worked_mapping key = Some j
              ↔ first_with_id (documents worked_docs) key j)
  ∧ (DupFail = DupFail → NoDup (doc_id <$> documents worked_docs)).
Proof.
  assert (H : build_base_network DupFail worked_docs false no_kwargs
              = Ok (worked_base false, worked_mapping)) by (by vm_compute).
  split; [exact H|].
  exact (build_base_network_identity_mapping _ _ _ _ _ _ H).
Defined.

(** With duplicate ids the first document keeps the id under the ignoring
    policy, and the call fails under the rejecting one. *)
Example build_base_network_duplicate_ids :
  let docs := {| documents := [plain_doc "A" []; plain_doc "B" []; plain_doc "A" []];
                 data := [] |} in
  (r ← build_base_network DupIgnore docs false no_kwargs; Ok (mapping_get r.2 "A"))
  = Ok (Some 0)
  ∧ build_base_network DupFail docs false no_kwargs = Raise DuplicateIdError.
Proof. by vm_compute. Qed.

(** ** Node properties that cannot be attached *)

Lemma data_cell_error docs prop i e :
  data_cell docs prop i = Raise e → e = LookupError.
Proof.
  unfold data_cell, data_column. destruct (od_get prop (data docs)) as [col|]; simpl.
  - destruct (col !! i); [done|]. by intros [= <-].
  - by intros [= <-].
Qed.

Lemma node_attr_result docs props i attr0 :
  match node_attr docs props i attr0 with
  | Ok _ => ∀ prop, prop ∈ props → is_ok (data_cell docs prop i)
  | Raise e => e = LookupError ∧ ∃ prop, prop ∈ props ∧ ¬ is_ok (data_cell docs prop i)
  end.
Proof.
  revert attr0. induction props as [|p props IH]; intros attr0; simpl.
  - intros prop Hin. by apply elem_of_nil in Hin.
  - destruct (data_cell docs p i) as [v|e] eqn:E; simpl.
    + specialize (IH (<[p := AVal v]> attr0)).
      destruct (node_attr docs props i (<[p := AVal v]> attr0)) as [a|e'].
      * intros prop [->|Hin]%elem_of_cons; [by rewrite E|by apply IH].
      * destruct IH as [-> (prop & Hin & Hbad)]. split; [done|].
        exists prop. split; [by right|done].
    + split; [by eapply data_cell_error|]. exists p. split; [by left|].
      rewrite E. intros [].
Qed.

(** For a non-empty document set, a node property without a value for the
    first document (an unknown column, or a column that is too short) makes
    [build_base_network] raise a lookup error; when every property has a
    value, a property named "title" or "doc" clashes with the keywords of
    [add_node] and the call raises [TypeError].  With [node_props=None]
    this is decided by the names of the data columns. *)
Theorem build_base_network_node_props pol docs d kw doc ds :
  documents docs = doc :: ds →
  let props := default (od_keys (data docs)) (node_props kw) in
  ((∃ prop, prop ∈ props ∧ ¬ is_ok (data_cell docs prop 0)) →
   build_base_network pol docs d kw = Raise LookupError)
  ∧ ((∀ prop, prop ∈ props → is_ok (data_cell docs prop 0)) →
     "title" ∈ props ∨ "doc" ∈ props →
     build_base_network pol docs d kw = Raise TypeError).
Proof.
  intros Hdocs props. unfold build_base_network. fold props. rewrite Hdocs.
  cbn [base_nodes].
  pose proof (node_attr_result docs props 0 ∅) as Hres.
  pose proof (node_attr_spec docs props 0 ∅) as Hspec.
  destruct (node_attr docs props 0 ∅) as [attr|e]; cbn [mbind result_bind].
  - split.
    + intros (prop & Hin & Hbad). exfalso. by apply Hbad, Hres.
    + intros _ Hclash. destruct (Hspec attr eq_refl) as [Hattr _].
      rewrite bool_decide_true; [done|].
      destruct Hclash as [Hin|Hin]; apply Hattr in Hin as (v & _ & Hv); eauto.
  - destruct Hres as [-> (prop & Hin & Hbad)]. split; [done|].
    intros Hok. exfalso. by apply Hbad, Hok.
Qed.

Lemma build_base_network_node_props_witness :
  build_base_network DupIgnore
    {| documents := [plain_doc "A" []]; data := [("title", [VStr "t"])] |}
    false no_kwargs
  = Raise TypeError.
Proof.
  apply (build_base_network_node_props DupIgnore
           {| documents := [plain_doc "A" []]; data := [("title", [VStr "t"])] |}
           false no_kwargs (plain_doc "A" []) [] eq_refl).
  - intros prop [->|Hin]%elem_of_cons; [exact I|by apply elem_of_nil in Hin].
  - left. by left.
Defined.

(** An unknown column in [node_props]. *)
Example build_base_network_unknown_column :
  build_base_network DupIgnore worked_docs false
    {| colors := None; cmap := None; node_props := Some ["year"] |}
  = Raise LookupError.
Proof. by vm_compute. Qed.

(** ** Categorical colours *)

Lemma str_lt_trans s t u : str_lt s t → str_lt t u → str_lt s u.
Proof.
  unfold str_lt, String.ltb. intros Hst Htu.
  destruct (String.compare s t) eqn:E1; try done.
  destruct (String.compare t u) eqn:E2; try done.
  apply OrderedTypeEx.String_as_OT.cmp_lt in E1, E2.
  pose proof (OrderedTypeEx.String_as_OT.lt_trans _ _ _ E1 E2) as H.
  apply OrderedTypeEx.String_as_OT.cmp_lt in H.
  unfold OrderedTypeEx.String_as_OT.cmp in H. by rewrite H.
Qed.

Lemma str_lt_irrefl s : ¬ str_lt s s.
Proof.
  unfold str_lt, String.ltb.
  pose proof (proj2 (OrderedTypeEx.String_as_OT.cmp_eq s s) eq_refl) as H.
  unfold OrderedTypeEx.String_as_OT.cmp in H. by rewrite H.
Qed.

Lemma str_lt_total s t : String.eqb s t = false → String.ltb s t = false → str_lt t s.
Proof.
  unfold str_lt, String.ltb. intros Hne Hlt.
  rewrite (String.compare_antisym t s).
  destruct (String.compare s t) eqn:E; try done.
  apply String.compare_eq_iff in E. subst. by rewrite String.eqb_refl in Hne.
Qed.

Lemma elem_of_insert_str x s l : x ∈ insert_str s l ↔ x = s ∨ x ∈ l.
Proof.
  induction l as [|t l IH]; simpl.
  - rewrite list_elem_of_singleton. split; [by left|]. intros [?|?%elem_of_nil]; done.
  - destruct (String.eqb s t) eqn:E.
    + apply String.eqb_eq in E as ->. rewrite elem_of_cons. tauto.
    + destruct (String.ltb s t).
      * rewrite elem_of_cons. tauto.
      * rewrite !elem_of_cons, IH. tauto.
Qed.

Lemma elem_of_sorted_set x l : x ∈ sorted_set l ↔ x ∈ l.
Proof.
  unfold sorted_set. induction l as [|s l IH]; simpl; [done|].
  rewrite elem_of_insert_str, elem_of_cons, IH. done.
Qed.

Lemma insert_str_sorted s l :
  StronglySorted str_lt l → StronglySorted str_lt (insert_str s l).
Proof.
  induction 1 as [|t l Hl IH Ht]; simpl.
  - repeat constructor.
  - destruct (String.eqb s t) eqn:E; [by constructor|].
    destruct (String.ltb s t) eqn:E'.
    + constructor; [by constructor|]. constructor; [done|].
      rewrite Forall_forall in Ht |- *. intros u Hu.
      eapply str_lt_trans; [exact E'|by apply Ht].
    + constructor; [done|]. rewrite Forall_forall in Ht |- *.
      intros u [->|Hu]%elem_of_insert_str; [by apply str_lt_total|by apply Ht].
Qed.

Lemma sorted_set_sorted l : StronglySorted str_lt (sorted_set l).
Proof.
  unfold sorted_set. induction l as [|s l IH]; simpl; [constructor|].
  by apply insert_str_sorted.
Qed.

Lemma index_of_lookup s l k : index_of s l = Some k → l !! k = Some s.
Proof.
  revert k. induction l as [|t l IH]; intros k; simpl; [done|].
  destruct (String.eqb s t) eqn:E.
  - apply String.eqb_eq in E as ->. by intros [= <-].
  - destruct (index_of s l) as [k'|]; simpl; [|done].
    intros [= <-]. by apply IH.
Qed.

Lemma index_of_elem s l : s ∈ l → is_Some (index_of s l).
Proof.
  induction l as [|t l IH]; simpl; [by intros ?%elem_of_nil|].
  destruct (String.eqb s t) eqn:E; [eauto|].
  intros [->|Hin]%elem_of_cons; [by rewrite String.eqb_refl in E|].
  destruct (IH Hin) as [k ->]. simpl. eauto.
Qed.

Lemma mapM_result_Forall2 {A B} (f : A → result B) (l : list A) (k : list B) :
  Forall2 (fun x y => f x = Ok y) l k → mapM f l = Ok k.
Proof.
  induction 1 as [|x y l k Hxy _ IH]; simpl; [done|].
  rewrite Hxy. simpl. rewrite IH. done.
Qed.

Lemma mapM_as_str_fmap names : mapM as_str (VStr <$> names) = Some names.
Proof. apply mapM_Some_2. induction names; by constructor. Qed.

Lemma mapM_as_float_fmap names :
  names ≠ [] → mapM as_float (VStr <$> names) = None.
Proof. by destruct names. Qed.

Lemma set_colors_ok i cs g :
  (∀ k, i ≤ k < i + length cs → is_Some (od_get k (nodes g))) →
  is_ok (set_colors i cs g).
Proof.
  revert i g. induction cs as [|c cs IH]; intros i g Hg; simpl; [done|].
  unfold set_node_attr. destruct (Hg i) as [a Ha]; [simpl; lia|].
  rewrite Ha. simpl. apply IH. intros k Hk. simpl.
  rewrite od_get_upsert. case_decide; [eauto|]. apply Hg. simpl. lia.
Qed.

(** For a non-empty document set whose nodes can be built and a colour
    sequence of strings, one per document: the distinct values, in
    strictly ascending order, index a discrete palette with one colour per
    distinct value.  When seaborn has a palette for [cmap] (the default
    or a name it accepts), [build_base_network] returns and the node of
    every document gets the colour at the rank of its value; when seaborn
    rejects the name, the call raises [ValueError]. *)
Theorem build_base_network_categorical_colors pol docs d kw names st :
  colors kw = Some (ColSeq (VStr <$> names)) →
  documents docs ≠ [] →
  length names = length (documents docs) →
  base_nodes pol docs (default (od_keys (data docs)) (node_props kw)) 0
    (documents docs) (empty_graph d, ∅) = Ok st →
  let groups := sorted_set names in
  StronglySorted str_lt groups
  ∧ (∀ s, s ∈ groups ↔ s ∈ names)
  ∧ (is_ok (color_palette_n_colors (cmap kw)) →
     ∃ g, build_base_network pol docs d kw = Ok (g, st.2)
          ∧ ∀ i name, names !! i = Some name →
              ∃ k a, groups !! k = Some name
                     ∧ od_get i (nodes g) = Some a
                     ∧ a !! "color"
                       = Some (AColor (DiscreteColor (cmap kw) (length groups) k)))
  ∧ (¬ is_ok (color_palette_n_colors (cmap kw)) →
     build_base_network pol docs d kw = Raise ValueError).
Proof.
  intros Hc Hdocs Hlen Hbase groups.
  split; [apply sorted_set_sorted|].
  split; [intros s; apply elem_of_sorted_set|].
  assert (Hfloat : mapM as_float (VStr <$> names) = None).
  { apply mapM_as_float_fmap. intros ->. simpl in Hlen. by destruct (documents docs). }
  split; [intros Hpal|intros Hpal].
  2: { unfold build_base_network. rewrite Hbase, Hc. cbn [mbind result_bind].
       destruct st as [g0 m0].
       destruct (documents docs) as [|doc ds] eqn:Edocs; [done|].
       cbn [mbind result_bind]. rewrite length_fmap, decide_True by done.
       unfold compute_colors. rewrite Hfloat.
       unfold categorical_colors. rewrite mapM_as_str_fmap.
       by destruct (cmap kw) as [[?|?|?]|]; [exfalso; apply Hpal..| |exfalso; apply Hpal]. }
  set (col := fun name =>
         DiscreteColor (cmap kw) (length groups) (default 0 (index_of name groups))).
  assert (Hcols : compute_colors (cmap kw) (VStr <$> names) = Ok (col <$> names)).
  { unfold compute_colors. rewrite Hfloat.
    unfold categorical_colors. rewrite mapM_as_str_fmap.
    assert (color_palette_n_colors (cmap kw) = Ok ListPalette) as ->
      by (by destruct (cmap kw) as [[?|?|?]|]).
    cbn [mbind result_bind].
    apply mapM_result_Forall2, Forall2_fmap_r, Forall_Forall2_diag.
    apply Forall_forall. intros name Hin. fold groups.
    destruct (index_of_elem name groups) as [k Hk]; [by apply elem_of_sorted_set|].
    unfold compose, col. by rewrite Hk. }
  destruct st as [g0 m0].
  destruct (base_nodes_nodes _ _ _ _ _ _ _ Hbase) as (Hkeys & _ & Hnode);
    [by intros k ?%elem_of_nil|].
  cbn [fst] in Hkeys, Hnode. simpl in Hkeys.
  assert (Hset : is_ok (set_colors 0 (col <$> names) g0)).
  { apply set_colors_ok. intros k Hk. rewrite length_fmap, Hlen in Hk.
    apply od_get_is_Some. rewrite Hkeys. apply elem_of_seq. lia. }
  destruct (set_colors 0 (col <$> names) g0) as [g|e] eqn:Eset; [|done].
  exists g. split.
  - unfold build_base_network. rewrite Hbase, Hc. cbn [mbind result_bind].
    destruct (documents docs) as [|doc ds] eqn:Edocs; [done|].
    cbn [mbind result_bind]. rewrite length_fmap, decide_True by done.
    rewrite Hcols. cbn [mbind result_bind]. rewrite Eset. done.
  - intros i name Hi.
    destruct (index_of_elem name groups) as [k Hk].
    { apply elem_of_sorted_set, list_elem_of_lookup. eauto. }
    assert (is_Some (documents docs !! i)) as [doc Hdoc].
    { apply lookup_lt_is_Some. rewrite <- Hlen. by eapply lookup_lt_Some. }
    destruct (Hnode i doc Hdoc) as (attr & _ & _ & _ & Hget). simpl in Hget.
    apply set_colors_nodes in Eset as [_ Hcol].
    eexists k, _. split; [by apply index_of_lookup|].
    split; [by apply Hcol|].
    rewrite Nat.sub_0_r, list_lookup_fmap, Hi. simpl.
    rewrite lookup_insert_eq. unfold col. by rewrite Hk.
Qed.

Lemma build_base_network_categorical_colors_witness :
  ∃ g, build_base_network DupIgnore worked_docs false
         (color_kwargs (VStr <$> ["b"; "a"; "b"]))
       = Ok (g, worked_mapping)
       ∧ ∀ i name, ["b"; "a"; "b"] !! i = Some name →
           ∃ k a, sorted_set ["b"; "a"; "b"] !! k = Some name
                  ∧ od_get i (nodes g) = Some a
                  ∧ a !! "color"
                    = Some (AColor (DiscreteColor None
                                      (length (sorted_set ["b"; "a"; "b"])) k)).
Proof.
  apply (build_base_network_categorical_colors DupIgnore worked_docs false
           (color_kwargs (VStr <$> ["b"; "a"; "b"])) ["b"; "a"; "b"]
           (worked_base false, worked_mapping)).
  - reflexivity.
  - discriminate.
  - reflexivity.
  - by vm_compute.
  - exact I.
Defined.

(** "b", "a", "b" become the colours 1, 0, 1 of a palette of two; a
    palette name that seaborn rejects raises. *)
Example build_base_network_categorical_example :
  (r ← build_base_network DupIgnore worked_docs false
         (color_kwargs (VStr <$> ["b"; "a"; "b"]));
   Ok ((fun n => n.2 !! "color") <$> nodes r.1))
  = Ok [Some (AColor (DiscreteColor None 2 1));
        Some (AColor (DiscreteColor None 2 0));
        Some (AColor (DiscreteColor None 2 1))]
  ∧ build_base_network DupIgnore worked_docs false
      {| colors := Some (ColSeq (VStr <$> ["b"; "a"; "b"]));
         cmap := Some (NoPalette "no_such_palette");
         node_props := None |}
    = Raise ValueError.
Proof. split; by vm_compute. Qed.

(** A colour sequence that mixes floats and strings cannot be sorted. *)
Theorem build_base_network_mixed_colors pol docs d kw values x s :
  colors kw = Some (ColSeq values) →
  documents docs ≠ [] →
  length values = length (documents docs) →
  is_ok (base_nodes pol docs (default (od_keys (data docs)) (node_props kw)) 0
           (documents docs) (empty_graph d, ∅)) →
  VFloat x ∈ values → VStr s ∈ values →
  build_base_network pol docs d kw = Raise TypeError.
Proof.
  intros Hc Hdocs Hlen Hbase Hx Hs. unfold build_base_network. rewrite Hc.
  destruct (base_nodes _ _ _ _ _ _) as [[g0 m0]|e]; [|done].
  cbn [mbind result_bind].
  destruct (documents docs) as [|doc ds] eqn:Edocs; [done|].
  cbn [mbind result_bind]. rewrite decide_True by done.
  unfold compute_colors.
  rewrite (mapM_None_2 as_float values).
  2: { apply Exists_exists. by exists (VStr s). }
  unfold categorical_colors. rewrite (mapM_None_2 as_str values).
  2: { apply Exists_exists. by exists (VFloat x). }
  done.
Qed.

Lemma build_base_network_mixed_colors_witness :
  build_base_network DupIgnore worked_docs false
    (color_kwargs [VFloat 0.5%float; VStr "a"; VStr "b"])
  = Raise TypeError.
Proof.
  apply (build_base_network_mixed_colors DupIgnore worked_docs false _
           [VFloat 0.5%float; VStr "a"; VStr "b"] 0.5%float "a").
  - reflexivity.
  - discriminate.
  - reflexivity.
  - by vm_compute.
  - by left.
  - right. by left.
Defined.

(** ** Nodes and edge tables of the built graphs *)

Lemma build_base_network_keys pol docs d kw g mapping :
  build_base_network pol docs d kw = Ok (g, mapping) →
  od_keys (nodes g) = seq 0 (length (documents docs)).
Proof.
  unfold build_base_network. intros H.
  apply bind_Ok in H as ([g0 m0] & H0 & H).
  apply base_nodes_nodes in H0 as (Hkeys & _ & _); [|by intros k ?%elem_of_nil].
  cbn [fst] in Hkeys. simpl in Hkeys.
  destruct (colors kw) as [c|]; [destruct (documents docs) as [|doc0 ds] eqn:Edocs|];
    try (by injection H as <- <-).
  apply bind_Ok in H as (cs & _ & H). case_decide; [|done].
  apply bind_Ok in H as (cols & _ & H).
  apply bind_Ok in H as (g1 & H1 & [= <- <-]).
  apply set_colors_nodes in H1 as [-> _]. done.
Qed.

Lemma build_base_network_is_node pol docs d kw g mapping i :
  build_base_network pol docs d kw = Ok (g, mapping) →
  i < length (documents docs) → is_Some (od_get i (nodes g)).
Proof.
  intros H Hi. apply od_get_is_Some.
  rewrite (build_base_network_keys _ _ _ _ _ _ H). apply elem_of_seq. lia.
Qed.

Lemma citation_refs_nodes mapping i refs g :
  is_Some (od_get i (nodes g)) →
  (∀ ref j, mapping_get mapping ref = Some j → is_Some (od_get j (nodes g))) →
  nodes (citation_refs mapping i refs g) = nodes g.
Proof.
  revert g. induction refs as [|ref refs IH]; intros g Hi Hm; [done|].
  rewrite citation_refs_cons.
  destruct (mapping_get mapping ref) as [j|] eqn:E; [|by apply IH].
  assert (Hn : nodes (add_edge i j ∅ g) = nodes g) by (apply add_edge_nodes; eauto).
  rewrite IH; rewrite Hn; done.
Qed.

Lemma citation_docs_nodes mapping i ds g :
  (∀ k, i ≤ k < i + length ds → is_Some (od_get k (nodes g))) →
  (∀ ref j, mapping_get mapping ref = Some j → is_Some (od_get j (nodes g))) →
  nodes (citation_docs mapping i ds g) = nodes g.
Proof.
  revert i g. induction ds as [|doc ds IH]; intros i g Hi Hm; simpl; [done|].
  assert (Hn : nodes (citation_refs mapping i (references_or_nil doc) g) = nodes g).
  { apply citation_refs_nodes; [|done]. apply Hi. simpl. lia. }
  rewrite IH; rewrite Hn; [done| |done].
  intros k Hk. apply Hi. simpl. lia.
Qed.

(** The citation graph has the nodes of the base graph and no others:
    a reference never creates a node, whether it resolves or not. *)
Theorem build_citation_network_nodes pol docs kw g0 mapping :
  build_base_network pol docs true kw = Ok (g0, mapping) →
  ∃ g, build_citation_network pol docs kw = Ok g
       ∧ nodes g = nodes g0
       ∧ od_keys (nodes g) = seq 0 (length (documents docs)).
Proof.
  intros H. unfold build_citation_network. rewrite H. simpl.
  eexists. split; [done|].
  assert (Hn : nodes (citation_docs mapping 0 (documents docs) g0) = nodes g0).
  { apply citation_docs_nodes.
    - intros k Hk. eapply build_base_network_is_node; [exact H|lia].
    - intros ref j Hj.
      apply (build_base_network_mapping _ _ _ _ _ _ H) in Hj as (doc & Hdoc & _).
      eapply build_base_network_is_node; [exact H|]. by eapply lookup_lt_Some. }
  split; [done|]. rewrite Hn. by eapply build_base_network_keys.
Qed.

Lemma build_citation_network_nodes_witness :
  ∃ g, build_citation_network DupIgnore worked_docs no_kwargs = Ok g
       ∧ nodes g = nodes (worked_base true)
       ∧ od_keys (nodes g) = seq 0 (length (documents worked_docs)).
Proof.
  apply (build_citation_network_nodes DupIgnore worked_docs no_kwargs
           (worked_base true) worked_mapping).
  by vm_compute.
Defined.

Lemma od_get_snoc {K V} `{EqDecision K} (k k' : K) (v : V) (d : list (K * V)) :
  od_get k (d ++ [(k', v)])
  = match od_get k d with
    | Some x => Some x
    | None => if decide (k = k') then Some v else None
    end.
Proof.
  induction d as [|[k0 v0] d IH]; simpl; [done|].
  destruct (decide (k = k0)); [done|apply IH].
Qed.

Lemma add_weighted_edges_cons keys e es g :
  add_weighted_edges keys (e :: es) g
  = add_weighted_edges keys es (add_edge e.1.1 e.1.2 (weight_attrs keys e.2) g).
Proof. reflexivity. Qed.

(** Weighted edges whose keys are new and pairwise distinct are appended
    to the edge table in order. *)
Lemma add_weighted_edges_edges keys es g :
  NoDup ((fun e : nat * nat * nat => edge_key (directed g) e.1.1 e.1.2) <$> es) →
  (∀ e, e ∈ es → od_get (edge_key (directed g) e.1.1 e.1.2) (edges g) = None) →
  edges (add_weighted_edges keys es g)
  = edges g
    ++ ((fun e : nat * nat * nat =>
           (edge_key (directed g) e.1.1 e.1.2, weight_attrs keys e.2)) <$> es).
Proof.
  revert g. induction es as [|e es IH]; intros g Hnd Hnew.
  - by rewrite app_nil_r.
  - rewrite add_weighted_edges_cons. rewrite fmap_cons in Hnd.
    apply NoDup_cons in Hnd as [Hnotin Hnd].
    set (g1 := add_edge e.1.1 e.1.2 (weight_attrs keys e.2) g).
    assert (Hd1 : directed g1 = directed g) by done.
    assert (He1 : edges g1 = edges g
                  ++ [(edge_key (directed g) e.1.1 e.1.2, weight_attrs keys e.2)]).
    { unfold g1, add_edge. simpl. rewrite od_upsert_absent by (apply Hnew; by left).
      unfold update_attrs. simpl. by rewrite (right_id_L ∅ (∪)). }
    rewrite IH; rewrite Hd1.
    + rewrite He1, <- app_assoc. done.
    + done.
    + intros e' He'. rewrite He1, od_get_snoc.
      rewrite Hnew by (by right). rewrite decide_False; [done|].
      intros Heq. apply Hnotin. rewrite <- Heq.
      apply list_elem_of_fmap. by exists e'.
Qed.

Lemma od_get_fmap_values {K V W} `{EqDecision K} (f : V → W) (k : K) (d : list (K * V)) :
  od_get k ((fun e : K * V => (e.1, f e.2)) <$> d) = f <$> od_get k d.
Proof.
  induction d as [|[k' v] d IH]; [done|].
  rewrite fmap_cons. cbn [od_get fst snd]. by case_decide.
Qed.

Lemma prune_edges_sublist {K} (es : list (K * nat)) (max_edges : Z) :
  ∃ n sorted, sorted ≡ₚ es ∧ prune_edges es max_edges = take n sorted.
Proof.
  unfold prune_edges. destruct (max_edges <? _)%Z.
  - destruct (slice_to_take (sort_desc snd es) max_edges) as [n ->].
    exists n, (sort_desc snd es). split; [apply sort_desc_perm|done].
  - exists (length es), es. by rewrite firstn_all.
Qed.

Lemma prune_edges_NoDup {K} (es : list (K * nat)) (max_edges : Z) :
  NoDup es.*1 → NoDup (prune_edges es max_edges).*1.
Proof.
  intros Hnd. destruct (prune_edges_sublist es max_edges) as (n & sorted & Hp & ->).
  rewrite fmap_take. apply (sublist_NoDup _ sorted.*1); [|apply sublist_take].
  by rewrite Hp.
Qed.

Lemma prune_edges_length_le {K} (es : list (K * nat)) (max_edges : Z) :
  (0 ≤ max_edges)%Z → (Z.of_nat (length (prune_edges es max_edges)) ≤ max_edges)%Z.
Proof.
  intros Hm. unfold prune_edges. destruct (max_edges <? _)%Z eqn:E.
  - by apply slice_to_length.
  - by apply Z.ltb_ge in E.
Qed.

Lemma cocitation_strength_NoDup mapping ds :
  NoDup (od_keys (cocitation_strength mapping ds)).
Proof.
  unfold cocitation_strength.
  assert (Hrow : ∀ i refs (s : list (nat * nat * nat)),
            NoDup (od_keys s) → NoDup (od_keys (cocitation_row i refs s))).
  { intros i refs. induction refs as [|j refs IH]; intros s Hs; [done|].
    rewrite cocitation_row_cons. apply IH.
    destruct (i <? j); [by apply od_upsert_NoDup|done]. }
  assert (Hrows : ∀ rows refs (s : list (nat * nat * nat)),
            NoDup (od_keys s) →
            NoDup (od_keys (fold_left (fun s i => cocitation_row i refs s) rows s))).
  { intros rows refs. induction rows as [|i rows IH]; intros s Hs; [done|].
    simpl. by apply IH, Hrow. }
  assert (Hgen : ∀ s : list (nat * nat * nat), NoDup (od_keys s) →
    NoDup (od_keys (fold_left (fun s doc =>
              cocitation_pairs (resolve_refs mapping (references_or_nil doc)) s) ds s))).
  { induction ds as [|doc ds IH]; intros s Hs; [done|].
    simpl. by apply IH, Hrows. }
  apply Hgen. constructor.
Qed.

(** Both end points of a strength entry are resolved references. *)
Lemma cocitation_strength_range mapping ds e :
  e ∈ cocitation_strength mapping ds →
  (∃ ref, mapping_get mapping ref = Some e.1.1)
  ∧ (∃ ref, mapping_get mapping ref = Some e.1.2).
Proof.
  unfold cocitation_strength.
  set (P := fun e : nat * nat * nat =>
              (∃ ref, mapping_get mapping ref = Some e.1.1)
              ∧ (∃ ref, mapping_get mapping ref = Some e.1.2)).
  assert (Hrow : ∀ i refs s,
            (∃ ref, mapping_get mapping ref = Some i) →
            (∀ j, j ∈ refs → ∃ ref, mapping_get mapping ref = Some j) →
            (∀ e, e ∈ s → P e) →
            ∀ e, e ∈ cocitation_row i refs s → P e).
  { intros i refs. induction refs as [|j refs IH]; intros s Hi Hrefs Hs; [done|].
    rewrite cocitation_row_cons. apply IH; [done| |].
    - intros j' Hj'. apply Hrefs. by right.
    - destruct (i <? j); [|done].
      intros e' [Heq|?]%od_upsert_elem; [|by apply Hs].
      unfold P. rewrite Heq. simpl. split; [done|]. apply Hrefs. by left. }
  assert (Hrows : ∀ rows refs s,
            (∀ j, j ∈ rows → ∃ ref, mapping_get mapping ref = Some j) →
            (∀ j, j ∈ refs → ∃ ref, mapping_get mapping ref = Some j) →
            (∀ e, e ∈ s → P e) →
            ∀ e, e ∈ fold_left (fun s i => cocitation_row i refs s) rows s → P e).
  { intros rows refs. induction rows as [|i rows IH]; intros s Hrows Hrefs Hs; [done|].
    simpl. apply IH; [|done|].
    - intros j Hj. apply Hrows. by right.
    - apply (Hrow i refs); [|done..]. apply Hrows. by left. }
  assert (Hres : ∀ refs j, j ∈ resolve_refs mapping refs →
                           ∃ ref, mapping_get mapping ref = Some j).
  { intros refs j (ref & _ & Href)%list_elem_of_omap. eauto. }
  assert (Hgen : ∀ s, (∀ e, e ∈ s → P e) →
    ∀ e, e ∈ fold_left (fun s doc =>
                 cocitation_pairs (resolve_refs mapping (references_or_nil doc)) s) ds s →
         P e).
  { induction ds as [|doc ds IH]; intros s Hs; [done|].
    simpl. apply IH. apply Hrows; eauto. }
  apply Hgen. intros e' He'. by apply elem_of_nil in He'.
Qed.

Lemma build_cocitation_network_edge_table pol docs max_edges kw g0 mapping :
  build_base_network pol docs false kw = Ok (g0, mapping) →
  ∃ g, build_cocitation_network pol docs max_edges kw = Ok g
       ∧ directed g = false
       ∧ nodes g = nodes g0
       ∧ edges g = (fun e : nat * nat * nat => (e.1, {["weight" := ANat e.2]}))
                   <$> prune_edges (cocitation_strength mapping (documents docs))
                                   (cocitation_max_edges max_edges docs).
Proof.
  intros H. unfold build_cocitation_network. rewrite H. cbn [mbind result_bind].
  set (kept := prune_edges (cocitation_strength mapping (documents docs))
                           (cocitation_max_edges max_edges docs)).
  eexists. split; [done|].
  destruct (build_base_network_graph _ _ _ _ _ _ H) as [Hd He].
  assert (Hin : ∀ e, e ∈ kept → e ∈ cocitation_strength mapping (documents docs))
    by (intros e; apply prune_edges_subseteq).
  assert (Hkey : ∀ e, e ∈ kept → edge_key (directed g0) e.1.1 e.1.2 = e.1).
  { intros [[a b] w] He'. rewrite Hd. simpl.
    apply Hin, cocitation_strength_increasing in He'. simpl in He'.
    f_equal; lia. }
  split_and!.
  - by rewrite add_weighted_edges_directed.
  - apply add_weighted_edges_nodes. intros e He'.
    apply Hin, cocitation_strength_range in He' as [[r1 H1] [r2 H2]].
    apply (build_base_network_mapping _ _ _ _ _ _ H) in H1 as (d1 & Hd1 & _).
    apply (build_base_network_mapping _ _ _ _ _ _ H) in H2 as (d2 & Hd2 & _).
    split; (eapply build_base_network_is_node; [exact H|]); by eapply lookup_lt_Some.
  - rewrite add_weighted_edges_edges.
    + rewrite He. simpl. apply list_fmap_ext. intros i e Hi.
      rewrite Hkey by (apply list_elem_of_lookup; eauto). done.
    + rewrite (list_fmap_ext _ fst kept)
        by (intros i e Hi; apply Hkey, list_elem_of_lookup; eauto).
      apply prune_edges_NoDup, cocitation_strength_NoDup.
    + intros e _. by rewrite He.
Qed.

(** The graph returned by [build_cocitation_network] has the nodes of the
    base graph.  Its edges are the kept strength entries: the edge between
    [a] and [b] carries the kept strength of the pair as "weight" and
    nothing else, and there is no edge where no strength is kept; the
    graph has as many edges as entries are kept, so a bound that is not
    negative (the default is twice the number of documents) bounds the
    number of edges. *)
Theorem build_cocitation_network_graph pol docs max_edges kw g0 mapping :
  build_base_network pol docs false kw = Ok (g0, mapping) →
  let kept := prune_edges (cocitation_strength mapping (documents docs))
                          (cocitation_max_edges max_edges docs) in
  ∃ g, build_cocitation_network pol docs max_edges kw = Ok g
       ∧ nodes g = nodes g0
       ∧ (∀ a b, edge_attrs g a b
                 = (fun w => {["weight" := ANat w]})
                   <$> od_get (a `min` b, a `max` b) kept)
       ∧ length (edges g) = length kept
       ∧ ((0 ≤ cocitation_max_edges max_edges docs)%Z →
          (Z.of_nat (length (edges g)) ≤ cocitation_max_edges max_edges docs)%Z).
Proof.
  intros H kept.
  destruct (build_cocitation_network_edge_table _ _ max_edges _ _ _ H)
    as (g & Hg & Hd & Hn & He).
  fold kept in He. exists g. split_and!; [done..| | |].
  - intros a b. unfold edge_attrs. rewrite Hd, He. simpl.
    apply (od_get_fmap_values (fun w => {["weight" := ANat w]})).
  - by rewrite He, length_fmap.
  - intros Hb. rewrite He, length_fmap. by apply prune_edges_length_le.
Qed.

Lemma build_cocitation_network_graph_witness :
  ∃ g, build_cocitation_network DupIgnore worked_docs None no_kwargs = Ok g
       ∧ nodes g = nodes (worked_base false)
       ∧ edge_attrs g 2 1 = Some {["weight" := ANat 1]}
       ∧ length (edges g) = 1.
Proof.
  destruct (build_cocitation_network_graph DupIgnore worked_docs None no_kwargs
              (worked_base false) worked_mapping) as (g & Hg & Hn & He & Hl & _).
  { by vm_compute. }
  exists g. split; [done|]. split; [done|]. rewrite He, Hl. split; by vm_compute.
Defined.

(** ** The bibliographic coupling graph *)

Lemma fold_left_invariant {A B} (P : A → Prop) (f : A → B → A) (l : list B) (a : A) :
  P a → (∀ a b, P a → P (f a b)) → P (fold_left f l a).
Proof.
  intros Ha Hf. revert a Ha. induction l as [|b l IH]; intros a Ha; [done|].
  simpl. by apply IH, Hf.
Qed.

Lemma enumerate_snoc {A} (l : list A) (x : A) :
  enumerate (l ++ [x]) = enumerate l ++ [(length l, x)].
Proof. unfold enumerate. rewrite imap_app. simpl. by rewrite Nat.add_0_r. Qed.

(** A reference that is not mapped yet can always be added. *)
Lemma coupling_refs_ok pol refs st : is_ok (coupling_refs pol refs st).
Proof.
  revert st. induction refs as [|ref refs IH]; intros [[m n] rs]; [done|].
  cbn [coupling_refs]. unfold coupling_ref, mapping_get, mapping_add.
  destruct (m !! ref); cbn [mbind result_bind]; apply IH.
Qed.

Lemma coupling_doc_refs_ok pol ds mapping n acc :
  ∃ doc_refs, coupling_doc_refs pol ds mapping n acc = Ok doc_refs
              ∧ length doc_refs = length acc + length ds.
Proof.
  revert mapping n acc. induction ds as [|doc ds IH]; intros m n acc.
  - exists acc. simpl. split; [done|lia].
  - cbn [coupling_doc_refs].
    pose proof (coupling_refs_ok pol (references_or_nil doc) (m, n, [])) as Hok.
    destruct (coupling_refs _ _ _) as [[[m' n'] rs]|e]; [|done].
    cbn [mbind result_bind].
    destruct (IH m' n' (acc ++ [list_to_set rs])) as (dr & Hdr & Hlen).
    exists dr. split; [done|]. rewrite Hlen, length_app. simpl. lia.
Qed.

(** The inner loop [for j, b in enumerate(doc_refs[:i])] for one [(i, a)]. *)
Lemma coupling_row_get (i : nat) (a : gset nat) (l : list (gset nat))
    (s : list (nat * nat * nat)) (k : nat * nat) :
  od_get k (fold_left (fun s (jb : nat * gset nat) =>
              let common := a ∩ jb.2 in
              if decide (common = ∅) then s
              else od_upsert (i, jb.1) (fun _ => size common) s)
            (enumerate l) s)
  = match l !! k.2 with
    | Some b => if decide (k.1 = i ∧ a ∩ b ≠ ∅) then Some (size (a ∩ b))
                else od_get k s
    | None => od_get k s
    end.
Proof.
  induction l as [|b l IH] using rev_ind; [done|].
  rewrite enumerate_snoc, fold_left_app. cbn [fold_left fst snd].
  destruct k as [k1 k2]. cbn [fst snd] in *.
  destruct (decide (a ∩ b = ∅)) as [He|Hne].
  - rewrite IH. destruct (decide (k2 < length l)) as [Hlt|Hge].
    + by rewrite lookup_app_l.
    + rewrite (lookup_ge_None_2 l k2) by lia.
      destruct (decide (k2 = length l)) as [->|Hk].
      * rewrite list_lookup_middle by done.
        rewrite decide_False; [done|]. by intros [_ ?].
      * rewrite lookup_ge_None_2; [done|]. rewrite length_app. simpl. lia.
  - rewrite od_get_upsert, IH.
    destruct (decide (k2 < length l)) as [Hlt|Hge].
    + rewrite lookup_app_l by done. rewrite decide_False; [done|].
      intros [= ? ?]. lia.
    + rewrite (lookup_ge_None_2 l k2) by lia.
      destruct (decide (k2 = length l)) as [->|Hk].
      * rewrite list_lookup_middle by done.
        destruct (decide (k1 = i)) as [->|Hk1].
        -- rewrite decide_True by done. by rewrite decide_True.
        -- rewrite decide_False by congruence.
           rewrite decide_False; [done|]. by intros [? _].
      * rewrite (lookup_ge_None_2 (l ++ [b])) by (rewrite length_app; simpl; lia).
        rewrite decide_False; [done|]. intros [= ? ?]. done.
Qed.

Lemma coupling_strength_get_prefix (doc_refs pre suf : list (gset nat)) i j :
  doc_refs = pre ++ suf →
  od_get (i, j)
    (fold_left (fun s (ia : nat * gset nat) =>
       fold_left (fun s (jb : nat * gset nat) =>
          let common := ia.2 ∩ jb.2 in
          if decide (common = ∅) then s
          else od_upsert (ia.1, jb.1) (fun _ => size common) s)
         (enumerate (take ia.1 doc_refs)) s)
      (enumerate pre) [])
  = coupling_entry pre i j.
Proof.
  revert suf. induction pre as [|a pre IH] using rev_ind; intros suf Hdr.
  - unfold coupling_entry. by destruct i.
  - rewrite enumerate_snoc, fold_left_app. cbn [fold_left fst snd].
    assert (take (length pre) doc_refs = pre) as ->.
    { rewrite Hdr, <- app_assoc. by rewrite take_app_length. }
    rewrite (coupling_row_get (length pre) a pre _ (i, j)). cbn [fst snd].
    assert (Hpre := IH ([a] ++ suf)). cbv zeta in Hpre.
    rewrite Hpre by (by rewrite Hdr, <- app_assoc).
    unfold coupling_entry.
    assert (Hl : ∀ k, k < length pre → (pre ++ [a]) !! k = pre !! k)
      by (intros; by apply lookup_app_l).
    assert (Hm : (pre ++ [a]) !! length pre = Some a)
      by (by apply list_lookup_middle).
    assert (Hr : ∀ k, length pre < k → (pre ++ [a]) !! k = None)
      by (intros; apply lookup_ge_None_2; rewrite length_app; simpl; lia).
    assert (Hn : ∀ k, length pre ≤ k → pre !! k = None)
      by (intros; by apply lookup_ge_None_2).
    destruct (lt_eq_lt_dec i (length pre)) as [[Hi|Hi]|Hi];
      destruct (lt_eq_lt_dec j (length pre)) as [[Hj|Hj]|Hj]; subst;
      rewrite ?Hm, ?Hl, ?Hr, ?Hn by lia;
      repeat match goal with
             | |- context [pre !! ?k] => destruct (pre !! k) eqn:?
             end;
      repeat case_decide; try done; exfalso;
      repeat match goal with H : _ ∧ _ |- _ => destruct H end;
      first [ lia
            | match goal with
              | H : pre !! ?k = Some _ |- _ => rewrite Hn in H by lia; discriminate
              end
            | match goal with H : ¬ (_ ∧ _) |- _ => apply H; split; [lia|done] end ].
Qed.

(** The strength table holds, under the key [(i, j)], the number of common
    elements of the reference sets at the positions [j < i], and holds
    nothing under any other key. *)
Lemma coupling_strength_get doc_refs i j :
  od_get (i, j) (coupling_strength doc_refs) = coupling_entry doc_refs i j.
Proof.
  unfold coupling_strength.
  apply (coupling_strength_get_prefix doc_refs doc_refs []). by rewrite app_nil_r.
Qed.

Lemma coupling_strength_NoDup doc_refs :
  NoDup (od_keys (coupling_strength doc_refs)).
Proof.
  unfold coupling_strength.
  apply (fold_left_invariant (fun s => NoDup (od_keys s))); [constructor|].
  intros s ia Hs.
  apply (fold_left_invariant (fun s => NoDup (od_keys s))); [done|].
  intros s' jb Hs'. simpl. case_decide; [done|by apply od_upsert_NoDup].
Qed.

Lemma coupling_strength_elem doc_refs e :
  e ∈ coupling_strength doc_refs → e.1.2 < e.1.1 < length doc_refs.
Proof.
  intros He. assert (Hs : is_Some (od_get e.1 (coupling_strength doc_refs))).
  { apply od_get_is_Some_elem. eauto. }
  destruct e as [[i j] w]. simpl in *. rewrite coupling_strength_get in Hs.
  unfold coupling_entry in Hs.
  destruct (doc_refs !! i) eqn:Ei; [|by destruct Hs].
  destruct (doc_refs !! j) eqn:Ej; [|by destruct Hs].
  case_decide as Hd; [|by destruct Hs].
  apply lookup_lt_Some in Ei. lia.
Qed.

Lemma od_get_elem_NoDup {K V} `{EqDecision K} (k : K) (v : V) (d : list (K * V)) :
  NoDup (od_keys d) → (k, v) ∈ d → od_get k d = Some v.
Proof.
  unfold od_keys. induction d as [|[k' v'] d IH]; intros Hnd Hin.
  - by apply elem_of_nil in Hin.
  - rewrite fmap_cons in Hnd. apply NoDup_cons in Hnd as [Hnotin Hnd].
    cbn [od_get]. apply elem_of_cons in Hin as [[= -> ->]|Hin].
    + by rewrite decide_True.
    + rewrite decide_False; [by apply IH|]. intros ->. apply Hnotin.
      apply list_elem_of_fmap. by exists (k', v).
Qed.

Lemma od_get_fmap_keys {K K' V W} `{EqDecision K, EqDecision K'}
    (f : K → K') (h : V → W) (k : K) (d : list (K * V)) :
  (∀ x y, f x = f y → x = y) →
  od_get (f k) ((fun e : K * V => (f e.1, h e.2)) <$> d) = h <$> od_get k d.
Proof.
  intros Hinj. induction d as [|[k' v] d IH]; [done|].
  rewrite fmap_cons. cbn [od_get fst snd].
  destruct (decide (k = k')) as [->|Hne].
  - by rewrite decide_True.
  - rewrite decide_False; [done|]. intros Heq. by apply Hne, Hinj.
Qed.

Lemma weight_attrs_lookup w :
  weight_attrs ["weight"; "score"] w !! "weight" = Some (ANat w)
  ∧ weight_attrs ["weight"; "score"] w !! "score" = Some (ANat w).
Proof.
  unfold weight_attrs. simpl. split.
  - by rewrite lookup_insert_eq.
  - rewrite lookup_insert_ne by done. by rewrite lookup_insert_eq.
Qed.

(** The graph [build_coupling_network] returns once the base graph and the
    reference sets are there. *)
Lemma build_coupling_network_edge_table pol docs max_edges kw g0 mapping doc_refs :
  build_base_network pol docs false kw = Ok (g0, mapping) →
  coupling_doc_refs pol (documents docs) mapping (number_of_nodes g0) [] = Ok doc_refs →
  length doc_refs = length (documents docs) →
  ∃ g, build_coupling_network pol docs max_edges kw = Ok g
       ∧ directed g = false
       ∧ nodes g = nodes g0
       ∧ edges g = (fun e : nat * nat * nat =>
                      ((e.1.2, e.1.1), weight_attrs ["weight"; "score"] e.2))
                   <$> prune_edges (coupling_strength doc_refs) max_edges.
Proof.
  intros H Hdr Hlen.
  destruct (build_base_network_graph _ _ _ _ _ _ H) as [Hd He].
  eexists. unfold build_coupling_network. rewrite H. cbn [mbind result_bind].
  rewrite Hdr. cbn [mbind result_bind]. split; [done|].
  set (kept := prune_edges (coupling_strength doc_refs) max_edges).
  assert (Hin : ∀ e, e ∈ kept → e.1.2 < e.1.1 < length (documents docs)).
  { intros e He'%prune_edges_subseteq%coupling_strength_elem. lia. }
  assert (Hkey : ∀ e, e ∈ kept → edge_key (directed g0) e.1.1 e.1.2 = (e.1.2, e.1.1)).
  { intros e He'%Hin. rewrite Hd. simpl. f_equal; lia. }
  split_and!.
  - by rewrite add_weighted_edges_directed.
  - apply add_weighted_edges_nodes. intros e He'%Hin.
    split; (eapply build_base_network_is_node; [exact H|lia]).
  - rewrite add_weighted_edges_edges.
    + rewrite He. simpl. apply list_fmap_ext. intros i e Hi.
      rewrite Hkey by (apply list_elem_of_lookup; eauto). done.
    + rewrite (list_fmap_ext _ (fun e => (e.1.2, e.1.1)) kept)
        by (intros i e Hi; apply Hkey, list_elem_of_lookup; eauto).
      assert (Hnd : NoDup kept.*1)
        by apply prune_edges_NoDup, coupling_strength_NoDup.
      assert (Heq : (fun e : nat * nat * nat => (e.1.2, e.1.1)) <$> kept
                    = (fun k : nat * nat => (k.2, k.1)) <$> kept.*1)
        by (by rewrite <- list_fmap_compose).
      rewrite Heq.
      assert (Hinj : Inj (=) (=) (fun k : nat * nat => (k.2, k.1))).
      { intros [a b] [c d] [= ? ?]. by subst. }
      by apply (NoDup_fmap_2 _).
    + intros e _. by rewrite He.
Qed.

(** Once the base graph is built, [build_coupling_network] cannot fail:
    it returns a graph with the nodes of the base graph and nothing else
    (a reference outside the document set gets an index but no node).
    Its edges are the kept strength entries: the edge between [i] and [j]
    carries the kept strength of the pair (larger position, smaller
    position) under "weight" and "score", there is no edge where no
    strength is kept, and the graph has as many edges as entries are
    kept.  The strength table holds, for two positions [j < i], the number
    of common elements of the two reference sets when they have one, and
    nothing else. *)
Theorem build_coupling_network_graph pol docs max_edges kw g0 mapping :
  build_base_network pol docs false kw = Ok (g0, mapping) →
  ∃ doc_refs g,
    coupling_doc_refs pol (documents docs) mapping (number_of_nodes g0) [] = Ok doc_refs
    ∧ length doc_refs = length (documents docs)
    ∧ build_coupling_network pol docs max_edges kw = Ok g
    ∧ nodes g = nodes g0
    ∧ (∀ i j, edge_attrs g i j
              = weight_attrs ["weight"; "score"]
                <$> od_get (i `max` j, i `min` j)
                      (prune_edges (coupling_strength doc_refs) max_edges))
    ∧ length (edges g) = length (prune_edges (coupling_strength doc_refs) max_edges)
    ∧ ∀ i j, od_get (i, j) (coupling_strength doc_refs) = coupling_entry doc_refs i j.
Proof.
  intros H.
  destruct (coupling_doc_refs_ok pol (documents docs) mapping (number_of_nodes g0) [])
    as (dr & Hdr & Hlen).
  simpl in Hlen.
  destruct (build_coupling_network_edge_table _ _ max_edges _ _ _ _ H Hdr Hlen)
    as (g & Hg & Hd & Hn & He).
  exists dr, g. split_and!; [done..| | |apply coupling_strength_get].
  - intros i j. unfold edge_attrs. rewrite Hd, He. simpl.
    apply (od_get_fmap_keys (fun k : nat * nat => (k.2, k.1))
             (weight_attrs ["weight"; "score"]) (i `max` j, i `min` j)).
    intros [x1 x2] [y1 y2] [= ? ?]. by subst.
  - by rewrite He, length_fmap.
Qed.

Lemma build_coupling_network_graph_witness :
  ∃ doc_refs g,
    build_coupling_network DupIgnore worked_docs 1000 no_kwargs = Ok g
    ∧ nodes g = nodes (worked_base false)
    ∧ length (edges g) = length (prune_edges (coupling_strength doc_refs) 1000).
Proof.
  destruct (build_coupling_network_graph DupIgnore worked_docs 1000 no_kwargs
              (worked_base false) worked_mapping)
    as (dr & g & _ & _ & Hg & Hn & _ & Hl & _).
  { by vm_compute. }
  by exists dr, g.
Defined.

(** ** Coupling weights when every reference is a document of the set *)

Lemma coupling_refs_known pol (m : DocumentMapping) n refs rs :
  (∀ ref, ref ∈ refs → is_Some (m !! ref)) →
  coupling_refs pol refs (m, n, rs) = Ok (m, n, rs ++ resolve_refs m refs).
Proof.
  revert rs. induction refs as [|ref refs IH]; intros rs Hk.
  - by rewrite app_nil_r.
  - destruct (Hk ref) as [i Hi]; [by left|].
    cbn [coupling_refs]. unfold coupling_ref, mapping_get. rewrite Hi.
    cbn [mbind result_bind]. rewrite IH by (intros; apply Hk; by right).
    unfold resolve_refs, mapping_get. simpl. rewrite Hi. simpl.
    by rewrite <- app_assoc.
Qed.

Lemma coupling_doc_refs_known pol (m : DocumentMapping) n ds acc :
  (∀ doc ref, doc ∈ ds → ref ∈ references_or_nil doc → is_Some (m !! ref)) →
  coupling_doc_refs pol ds m n acc
  = Ok (acc ++ ((fun doc => list_to_set (resolve_refs m (references_or_nil doc))) <$> ds)).
Proof.
  revert acc. induction ds as [|doc ds IH]; intros acc Hk.
  - simpl. by rewrite app_nil_r.
  - cbn [coupling_doc_refs].
    rewrite coupling_refs_known by (intros; eapply Hk; [by left|done]).
    cbn [mbind result_bind]. rewrite IH by (intros; eapply Hk; [by right|done]).
    rewrite fmap_cons. simpl. by rewrite <- app_assoc.
Qed.

(** Resolving through an injective mapping keeps the number of common
    references. *)
Lemma size_resolved_intersection (m : DocumentMapping) (l1 l2 : list string) :
  (∀ ref, ref ∈ l1 ++ l2 → is_Some (m !! ref)) →
  (∀ r1 r2 a, m !! r1 = Some a → m !! r2 = Some a → r1 = r2) →
  size ((list_to_set (resolve_refs m l1) : gset nat) ∩ list_to_set (resolve_refs m l2))
  = size ((list_to_set l1 : gset string) ∩ list_to_set l2).
Proof.
  intros Hk Hinj.
  set (X := (list_to_set l1 : gset string) ∩ list_to_set l2).
  set (f := fun r => default 0 (m !! r)).
  assert (HX : ∀ r, r ∈ elements X ↔ r ∈ l1 ∧ r ∈ l2).
  { intros r. unfold X. by rewrite elem_of_elements, elem_of_intersection,
                               !elem_of_list_to_set. }
  assert (HY : (list_to_set (resolve_refs m l1) : gset nat)
               ∩ list_to_set (resolve_refs m l2)
               = list_to_set (f <$> elements X)).
  { apply set_eq. intros a. rewrite elem_of_intersection, !elem_of_list_to_set.
    unfold resolve_refs, mapping_get. rewrite !list_elem_of_omap, list_elem_of_fmap.
    split.
    - intros [(r1 & H1 & Hr1) (r2 & H2 & Hr2)].
      assert (r1 = r2) by eauto. subst r2. exists r1.
      split; [unfold f; by rewrite Hr1|]. by apply HX.
    - intros (r & -> & [H1 H2]%HX).
      destruct (Hk r) as [a Ha]; [apply elem_of_app; by left|].
      unfold f. rewrite Ha. simpl. split; by exists r. }
  rewrite HY, size_list_to_set.
  - by rewrite length_fmap.
  - apply NoDup_fmap_2_strong; [|apply NoDup_elements].
    intros x y [Hx _]%HX [Hy _]%HX Hxy.
    destruct (Hk x) as [a Ha]; [apply elem_of_app; by left|].
    destruct (Hk y) as [b Hb]; [apply elem_of_app; by left|].
    unfold f in Hxy. rewrite Ha, Hb in Hxy. simpl in Hxy. subst b. eauto.
Qed.

(** When every reference of every document is the id of a document of the
    set, the coupling strength of two documents is the number of distinct
    references they share: that is the entry of the strength table for a
    pair with a shared reference (there is no entry otherwise), every
    edge the graph has between the two carries it as weight, and when the
    table is not pruned the edge is there with this weight and score. *)
Theorem build_coupling_network_known_references pol docs max_edges kw g0 mapping :
  build_base_network pol docs false kw = Ok (g0, mapping) →
  (∀ doc ref, doc ∈ documents docs → ref ∈ references_or_nil doc →
              ∃ doc', doc' ∈ documents docs ∧ doc_id doc' = ref) →
  ∃ doc_refs g,
    coupling_doc_refs pol (documents docs) mapping (number_of_nodes g0) [] = Ok doc_refs
    ∧ build_coupling_network pol docs max_edges kw = Ok g
    ∧ ∀ i j a b, documents docs !! i = Some a → documents docs !! j = Some b → j < i →
        let w := spec_coupling_weight a b in
        od_get (i, j) (coupling_strength doc_refs)
        = (if decide (w = 0) then None else Some w)
        ∧ (∀ x, edge_attr g i j "weight" = Some x → x = ANat w)
        ∧ ((Z.of_nat (length (coupling_strength doc_refs)) ≤ max_edges)%Z → w ≠ 0 →
           edge_attr g i j "weight" = Some (ANat w)
           ∧ edge_attr g i j "score" = Some (ANat w)).
Proof.
  intros H Hclosed.
  destruct (build_base_network_mapping _ _ _ _ _ _ H) as [Hsound Hcomplete].
  unfold mapping_get in Hsound, Hcomplete.
  assert (Hknown : ∀ doc ref, doc ∈ documents docs → ref ∈ references_or_nil doc →
                              is_Some (mapping !! ref)).
  { intros doc ref Hdoc Href.
    destruct (Hclosed doc ref Hdoc Href) as (doc' & Hdoc' & <-). by apply Hcomplete. }
  assert (Hinj : ∀ r1 r2 a, mapping !! r1 = Some a → mapping !! r2 = Some a → r1 = r2).
  { intros r1 r2 a (d1 & Hd1 & <-)%Hsound (d2 & Hd2 & <-)%Hsound. congruence. }
  set (dr := (fun doc => list_to_set (resolve_refs mapping (references_or_nil doc)) : gset nat)
               <$> documents docs).
  assert (Hdr : coupling_doc_refs pol (documents docs) mapping (number_of_nodes g0) []
                = Ok dr) by (by rewrite coupling_doc_refs_known).
  destruct (build_coupling_network_edge_table _ _ max_edges _ _ _ _ H Hdr)
    as (g & Hg & Hd & _ & He); [by unfold dr; rewrite length_fmap|].
  exists dr, g. split; [done|]. split; [done|].
  intros i j a b Hi Hj Hlt w.
  assert (Hsize : size ((list_to_set (resolve_refs mapping (references_or_nil a)) : gset nat)
                        ∩ list_to_set (resolve_refs mapping (references_or_nil b))) = w).
  { apply size_resolved_intersection; [|done].
    intros ref [Href|Href]%elem_of_app; eapply Hknown; try exact Href;
      eapply list_elem_of_lookup_2; eauto. }
  assert (Hentry : od_get (i, j) (coupling_strength dr)
                   = (if decide (w = 0) then None else Some w)).
  { rewrite coupling_strength_get. unfold coupling_entry, dr.
    rewrite !list_lookup_fmap, Hi, Hj. simpl. rewrite Hsize.
    destruct (decide (w = 0)) as [Hw|Hw].
    - rewrite decide_False; [done|]. intros [_ Hne]. apply Hne.
      apply leibniz_equiv, size_empty_iff. by rewrite Hsize.
    - rewrite decide_True; [done|]. split; [done|]. intros Hempty.
      apply Hw. rewrite <- Hsize, Hempty. apply size_empty. }
  assert (Hattrs : edge_attrs g i j
                   = weight_attrs ["weight"; "score"]
                     <$> od_get (i, j) (prune_edges (coupling_strength dr) max_edges)).
  { unfold edge_attrs. rewrite Hd, He. simpl.
    replace (i `min` j, i `max` j) with (j, i) by (f_equal; lia).
    apply (od_get_fmap_keys (fun k : nat * nat => (k.2, k.1))
             (weight_attrs ["weight"; "score"]) (i, j)).
    intros [x1 x2] [y1 y2] [= ? ?]. by subst. }
  split; [done|]. split.
  - intros x. unfold edge_attr. rewrite Hattrs.
    destruct (od_get (i, j) (prune_edges (coupling_strength dr) max_edges))
      as [w'|] eqn:Ekept; [|done].
    apply od_get_Some_elem, prune_edges_subseteq in Ekept.
    apply od_get_elem_NoDup in Ekept; [|apply coupling_strength_NoDup].
    rewrite Hentry in Ekept. case_decide; [done|]. injection Ekept as <-.
    simpl. rewrite (proj1 (weight_attrs_lookup w)). by intros [= <-].
  - intros Hlen Hw. unfold edge_attr. rewrite Hattrs.
    unfold prune_edges. rewrite (proj2 (Z.ltb_ge _ _) Hlen).
    rewrite Hentry, decide_False by done. simpl.
    split; apply weight_attrs_lookup.
Qed.

Lemma build_coupling_network_known_references_witness :
  ∃ g, build_coupling_network DupIgnore closed_reference_docs 1000 no_kwargs = Ok g
       ∧ edge_attr g 1 0 "weight" = Some (ANat 1).
Proof.
  destruct (build_coupling_network_known_references DupIgnore closed_reference_docs
              1000 no_kwargs
              {| directed := false;
                 nodes := imap (fun i doc =>
                                  (i, {[ "title" := AStr (doc_title doc);
                                         "doc" := ADoc doc ]}))
                               (documents closed_reference_docs);
                 edges := [] |}
              (list_to_map [("A", 0); ("B", 1); ("C", 2)]))
    as (dr & g & Hdr & Hg & Hw).
  - by vm_compute.
  - intros doc ref Hdoc Href.
    repeat (apply elem_of_cons in Hdoc as [->|Hdoc]);
      [..|by apply elem_of_nil in Hdoc];
      simpl in Href;
      repeat (apply elem_of_cons in Href as [->|Href]);
      try (by apply elem_of_nil in Href);
      first [ exists (plain_doc "A" ["C"]); split; [|reflexivity]
            | exists (plain_doc "C" []); split; [|reflexivity] ];
      simpl; rewrite !elem_of_cons; eauto 10.
  - exists g. split; [done|].
    destruct (Hw 1 0 (plain_doc "B" ["C"; "A"]) (plain_doc "A" ["C"]))
      as (_ & _ & Hedge); [done|done|lia|].
    injection Hdr as <-.
    apply Hedge; by vm_compute.
Defined.

(** ** The number of edges the pruning step keeps *)

(** The pruning step keeps exactly [min(len(edges), max_edges)] edges for
    a bound that is not negative; a negative bound always cuts, and the
    slice [edges[:max_edges]] then drops the [-max_edges] lightest edges
    (all of them when there are not more).  For a bound that is not
    negative, pruning a pruned list changes nothing. *)
Theorem prune_edges_length {K} (es : list (K * nat)) (max_edges : Z) :
  Z.of_nat (length (prune_edges es max_edges))
  = (if (0 <=? max_edges)%Z then Z.min (Z.of_nat (length es)) max_edges
     else Z.max 0 (Z.of_nat (length es) + max_edges))%Z
  ∧ ((0 ≤ max_edges)%Z →
     prune_edges (prune_edges es max_edges) max_edges = prune_edges es max_edges).
Proof.
  assert (Hlen : Z.of_nat (length (prune_edges es max_edges))
    = (if (0 <=? max_edges)%Z then Z.min (Z.of_nat (length es)) max_edges
       else Z.max 0 (Z.of_nat (length es) + max_edges))%Z).
  { unfold prune_edges, slice_to.
    destruct (max_edges <? Z.of_nat (length es))%Z eqn:Ecut;
      destruct (0 <=? max_edges)%Z eqn:Esign;
      rewrite ?length_take, ?sort_desc_length; lia. }
  split; [exact Hlen|]. intros Hm.
  rewrite (proj2 (Z.leb_le 0 max_edges) Hm) in Hlen.
  unfold prune_edges at 1.
  by rewrite (proj2 (Z.ltb_ge _ _)) by lia.
Qed.

(** ** What plot_network shows *)

Lemma mem_nat_spec n ns : mem_nat n ns = true ↔ n ∈ ns.
Proof.
  unfold mem_nat. rewrite existsb_exists, list_elem_of_In. split.
  - intros (x & Hx & ->%Nat.eqb_eq). done.
  - intros Hn. exists n. by rewrite Nat.eqb_refl.
Qed.

Lemma filter_all {A} (p : A → bool) (l : list A) :
  (∀ x, x ∈ l → p x = true) → List.filter p l = l.
Proof.
  induction l as [|x l IH]; intros Hp; [done|]. simpl.
  rewrite Hp by (by left). f_equal. apply IH. intros y Hy. apply Hp. by right.
Qed.

Lemma elem_of_List_filter {A} (p : A → bool) (l : list A) x :
  x ∈ List.filter p l ↔ x ∈ l ∧ p x = true.
Proof. by rewrite !list_elem_of_In, filter_In. Qed.

(** An isolated node is a node that no edge touches. *)
Lemma isolates_spec g n :
  n ∈ isolates g
  ↔ n ∈ od_keys (nodes g) ∧ ∀ e, e ∈ edges g → n ≠ e.1.1 ∧ n ≠ e.1.2.
Proof.
  unfold isolates. rewrite elem_of_List_filter, forallb_forall.
  split; intros [Hn He]; (split; [done|]); intros e Hin.
  - apply list_elem_of_In, He in Hin. unfold touches in Hin.
    apply negb_true_iff, orb_false_iff in Hin as [H1 H2].
    by apply Nat.eqb_neq in H1, H2.
  - apply list_elem_of_In, He in Hin as [H1 H2]. unfold touches.
    apply negb_true_iff, orb_false_iff. by rewrite !Nat.eqb_neq.
Qed.

Lemma remove_nodes_from_nil g : remove_nodes_from [] g = g.
Proof.
  destruct g as [d ns es]. unfold remove_nodes_from. simpl.
  by rewrite !filter_all.
Qed.

(** Removing the isolated nodes removes no edge. *)
Lemma remove_isolates_edges g : edges (remove_nodes_from (isolates g) g) = edges g.
Proof.
  unfold remove_nodes_from. simpl. apply filter_all. intros e He.
  apply negb_true_iff, orb_false_iff.
  split; apply not_true_iff_false; intros [_ Hn]%mem_nat_spec%isolates_spec;
    destruct (Hn e He); done.
Qed.

Lemma remove_isolates_nodes g n :
  n ∈ od_keys (nodes (remove_nodes_from (isolates g) g))
  ↔ n ∈ od_keys (nodes g) ∧ ∃ e, e ∈ edges g ∧ (n = e.1.1 ∨ n = e.1.2).
Proof.
  unfold remove_nodes_from, od_keys. simpl. rewrite !list_elem_of_fmap. split.
  - intros (p & -> & [Hp Hmem]%elem_of_List_filter).
    assert (Hkey : p.1 ∈ od_keys (nodes g)) by (apply list_elem_of_fmap; eauto).
    split; [eauto|].
    apply negb_true_iff, not_true_iff_false in Hmem.
    rewrite mem_nat_spec, isolates_spec in Hmem.
    destruct (decide (Exists (fun e : nat * nat * attrs => p.1 = e.1.1 ∨ p.1 = e.1.2)
                             (edges g))) as [Hex|Hnex].
    + apply Exists_exists in Hex as (e & He & Hor). eauto.
    + exfalso. apply Hmem. split; [done|]. intros e He.
      split; intros Heq; apply Hnex, Exists_exists; eauto.
  - intros [(p & -> & Hp) (e & He & Hor)]. exists p. split; [done|].
    apply elem_of_List_filter. split; [done|].
    apply negb_true_iff, not_true_iff_false.
    intros [_ Hn]%mem_nat_spec%isolates_spec. destruct (Hn e He). by destruct Hor.
Qed.

Lemma connected_components_nonempty g :
  nodes g ≠ [] → connected_components g ≠ [].
Proof.
  unfold connected_components, od_keys. destruct (nodes g) as [|p ps]; [done|].
  intros _. rewrite fmap_cons. simpl.
  apply (fold_left_invariant (fun cc : list (gset nat) => cc ≠ [])); [done|].
  intros cc u Hcc. destruct (existsb _ cc); [done|]. by destruct cc.
Qed.

(** The result of [plot_network], in terms of the graph without its
    isolated nodes. *)
Lemma plot_network_result largest_component r (σ : store) g :
  σ !! r = Some g →
  let g1 := remove_nodes_from (isolates g) g in
  ∃ σ', plot_network largest_component r σ
        = Some (if decide (length (edges g1) = 0) then NoEdgesGiven
                else Shown (directed g1)
                       (if largest_component then
                          match sort_desc size (connected_components g1) with
                          | c :: _ => subgraph c g1
                          | [] => g1
                          end
                        else g1), σ').
Proof.
  intros Hr. cbv zeta. unfold plot_network. rewrite Hr. cbn [mbind option_bind].
  destruct (isolates g) as [|n ns] eqn:Eiso.
  - cbn [mbind option_bind]. rewrite Hr. cbn [mbind option_bind].
    rewrite remove_nodes_from_nil. exists σ. by destruct (decide _).
  - unfold copy. rewrite Hr. cbn [mbind option_bind].
    rewrite lookup_alter_eq, lookup_insert_eq. cbn [fmap option_fmap option_map mbind option_bind].
    eexists. by destruct (decide _).
Qed.

(** [plot_network] works on the graph without its isolated nodes: that
    graph has all the edges, no isolated node, and as nodes exactly the
    nodes an edge touches.  A graph without edges gives the message and
    nothing is shown.  Otherwise the widget gets the direction of the
    graph and, without [largest_component], the graph without isolated
    nodes; with it, the subgraph induced by the first component of the
    components sorted by decreasing size, which is a component no other
    is larger than. *)
Theorem plot_network_output largest_component r (σ : store) g :
  σ !! r = Some g →
  let g1 := remove_nodes_from (isolates g) g in
  edges g1 = edges g
  ∧ isolates g1 = []
  ∧ (∀ n, n ∈ od_keys (nodes g1)
          ↔ n ∈ od_keys (nodes g) ∧ ∃ e, e ∈ edges g ∧ (n = e.1.1 ∨ n = e.1.2))
  ∧ ∃ out σ', plot_network largest_component r σ = Some (out, σ')
      ∧ (edges g = [] → out = NoEdgesGiven)
      ∧ (edges g ≠ [] →
         ∃ view, out = Shown (directed g) view
           ∧ (largest_component = false → view = g1)
           ∧ (largest_component = true →
              (nodes g1 ≠ [] → connected_components g1 ≠ [])
              ∧ ∀ c, head (sort_desc size (connected_components g1)) = Some c →
                  view = subgraph c g1
                  ∧ c ∈ connected_components g1
                  ∧ ∀ c', c' ∈ connected_components g1 → size c' ≤ size c)).
Proof.
  intros Hr g1.
  assert (Hedges : edges g1 = edges g) by apply remove_isolates_edges.
  split; [done|]. split.
  { apply elem_of_nil_inv. intros n [Hn Hiso]%isolates_spec.
    apply remove_isolates_nodes in Hn as [_ (e & He & Hor)].
    rewrite Hedges in Hiso. destruct (Hiso e He). by destruct Hor. }
  split; [apply remove_isolates_nodes|].
  destruct (plot_network_result largest_component r σ g Hr) as [σ' Hplot].
  fold g1 in Hplot. eexists _, σ'. split; [exact Hplot|]. rewrite Hedges.
  split.
  - intros ->. done.
  - intros Hne. rewrite decide_False by (by destruct (edges g)).
    eexists. split; [done|]. split; [by intros ->|]. intros ->.
    split; [apply connected_components_nonempty|].
    intros c Hc. apply head_Some in Hc as [l Hl]. rewrite Hl.
    split; [done|].
    assert (Hperm := sort_desc_perm size (connected_components g1)).
    assert (Hdesc := sort_desc_descending size (connected_components g1)).
    rewrite Hl in Hperm, Hdesc. split.
    + rewrite <- Hperm. by left.
    + intros c' Hc'. rewrite <- Hperm in Hc'.
      apply elem_of_cons in Hc' as [->|Hc']; [done|].
      apply (descending_take_drop size 1 (c :: l) c c' Hdesc); [by left|done].
Qed.

Lemma plot_network_output_witness :
  ∃ out σ', plot_network true 7 {[ 7 := graph_with_isolate ]} = Some (out, σ')
    ∧ ∃ view, out = Shown true view.
Proof.
  destruct (plot_network_output true 7 {[ 7 := graph_with_isolate ]} graph_with_isolate)
    as (_ & _ & _ & out & σ' & Hplot & _ & Hshown); [reflexivity|].
  exists out, σ'. split; [done|].
  destruct Hshown as (view & Hview & _); [done|]. by exists view.
Defined.

(** ** Keyword arguments of the plotting shorthands *)

Section kwargs_properties.
Context {V : Type}.
Variable read_colors : V → option colors_arg.
Variable read_cmap : V → option cmap_arg.
Variable truth : V → bool.

Lemma od_get_filter_keys (P : string * V → Prop) `{!∀ kv, Decision (P kv)}
    (Q : string → Prop) `{!∀ k, Decision (Q k)} (k : string) (d : list (string * V)) :
  (∀ kv, P kv ↔ Q kv.1) →
  od_get k (filter P d) = if decide (Q k) then od_get k d else None.
Proof.
  intros HPQ. induction d as [|[k' v] d IH]; [by case_decide|].
  rewrite filter_cons. destruct (decide (P (k', v))) as [Hk'|Hk'];
    cbn [od_get]; rewrite ?IH; rewrite HPQ in Hk'; cbn [fst] in Hk';
    repeat case_decide; subst; done.
Qed.

Lemma od_keys_filter_keys (P : string * V → Prop) `{!∀ kv, Decision (P kv)}
    (Q : string → Prop) (k : string) (d : list (string * V)) :
  (∀ kv, P kv ↔ Q kv.1) →
  k ∈ od_keys (filter P d) ↔ k ∈ od_keys d ∧ Q k.
Proof.
  intros HPQ. unfold od_keys. rewrite !list_elem_of_fmap. split.
  - intros (kv & -> & [HP Hin]%list_elem_of_filter). apply HPQ in HP. eauto.
  - intros [(kv & -> & Hin) HQ]. exists kv. split; [done|].
    apply list_elem_of_filter. split; [by apply HPQ|done].
Qed.

(** With every key once, as in a dictionary, the two parts are the entries
    with an allowed name and the others, in order. *)
Lemma split_kwargs_filter names (kwargs : list (string * V)) :
  NoDup (od_keys kwargs) →
  split_kwargs names kwargs
  = (filter (fun kv => kv.1 ∈ names ++ ["colors"; "cmap"]) kwargs,
     filter (fun kv => kv.1 ∉ names ++ ["colors"; "cmap"]) kwargs).
Proof.
  unfold split_kwargs. cbv zeta. generalize (names ++ ["colors"; "cmap"]).
  intros allowed. unfold od_keys.
  induction kwargs as [|[k v] kwargs IH] using rev_ind; intros Hnd; [done|].
  rewrite fmap_app in Hnd. apply NoDup_app in Hnd as (Hnd & Hnew & _).
  assert (Hk : k ∉ kwargs.*1).
  { intros Hin. apply (Hnew k Hin). by left. }
  rewrite fold_left_app, IH by done. cbn [fold_left fst snd].
  rewrite !filter_app, !filter_cons, !filter_nil. cbn [fst].
  case_bool_decide as Hallowed.
  - rewrite decide_True, decide_False by eauto.
    rewrite od_upsert_absent, app_nil_r; [done|].
    apply od_get_None.
    by intros [? _]%(od_keys_filter_keys _ (fun k => k ∈ allowed)).
  - rewrite decide_False, decide_True by eauto.
    rewrite od_upsert_absent, app_nil_r; [done|].
    apply od_get_None.
    by intros [? _]%(od_keys_filter_keys _ (fun k => k ∉ allowed)).
Qed.

(** [split_kwargs] loses nothing and duplicates nothing: a keyword is on
    the left with its value exactly when its name is one of [names],
    "colors" or "cmap", and on the right with its value otherwise; both
    parts keep the order of the call. *)
Theorem split_kwargs_spec names (kwargs : list (string * V)) :
  NoDup (od_keys kwargs) →
  let allowed := names ++ ["colors"; "cmap"] in
  (split_kwargs names kwargs).1 = filter (fun kv => kv.1 ∈ allowed) kwargs
  ∧ (split_kwargs names kwargs).2 = filter (fun kv => kv.1 ∉ allowed) kwargs
  ∧ ∀ k, od_get k (split_kwargs names kwargs).1
         = (if decide (k ∈ allowed) then od_get k kwargs else None)
         ∧ od_get k (split_kwargs names kwargs).2
           = (if decide (k ∈ allowed) then None else od_get k kwargs).
Proof.
  intros Hnd allowed. rewrite split_kwargs_filter by done. fold allowed.
  split; [done|]. split; [done|]. intros k. cbn [fst snd].
  rewrite (od_get_filter_keys _ (fun k => k ∈ allowed)) by done.
  rewrite (od_get_filter_keys _ (fun k => k ∉ allowed)) by done.
  split; [done|]. by repeat case_decide.
Qed.

Lemma plot_network_params_not_base k :
  k ∈ plot_network_params → k ∉ ["colors"; "cmap"].
Proof.
  unfold plot_network_params. intros Hk Hc.
  repeat (apply elem_of_cons in Hk as [->|Hk]);
    try (by apply elem_of_nil in Hk);
    repeat (apply elem_of_cons in Hc as [Hc|Hc]);
    try discriminate; by apply elem_of_nil in Hc.
Qed.

Lemma keyword_not_known k :
  k ∉ ("colors" :: "cmap" :: plot_network_params) →
  (k ∉ ["colors"; "cmap"]) ∧ (k ∉ plot_network_params).
Proof.
  intros H. rewrite !not_elem_of_cons in H. destruct H as (H1 & H2 & H3).
  split; [|done].
  rewrite !not_elem_of_cons. split_and!; [done..|]. apply not_elem_of_nil.
Qed.

Lemma keyword_known k :
  k ∈ ("colors" :: "cmap" :: plot_network_params) →
  k ∉ ["colors"; "cmap"] → k ∈ plot_network_params.
Proof.
  intros Hk H. rewrite !not_elem_of_cons in H. destruct H as (H1 & H2 & _).
  apply elem_of_cons in Hk as [->|Hk]; [done|].
  apply elem_of_cons in Hk as [->|Hk]; done.
Qed.

(** The shorthands call [split_kwargs] without names. *)
Lemma split_kwargs_shorthand (kwargs : list (string * V)) :
  NoDup (od_keys kwargs) →
  ∃ b p, split_kwargs [] kwargs = (b, p)
         ∧ (∀ k, k ∈ od_keys b ↔ k ∈ od_keys kwargs ∧ k ∈ ["colors"; "cmap"])
         ∧ (∀ k, k ∈ od_keys p ↔ k ∈ od_keys kwargs ∧ k ∉ ["colors"; "cmap"])
         ∧ od_get "colors" b = od_get "colors" kwargs
         ∧ od_get "cmap" b = od_get "cmap" kwargs
         ∧ od_get "largest_component" p = od_get "largest_component" kwargs.
Proof.
  intros Hnd. rewrite split_kwargs_filter by done. cbn [app].
  eexists _, _. split; [done|]. split_and!.
  - intros k. by apply (od_keys_filter_keys _ (fun k => k ∈ ["colors"; "cmap"])).
  - intros k. by apply (od_keys_filter_keys _ (fun k => k ∉ ["colors"; "cmap"])).
  - rewrite (od_get_filter_keys _ (fun k => k ∈ ["colors"; "cmap"])) by done.
    rewrite decide_True; [done|by repeat constructor].
  - rewrite (od_get_filter_keys _ (fun k => k ∈ ["colors"; "cmap"])) by done.
    rewrite decide_True; [done|by repeat constructor].
  - rewrite (od_get_filter_keys _ (fun k => k ∉ ["colors"; "cmap"])) by done.
    rewrite decide_True; [done|].
    rewrite !not_elem_of_cons. split_and!; [done..|]. apply not_elem_of_nil.
Qed.

Lemma call_plot_network_ok g fixed (p : list (string * V)) :
  (∀ k, k ∈ od_keys p → k ∈ plot_network_params ∧ k ∉ fixed) →
  ∃ out σ',
    plot_network (match od_get "largest_component" p with
                  | Some v => truth v
                  | None => true
                  end) 0 {[0 := g]} = Some (out, σ')
    ∧ call_plot_network truth g fixed p = Ok out.
Proof.
  intros Hp. unfold call_plot_network.
  assert (Hall : forallb (fun k => bool_decide (k ∈ plot_network_params ∧ k ∉ fixed))
                   (od_keys p) = true).
  { apply forallb_forall. intros k Hk%list_elem_of_In. by apply bool_decide_eq_true, Hp. }
  rewrite Hall. cbv zeta.
  destruct (plot_network_result
              (match od_get "largest_component" p with
               | Some v => truth v
               | None => true
               end) 0 {[0 := g]} g) as [σ' Hplot]; [apply lookup_singleton_eq|].
  cbv zeta in Hplot. rewrite Hplot. eauto.
Qed.

Lemma call_plot_network_unexpected g fixed (p : list (string * V)) k :
  k ∈ od_keys p → k ∉ plot_network_params ∨ k ∈ fixed →
  call_plot_network truth g fixed p = Raise TypeError.
Proof.
  intros Hk Hbad. unfold call_plot_network.
  destruct (forallb _ (od_keys p)) eqn:Hall; [|done].
  rewrite forallb_forall in Hall.
  apply list_elem_of_In, Hall, bool_decide_eq_true in Hk as [? ?].
  by destruct Hbad.
Qed.

(** [plot_coupling_network] passes its own [max_edges] on, and its default
    is [None]: a call that does not set [max_edges] never shows anything,
    it raises [TypeError] as soon as the base graph is built.  With a
    [max_edges], a keyword [min_node_size] or [max_node_size] is given
    twice to [plot_network], so the call does not return either. *)
Theorem plot_coupling_network_raises pol docs (kwargs : list (string * V)) :
  NoDup (od_keys kwargs) →
  (¬ is_ok (plot_coupling_network read_colors read_cmap truth pol docs None kwargs)
   ∧ (is_ok (build_base_network pol docs false
               (base_kwargs_of read_colors read_cmap kwargs)) →
      plot_coupling_network read_colors read_cmap truth pol docs None kwargs
      = Raise TypeError))
  ∧ ∀ m, "min_node_size" ∈ od_keys kwargs ∨ "max_node_size" ∈ od_keys kwargs →
         ¬ is_ok (plot_coupling_network read_colors read_cmap truth pol docs (Some m)
                    kwargs).
Proof.
  intros Hnd. unfold plot_coupling_network.
  destruct (split_kwargs_shorthand kwargs Hnd) as (b & p & -> & _ & Hp & Hc & Hm & _).
  unfold base_kwargs_of. rewrite Hc, Hm.
  split.
  - unfold build_coupling_network_opt.
    destruct (build_base_network _ _ _ _) as [[g mapping]|e]; cbn [mbind result_bind].
    + destruct (coupling_doc_refs_ok pol (documents docs) mapping (number_of_nodes g) [])
        as (dr & -> & _).
      cbn [mbind result_bind]. split; [by intros []|done].
    + split; by intros [].
  - intros m Hk. unfold build_coupling_network_opt.
    destruct (build_coupling_network _ _ _ _) as [g|e]; cbn [mbind result_bind];
      [|by intros []].
    assert (∃ k, k ∈ od_keys p ∧ k ∈ ["min_node_size"; "max_node_size"])
      as (k & Hkp & Hfixed).
    { destruct Hk as [Hk|Hk]; eexists;
        (split; [apply Hp; split; [exact Hk|]|by repeat constructor]);
        apply plot_network_params_not_base; unfold plot_network_params;
        by repeat constructor. }
    rewrite (call_plot_network_unexpected g _ p k) by eauto. by intros [].
Qed.

(** [plot_coauthor_network] forwards "colors" and "cmap" to
    [build_coauthor_network], which accepts neither: such a call raises
    [TypeError].  Any other keyword goes to [plot_network]; when all of
    them are parameters of [plot_network], the call shows the co-author
    graph. *)
Theorem plot_coauthor_network_keywords docs max_authors (kwargs : list (string * V)) :
  NoDup (od_keys kwargs) →
  ("colors" ∈ od_keys kwargs ∨ "cmap" ∈ od_keys kwargs →
   plot_coauthor_network truth docs max_authors kwargs = Raise TypeError)
  ∧ (∀ k, k ∈ od_keys kwargs → k ∉ ("colors" :: "cmap" :: plot_network_params) →
          plot_coauthor_network truth docs max_authors kwargs = Raise TypeError)
  ∧ ((∀ k, k ∈ od_keys kwargs → k ∈ plot_network_params) →
     ∃ out σ',
       plot_network (match od_get "largest_component" kwargs with
                     | Some v => truth v
                     | None => true
                     end) 0 {[0 := build_coauthor_network docs max_authors]}
       = Some (out, σ')
       ∧ plot_coauthor_network truth docs max_authors kwargs = Ok out).
Proof.
  intros Hnd. unfold plot_coauthor_network.
  destruct (split_kwargs_shorthand kwargs Hnd) as (b & p & -> & Hb & Hp & _ & _ & Hlc).
  split_and!.
  - intros Hk. destruct b as [|kv b]; [|done]. exfalso.
    destruct Hk as [Hk|Hk]; eapply elem_of_nil, Hb;
      (split; [exact Hk|by repeat constructor]).
  - intros k Hk Hbad. destruct b as [|kv b]; [|done]. cbn [mbind result_bind].
    apply keyword_not_known in Hbad as [Hbase Hplot].
    apply (call_plot_network_unexpected _ _ p k); [by apply Hp|by left].
  - intros Hall. destruct b as [|kv b].
    + cbn [mbind result_bind]. rewrite <- Hlc.
      apply call_plot_network_ok. intros k [Hk _]%Hp. split; [by apply Hall|].
      apply not_elem_of_nil.
    + exfalso. assert (Hkv : kv.1 ∈ od_keys (kv :: b)) by (by left).
      apply Hb in Hkv as [Hk Hcol]. apply Hall in Hk.
      by apply plot_network_params_not_base in Hk.
Qed.

(** [plot_citation_network] and [plot_cocitation_network] are shorthands
    for building the graph with the "colors" and "cmap" keywords and
    plotting it with the others; a keyword that is neither "colors" nor
    "cmap" nor a parameter of [plot_network], such as "node_props", is
    handed to [plot_network] and the call does not return. *)
Theorem plot_document_network_keywords pol docs max_edges (kwargs : list (string * V)) :
  NoDup (od_keys kwargs) →
  let kw := base_kwargs_of read_colors read_cmap kwargs in
  let largest_component := match od_get "largest_component" kwargs with
                           | Some v => truth v
                           | None => true
                           end in
  ((∀ k, k ∈ od_keys kwargs → k ∈ ("colors" :: "cmap" :: plot_network_params)) →
   plot_citation_network read_colors read_cmap truth pol docs kwargs
   = (g ← build_citation_network pol docs kw;
      from_option (fun r => Ok r.1) (Raise LookupError)
        (plot_network largest_component 0 {[0 := g]}))
   ∧ plot_cocitation_network read_colors read_cmap truth pol docs max_edges kwargs
     = (g ← build_cocitation_network pol docs max_edges kw;
        from_option (fun r => Ok r.1) (Raise LookupError)
          (plot_network largest_component 0 {[0 := g]}))
   ∧ (is_ok (plot_citation_network read_colors read_cmap truth pol docs kwargs)
      ↔ is_ok (build_citation_network pol docs kw))
   ∧ (is_ok (plot_cocitation_network read_colors read_cmap truth pol docs max_edges kwargs)
      ↔ is_ok (build_cocitation_network pol docs max_edges kw)))
  ∧ (∀ k, k ∈ od_keys kwargs → k ∉ ("colors" :: "cmap" :: plot_network_params) →
          ¬ is_ok (plot_citation_network read_colors read_cmap truth pol docs kwargs)
          ∧ ¬ is_ok (plot_cocitation_network read_colors read_cmap truth pol docs
                       max_edges kwargs)).
Proof.
  intros Hnd kw largest_component.
  unfold plot_citation_network, plot_cocitation_network.
  destruct (split_kwargs_shorthand kwargs Hnd) as (b & p & -> & _ & Hp & Hc & Hm & Hlc).
  replace (base_kwargs_of read_colors read_cmap b) with kw
    by (unfold kw, base_kwargs_of; by rewrite Hc, Hm).
  split.
  - intros Hall.
    assert (Hcall : ∀ g, call_plot_network truth g [] p
                         = from_option (fun r => Ok r.1) (Raise LookupError)
                             (plot_network largest_component 0 {[0 := g]})
                         ∧ is_ok (call_plot_network truth g [] p)).
    { intros g. destruct (call_plot_network_ok g [] p) as (out & σ' & Hplot & ->).
      - intros k [Hk Hcol]%Hp. split; [|apply not_elem_of_nil].
        by apply keyword_known; [apply Hall|].
      - rewrite Hlc in Hplot. fold largest_component in Hplot. by rewrite Hplot. }
    split_and!.
    + destruct (build_citation_network pol docs kw) as [g|e]; [|done]. apply Hcall.
    + destruct (build_cocitation_network pol docs max_edges kw) as [g|e]; [|done].
      apply Hcall.
    + destruct (build_citation_network pol docs kw) as [g|e]; [|done].
      cbn [mbind result_bind]. split; [done|]. intros _. apply Hcall.
    + destruct (build_cocitation_network pol docs max_edges kw) as [g|e]; [|done].
      cbn [mbind result_bind]. split; [done|]. intros _. apply Hcall.
  - intros k Hk Hbad.
    assert (Hcall : ∀ g, call_plot_network truth g [] p = Raise TypeError).
    { intros g. apply keyword_not_known in Hbad as [Hbase Hplot].
      apply (call_plot_network_unexpected g [] p k); [by apply Hp|by left]. }
    split.
    + destruct (build_citation_network pol docs kw) as [g|e];
        cbn [mbind result_bind]; [rewrite Hcall|]; by intros [].
    + destruct (build_cocitation_network pol docs max_edges kw) as [g|e];
        cbn [mbind result_bind]; [rewrite Hcall|]; by intros [].
Qed.

End kwargs_properties.

Lemma plot_coupling_network_raises_witness :
  plot_coupling_network (fun _ : bool => None) (fun _ => None) id
    DupIgnore worked_docs None []
  = Raise TypeError.
Proof.
  destruct (plot_coupling_network_raises (fun _ : bool => None) (fun _ => None) id
              DupIgnore worked_docs []) as [[_ H] _]; [constructor|].
  apply H. by vm_compute.
Defined.

Lemma plot_coauthor_network_keywords_witness :
  plot_coauthor_network id swapped_authors_docs None [("colors", true)]
  = Raise TypeError.
Proof.
  destruct (plot_coauthor_network_keywords id swapped_authors_docs None
              [("colors", true)]) as [H _].
  - apply NoDup_singleton.
  - apply H. left. by left.
Defined.

Lemma plot_document_network_keywords_witness :
  ¬ is_ok (plot_citation_network (fun _ : bool => None) (fun _ => None) id
             DupIgnore worked_docs [("node_props", true)]).
Proof.
  destruct (plot_document_network_keywords (fun _ : bool => None) (fun _ => None) id
              DupIgnore worked_docs None [("node_props", true)]) as [_ H].
  - apply NoDup_singleton.
  - apply (H "node_props"); [by left|]. unfold plot_network_params.
    rewrite !not_elem_of_cons. split_and!; try done. apply not_elem_of_nil.
Defined.

Lemma split_kwargs_spec_witness :
  (split_kwargs ["height"] [("cmap", 1); ("height", 2); ("gravity", 3)]).1
  = [("cmap", 1); ("height", 2)]
  ∧ (split_kwargs ["height"] [("cmap", 1); ("height", 2); ("gravity", 3)]).2
    = [("gravity", 3)].
Proof.
  destruct (split_kwargs_spec ["height"] [("cmap", 1); ("height", 2); ("gravity", 3)])
    as (H1 & H2 & _).
  - apply (bool_decide_unpack _). by vm_compute.
  - rewrite H1, H2. split; by vm_compute.
Defined.

(** ** Which authors the cut-off keeps *)

Lemma fold_left_bind {A B C} (f : A → C → A) (g : B → list C) (l : list B) (a : A) :
  fold_left (fun acc x => fold_left f (g x) acc) l a = fold_left f (l ≫= g) a.
Proof.
  revert a. induction l as [|x l IH]; intros a; [done|].
  rewrite bind_cons, fold_left_app. simpl. apply IH.
Qed.

(** The counter of a name is the number of author entries with that name
    over all documents. *)
Lemma count_authors_count ds name :
  od_count name (count_authors ds)
  = length (filter (fun a => truthy_name a = Some name) (ds ≫= authors_or_nil)).
Proof.
  unfold count_authors.
  rewrite (fold_left_bind
             (fun count author => match truthy_name author with
                                  | Some name => incr name count
                                  | None => count
                                  end) authors_or_nil).
  induction (ds ≫= authors_or_nil) as [|a l IH] using rev_ind; [done|].
  rewrite fold_left_app, filter_app, length_app. cbn [fold_left].
  rewrite filter_cons, filter_nil.
  destruct (truthy_name a) as [n|] eqn:Ea.
  - rewrite od_count_incr, IH. repeat case_decide; simplify_eq; simpl; lia.
  - rewrite IH, decide_False by done. simpl. lia.
Qed.

(** Cutting a list sorted by decreasing key. *)
Lemma slice_sort_desc_spec {A} (key : A → nat) (l : list A) (m : Z) :
  ∃ discarded,
    l ≡ₚ slice_to (sort_desc key l) m ++ discarded
    ∧ (∀ a b, a ∈ slice_to (sort_desc key l) m → b ∈ discarded → key b ≤ key a)
    ∧ ∀ w, filter (fun a => key a = w) (slice_to (sort_desc key l) m)
           `prefix_of` filter (fun a => key a = w) l.
Proof.
  destruct (slice_to_take (sort_desc key l) m) as [n Hn].
  exists (drop n (sort_desc key l)). rewrite Hn, take_drop. split_and!.
  - by rewrite sort_desc_perm.
  - intros a b Ha Hb.
    eapply (descending_take_drop key); [apply sort_desc_descending|done..].
  - intros w. rewrite <- (sort_desc_stable key w l).
    rewrite <- (take_drop n (sort_desc key l)) at 2.
    rewrite filter_app. by eexists.
Qed.

(** The counter [build_coauthor_network] keeps for a name is the number
    of author entries with that (non-empty) name over all documents.  The
    retained authors are the names with the highest counters: no dropped
    name has a larger counter than a retained one, and among the names
    with equal counters those seen first are retained.  When there are not
    more names than [max_authors], or no [max_authors], every name is
    retained, in order of first appearance. *)
Theorem build_coauthor_network_top_authors docs max_authors :
  let count := count_authors (documents docs) in
  let authors := retained_authors count max_authors in
  (∀ name, od_count name count
           = length (filter (fun a => truthy_name a = Some name)
                            (documents docs ≫= authors_or_nil)))
  ∧ (∃ dropped, od_keys count ≡ₚ authors ++ dropped
       ∧ ∀ a b, a ∈ authors → b ∈ dropped → od_count b count ≤ od_count a count)
  ∧ (∀ w, filter (fun a => od_count a count = w) authors
          `prefix_of` filter (fun a => od_count a count = w) (od_keys count))
  ∧ (∀ m, max_authors = Some m → (Z.of_nat (length (od_keys count)) ≤ m)%Z →
          authors = od_keys count)
  ∧ (max_authors = None → authors = od_keys count).
Proof.
  intros count authors. split; [apply count_authors_count|].
  assert (Hall : authors = od_keys count →
    (∃ dropped, od_keys count ≡ₚ authors ++ dropped
       ∧ ∀ a b, a ∈ authors → b ∈ dropped → od_count b count ≤ od_count a count)
    ∧ (∀ w, filter (fun a => od_count a count = w) authors
            `prefix_of` filter (fun a => od_count a count = w) (od_keys count))).
  { intros ->. split; [|done]. exists []. rewrite app_nil_r. split; [done|].
    intros a b _ Hb. by apply elem_of_nil in Hb. }
  unfold authors, retained_authors. destruct max_authors as [m|].
  - destruct (m <? Z.of_nat (length (od_keys count)))%Z eqn:E.
    + destruct (slice_sort_desc_spec (fun name => od_count name count) (od_keys count) m)
        as (dropped & Hperm & Htop & Hties).
      split_and!; [by exists dropped|done| |done].
      intros m' [= <-] Hlen. apply Z.ltb_lt in E. lia.
    + destruct Hall as [H1 H2].
      { unfold authors, retained_authors. by rewrite E. }
      unfold authors, retained_authors in H1, H2. rewrite E in H1, H2.
      split_and!; done.
  - destruct Hall as [H1 H2]; [done|]. split_and!; done.
Qed.

(** ** The weights of the co-author graph *)

Lemma coauthor_row_count mapping left rights es (k : nat * nat) :
  od_count k (coauthor_row mapping left rights es)
  = od_count k es
    + (if decide (od_get left mapping = Some k.1)
       then length (filter (fun right => od_get right mapping = Some k.2) rights)
       else 0).
Proof.
  revert es. induction rights as [|right rights IH]; intros es.
  - simpl. case_decide; simpl; lia.
  - rewrite coauthor_row_cons, IH, filter_cons. destruct k as [u v]. cbn [fst snd].
    destruct (od_get left mapping) as [l|] eqn:El;
      destruct (od_get right mapping) as [r|] eqn:Er;
      rewrite ?od_count_incr; repeat case_decide; simplify_eq; simpl; lia.
Qed.

Lemma coauthor_pairs_count mapping authors es (k : nat * nat) :
  od_count k (coauthor_pairs mapping authors es)
  = od_count k es + coauthor_pair_count mapping authors k.1 k.2.
Proof.
  unfold coauthor_pairs, coauthor_pair_count.
  assert (Hgen : ∀ pre,
    od_count k (fold_left (fun es (il : nat * string) =>
                             coauthor_row mapping il.2 (take il.1 authors) es)
                          (enumerate pre) es)
    = od_count k es
      + sum_list (imap (fun i left =>
                          if decide (od_get left mapping = Some k.1)
                          then length (filter (fun right => od_get right mapping = Some k.2)
                                              (take i authors))
                          else 0) pre)).
  { induction pre as [|x pre IH] using rev_ind; [simpl; lia|].
    rewrite enumerate_snoc, fold_left_app, imap_app, sum_list_with_app.
    cbn [fold_left fst snd imap sum_list_with]. rewrite coauthor_row_count, IH.
    rewrite !Nat.add_0_r. unfold id. lia. }
  apply Hgen.
Qed.

Lemma coauthor_edges_count mapping ds (k : nat * nat) :
  od_count k (coauthor_edges mapping ds)
  = sum_list ((fun doc => coauthor_pair_count mapping (author_names doc) k.1 k.2) <$> ds).
Proof.
  unfold coauthor_edges.
  induction ds as [|doc ds IH] using rev_ind; [done|].
  rewrite fold_left_app, fmap_app, sum_list_with_app. cbn [fold_left].
  rewrite coauthor_pairs_count, IH. simpl. unfold id. lia.
Qed.

Lemma coauthor_edges_NoDup mapping ds : NoDup (od_keys (coauthor_edges mapping ds)).
Proof.
  unfold coauthor_edges, coauthor_pairs, coauthor_row.
  apply (fold_left_invariant (fun es => NoDup (od_keys es))); [constructor|].
  intros es doc Hes.
  apply (fold_left_invariant (fun es => NoDup (od_keys es))); [done|].
  intros es' il Hes'.
  apply (fold_left_invariant (fun es => NoDup (od_keys es))); [done|].
  intros es'' right Hes''.
  destruct (od_get il.2 mapping); [|done].
  destruct (od_get right mapping); [|done].
  by apply od_upsert_NoDup.
Qed.

(** The weight of an edge of the co-author graph is its counter. *)
Lemma build_coauthor_network_edge_weight docs max_authors u v :
  edge_weight (build_coauthor_network docs max_authors) u v
  = od_count (u, v) (coauthor_edges (coauthor_mapping docs max_authors) (documents docs)).
Proof.
  unfold build_coauthor_network, coauthor_mapping.
  set (authors := retained_authors (count_authors (documents docs)) max_authors).
  pose proof (coauthor_nodes_graph (enumerate authors) (empty_graph true, [])) as Hg.
  fold (coauthor_nodes authors (empty_graph true)) in Hg.
  destruct (coauthor_nodes authors (empty_graph true)) as [g mapping].
  cbn [fst snd] in Hg. destruct Hg as [Hd He]. simpl in Hd, He.
  set (es := coauthor_edges mapping (documents docs)).
  assert (Hedges : edges (add_weighted_edges ["weight"] es g)
                   = (fun e : nat * nat * nat => (e.1, weight_attrs ["weight"] e.2)) <$> es).
  { rewrite add_weighted_edges_edges; rewrite Hd.
    - rewrite He. simpl. apply list_fmap_ext. by intros i [[a b] w] _.
    - rewrite (list_fmap_ext _ fst es) by (by intros i [[a b] w] _).
      apply coauthor_edges_NoDup.
    - intros e _. by rewrite He. }
  unfold edge_weight, edge_attr, edge_attrs.
  rewrite add_weighted_edges_directed, Hd, Hedges. simpl.
  rewrite (od_get_fmap_values (weight_attrs ["weight"])). unfold od_count.
  subst es.
  destruct (od_get (u, v) (coauthor_edges mapping (documents docs))) as [w|];
    simpl; [|done].
  unfold weight_attrs. simpl. by rewrite lookup_insert_eq.
Qed.

Lemma length_filter_resolved (mapping : list (string * nat)) names b v :
  NoDup names →
  od_get b mapping = Some v →
  (∀ r, od_get r mapping = Some v → r = b) →
  length (filter (fun right => od_get right mapping = Some v) names)
  = if decide (b ∈ names) then 1 else 0.
Proof.
  intros Hnd Hb Hinj. induction Hnd as [|x names Hx Hnd IH]; [done|].
  rewrite filter_cons. destruct (decide (od_get x mapping = Some v)) as [Hv|Hv].
  - apply Hinj in Hv as ->. simpl. rewrite IH, decide_False by done.
    rewrite decide_True by (by left). done.
  - rewrite IH. assert (x ≠ b) by congruence.
    destruct (decide (b ∈ names)).
    + rewrite decide_True by (by right). done.
    + rewrite decide_False; [done|]. by intros [->|?]%elem_of_cons.
Qed.

Lemma coauthor_pair_count_snoc mapping names x u v :
  coauthor_pair_count mapping (names ++ [x]) u v
  = coauthor_pair_count mapping names u v
    + (if decide (od_get x mapping = Some u)
       then length (filter (fun right => od_get right mapping = Some v) names)
       else 0).
Proof.
  unfold coauthor_pair_count. rewrite imap_app, sum_list_with_app.
  cbn [imap sum_list_with]. rewrite !Nat.add_0_r, take_app_length. unfold id.
  f_equal. f_equal. apply imap_ext. intros i y Hi. simpl.
  rewrite take_app_le; [done|]. apply lookup_lt_Some in Hi. lia.
Qed.

(** In a list without repetitions, one of two names stands before the
    other exactly when both are there. *)
Lemma coauthor_pair_count_both (mapping : list (string * nat)) names a b u v :
  NoDup names → a ≠ b →
  od_get a mapping = Some u → od_get b mapping = Some v →
  (∀ r, od_get r mapping = Some u → r = a) →
  (∀ r, od_get r mapping = Some v → r = b) →
  coauthor_pair_count mapping names u v + coauthor_pair_count mapping names v u
  = if decide (a ∈ names ∧ b ∈ names) then 1 else 0.
Proof.
  intros Hnd Hab Ha Hb Hinja Hinjb.
  induction names as [|x names IH] using rev_ind.
  { rewrite decide_False; [done|]. intros [H _]. by apply elem_of_nil in H. }
  apply NoDup_app in Hnd as (Hnd & Hx & _).
  assert (Hnew : x ∉ names). { intros Hin. apply (Hx x Hin). by left. }
  rewrite !coauthor_pair_count_snoc.
  rewrite (length_filter_resolved mapping names b v) by done.
  rewrite (length_filter_resolved mapping names a u) by done.
  specialize (IH Hnd).
  destruct (decide (od_get x mapping = Some u)) as [Hu|Hu];
    destruct (decide (od_get x mapping = Some v)) as [Hv|Hv].
  - apply Hinja in Hu. apply Hinjb in Hv. congruence.
  - apply Hinja in Hu as ->.
    rewrite decide_False in IH by (by intros [? _]).
    destruct (decide (b ∈ names)) as [Hin|Hin].
    + rewrite decide_True; [lia|]. split; apply elem_of_app; [right; by left|by left].
    + rewrite decide_False; [lia|]. intros [_ [?|Hb']%elem_of_app]; [done|].
      apply list_elem_of_singleton in Hb'. congruence.
  - apply Hinjb in Hv as ->.
    rewrite decide_False in IH by (by intros [_ ?]).
    destruct (decide (a ∈ names)) as [Hin|Hin].
    + rewrite decide_True; [lia|]. split; apply elem_of_app; [by left|right; by left].
    + rewrite decide_False; [lia|]. intros [[?|Ha']%elem_of_app _]; [done|].
      apply list_elem_of_singleton in Ha'. congruence.
  - assert (x ≠ a) by congruence. assert (x ≠ b) by congruence.
    rewrite !Nat.add_0_r, IH.
    destruct (decide (a ∈ names ∧ b ∈ names)) as [[H1 H2]|Hn].
    + rewrite decide_True; [done|]. split; apply elem_of_app; by left.
    + rewrite decide_False; [done|].
      intros [[?|Ha']%elem_of_app [?|Hb']%elem_of_app]; [by apply Hn|..];
        try apply list_elem_of_singleton in Ha';
        try apply list_elem_of_singleton in Hb'; congruence.
Qed.

(** The weight of the edge from [x] to [y] is, for every document set,
    the number of pairs of positions, over all documents, at which the
    author with index [x] stands after the author with index [y] (also
    when a document lists a name twice).  When no document lists a name
    twice, the weights of the two edges between two retained authors add
    up to the number of documents that list both of them: the graph
    splits the number of shared publications over the two directions. *)
Theorem build_coauthor_network_weights docs max_authors :
  let g := build_coauthor_network docs max_authors in
  let mapping := coauthor_mapping docs max_authors in
  (∀ x y, edge_weight g x y
          = sum_list ((fun doc => coauthor_pair_count mapping (author_names doc) x y)
                        <$> documents docs))
  ∧ ∀ a b u v,
      (∀ doc, doc ∈ documents docs → NoDup (author_names doc)) →
      a ≠ b →
      od_get a mapping = Some u →
      od_get b mapping = Some v →
      edge_weight g u v + edge_weight g v u = spec_coauthor_weight (documents docs) a b.
Proof.
  intros g mapping.
  assert (Hw : ∀ x y, edge_weight g x y
                      = sum_list ((fun doc => coauthor_pair_count mapping
                                                (author_names doc) x y)
                                    <$> documents docs)).
  { intros x y. unfold g. rewrite build_coauthor_network_edge_weight.
    apply (coauthor_edges_count _ _ (x, y)). }
  split; [exact Hw|]. intros a b u v Hnd Hab Ha Hb. rewrite !Hw.
  assert (Hinj : ∀ name name' i, od_get name mapping = Some i →
                                 od_get name' mapping = Some i → name = name').
  { intros name name' i H1 H2.
    apply (proj2 (coauthor_nodes_spec _)) in H1, H2. congruence. }
  unfold spec_coauthor_weight.
  rewrite <- (sum_list_indicator
                (fun doc => coauthor_pair_count mapping (author_names doc) u v
                            + coauthor_pair_count mapping (author_names doc) v u)).
  - generalize (documents docs). intros ds.
    induction ds as [|doc ds IH]; [done|]. rewrite !fmap_cons. simpl. lia.
  - intros doc Hdoc.
    apply (coauthor_pair_count_both mapping (author_names doc) a b u v); eauto.
Qed.

Lemma build_coauthor_network_weights_witness :
  edge_weight (build_coauthor_network swapped_authors_docs None) 1 0
  + edge_weight (build_coauthor_network swapped_authors_docs None) 0 1
  = spec_coauthor_weight (documents swapped_authors_docs) "Bob" "Ada".
Proof.
  apply (proj2 (build_coauthor_network_weights swapped_authors_docs None) "Bob" "Ada" 1 0).
  - intros doc Hdoc.
    repeat (apply elem_of_cons in Hdoc as [->|Hdoc]);
      [..|by apply elem_of_nil in Hdoc];
      apply (bool_decide_unpack _); by vm_compute.
  - done.
  - by vm_compute.
  - by vm_compute.
Defined.

(** A document that lists "Ada", "Bob", "Ada" gives the edge from "Bob" to
    "Ada", the edge from "Ada" to "Bob" and a loop on "Ada". *)
Example build_coauthor_network_repeated_name :
  let g := build_coauthor_network
             {| documents := [authored_doc "P" ["Ada"; "Bob"; "Ada"]]; data := [] |}
             None in
  edge_weight g 1 0 = 1 ∧ edge_weight g 0 1 = 1 ∧ edge_weight g 0 0 = 1.
Proof. by vm_compute. Qed.

(** ** The bound of build_cocitation_network that is zero or negative *)

Lemma prune_edges_length_min {K} (es : list (K * nat)) (max_edges : Z) :
  (0 ≤ max_edges)%Z →
  length (prune_edges es max_edges) = length es `min` Z.to_nat max_edges.
Proof.
  intros Hm. unfold prune_edges, slice_to.
  destruct (max_edges <? Z.of_nat (length es))%Z eqn:Ecut.
  - rewrite (proj2 (Z.leb_le 0 max_edges) Hm), length_take, sort_desc_length. lia.
  - apply Z.ltb_ge in Ecut. lia.
Qed.

Lemma prune_edges_all_dropped {K} (es : list (K * nat)) (max_edges : Z) :
  (max_edges ≤ - Z.of_nat (length es))%Z → prune_edges es max_edges = [].
Proof.
  intros Hm. apply length_zero_iff_nil. unfold prune_edges, slice_to.
  destruct (max_edges <? Z.of_nat (length es))%Z eqn:Ecut.
  - destruct (0 <=? max_edges)%Z eqn:Esign; rewrite length_take, sort_desc_length; lia.
  - apply Z.ltb_ge in Ecut. lia.
Qed.

(** C9, as stated, fails: the parameter can ask for a graph without
    edges.  Two documents are co-cited and the default gives their edge,
    but [max_edges=-5] cuts the edge list to [edges[:-5]], which is empty. *)
Lemma build_cocitation_network_negative_max_edges :
  (g ← build_cocitation_network DupIgnore cocited_docs None no_kwargs;
   Ok (length (edges g))) = Ok 1
  ∧ (g ← build_cocitation_network DupIgnore cocited_docs (Some (-5)%Z) no_kwargs;
     Ok (edges g)) = Ok [].
Proof. split; by vm_compute. Qed.

(** C9, amended.  [max_edges=0] and [max_edges=None] are the same call:
    both use the bound of twice the number of documents.  Once the base
    graph is built the call with 0 returns a graph with as many edges as
    there are co-cited pairs, up to that bound, so it has an edge whenever
    some pair is co-cited: zero edges cannot be asked for with 0.  They
    can be asked for with a negative bound: a [max_edges] of at most minus
    the number of co-cited pairs returns a graph without edges. *)
Theorem build_cocitation_network_max_edges_zero pol docs kw :
  build_cocitation_network pol docs (Some 0%Z) kw
  = build_cocitation_network pol docs None kw
  ∧ ∀ g0 mapping,
      build_base_network pol docs false kw = Ok (g0, mapping) →
      let strength := cocitation_strength mapping (documents docs) in
      (∃ g, build_cocitation_network pol docs (Some 0%Z) kw = Ok g
            ∧ length (edges g) = length strength `min` (length (documents docs) * 2)
            ∧ (strength ≠ [] → edges g ≠ []))
      ∧ ∀ m, m ≠ 0%Z → (m ≤ - Z.of_nat (length strength))%Z →
             ∃ g, build_cocitation_network pol docs (Some m) kw = Ok g
                  ∧ edges g = [].
Proof.
  split; [done|]. intros g0 mapping H strength. split.
  - destruct (build_cocitation_network_edge_table _ _ (Some 0%Z) _ _ _ H)
      as (g & Hg & _ & _ & He).
    fold strength in He. simpl in He.
    assert (Hlen : length (edges g)
                   = length strength `min` (length (documents docs) * 2)).
    { rewrite He, length_fmap, prune_edges_length_min by lia. lia. }
    exists g. split; [done|]. split; [done|].
    intros Hs Hnil. rewrite Hnil in Hlen. simpl in Hlen.
    destruct (documents docs) as [|doc ds] eqn:Edocs; [done|].
    destruct strength; [done|]. simpl in Hlen. lia.
  - intros m Hm Hneg.
    destruct (build_cocitation_network_edge_table _ _ (Some m) _ _ _ H)
      as (g & Hg & _ & _ & He).
    fold strength in He.
    assert (cocitation_max_edges (Some m) docs = m) as Hb by (by destruct m).
    rewrite Hb, prune_edges_all_dropped in He by done.
    by exists g.
Qed.
